(** * Real-or-AI front end: metrics derivation and API client

    A shallow embedding of the JavaScript sources

    - [ConfusionMatrix] (components/ConfusionMatrix.jsx): accuracy,
      precision, recall and F1 shown above the confusion matrix;
    - [PredictionResult] (components/PredictionResult.jsx): the
      confidence percentage;
    - [MetricsCharts] (components/MetricsCharts.jsx): the per-epoch
      chart rows;
    - services/api.js: the axios response interceptor,
      [uploadImageAndPredict] and [sendChatMessage].

    JavaScript numbers are IEEE-754 doubles.  Module [F64] has the numeric
    code on binary64, operation by operation, with the rounding of the
    Standard Library's specification of the primitive floats; the claims
    about computed numbers are stated and proved of it.  Module [Num] keeps
    the exact rational value of a number together with NaN and the two
    infinities; it is used where no rounding takes part: comparisons,
    0/0, and the inputs at which every operation is exact. *)

From Stdlib Require Import ZArith QArith Qpower Qround Qabs Qminmax Lqa Lia Bool.
From Stdlib Require Import Ascii String List Floats Uint63.
From stdpp Require Import base option list gmap strings.
Import ListNotations.

Open Scope Z_scope.

(** ** JavaScript numbers *)

Module Num.

Inductive jsnum :=
| NaN
| Inf (neg : bool)
| Fin (q : Q).

Definition of_Z (z : Z) : jsnum := Fin (inject_Z z).
Definition of_N (n : N) : jsnum := of_Z (Z.of_N n).

Definition Qis_zero (q : Q) : bool := Qnum q =? 0.
Definition Qis_neg (q : Q) : bool := Qnum q <? 0.

(** [x + y] *)
Definition add (x y : jsnum) : jsnum :=
  match x, y with
  | NaN, _ | _, NaN => NaN
  | Inf a, Inf b => if Bool.eqb a b then Inf a else NaN
  | Inf a, Fin _ => Inf a
  | Fin _, Inf b => Inf b
  | Fin p, Fin q => Fin (p + q)
  end.

(** [x * y] *)
Definition mul (x y : jsnum) : jsnum :=
  match x, y with
  | NaN, _ | _, NaN => NaN
  | Inf a, Inf b => Inf (xorb a b)
  | Inf a, Fin q | Fin q, Inf a =>
      if Qis_zero q then NaN else Inf (xorb a (Qis_neg q))
  | Fin p, Fin q => Fin (p * q)
  end.

(** [x / y] *)
Definition div (x y : jsnum) : jsnum :=
  match x, y with
  | NaN, _ | _, NaN => NaN
  | Inf _, Inf _ => NaN
  | Inf a, Fin q => Inf (xorb a (Qis_neg q))
  | Fin _, Inf _ => Fin 0
  | Fin p, Fin q =>
      if Qis_zero q then
        (if Qis_zero p then NaN else Inf (Qis_neg p))
      else Fin (p / q)
  end.

(** [x > y]; every comparison with NaN is false. *)
Definition gt (x y : jsnum) : bool :=
  match x, y with
  | NaN, _ | _, NaN => false
  | Inf a, Inf b => negb a && b
  | Inf a, Fin _ => negb a
  | Fin _, Inf b => b
  | Fin p, Fin q => if Qlt_le_dec q p then true else false
  end.

(** [x >= y] *)
Definition ge (x y : jsnum) : bool :=
  match x, y with
  | NaN, _ | _, NaN => false
  | Inf a, Inf b => negb a || b
  | Inf a, Fin _ => negb a
  | Fin _, Inf b => b
  | Fin p, Fin q => if Qlt_le_dec p q then false else true
  end.

(** Equality of numbers as values ([Q] has several terms per value). *)
Definition same (x y : jsnum) : Prop :=
  match x, y with
  | NaN, NaN => True
  | Inf a, Inf b => a = b
  | Fin p, Fin q => p == q
  | _, _ => False
  end.

End Num.
Export Num.

Declare Scope js_scope.
Delimit Scope js_scope with js.
Bind Scope js_scope with jsnum.
Infix "+" := Num.add : js_scope.
Infix "*" := Num.mul : js_scope.
Infix "/" := Num.div : js_scope.
Infix ">" := Num.gt : js_scope.
Infix ">=" := Num.ge : js_scope.

(** ** Decimal digit strings *)

Module Digits.

#[local] Open Scope string_scope.

Definition digit_char (d : N) : ascii := ascii_of_N (48 + d).

Definition is_digit (c : ascii) : bool :=
  let n := N_of_ascii c in ((48 <=? n) && (n <=? 57))%N.

Definition digit_val (c : ascii) : N := (N_of_ascii c - 48)%N.

(** Most significant digit first; [fuel] bounds the number of digits. *)
Fixpoint digits_aux (fuel : nat) (n : N) (acc : string) : string :=
  match fuel with
  | O => acc
  | S fuel' =>
      let acc' := String (digit_char (n mod 10)) acc in
      if (n / 10 =? 0)%N then acc' else digits_aux fuel' (n / 10) acc'
  end.

(** The decimal representation of [n]; ["0"] for zero. *)
Definition digits (n : N) : string :=
  digits_aux (S (N.to_nat (N.log2 n))) n "".

(** The number a string of digits denotes. *)
Fixpoint val_acc (s : string) (acc : N) : N :=
  match s with
  | "" => acc
  | String c r => val_acc r (10 * acc + digit_val c)%N
  end.

Definition val (s : string) : N := val_acc s 0.

Fixpoint all_digits (s : string) : bool :=
  match s with
  | "" => true
  | String c r => is_digit c && all_digits r
  end.

Fixpoint zeros (k : nat) : string :=
  match k with
  | O => ""
  | S k' => String "0" (zeros k')
  end.

Fixpoint take (k : nat) (s : string) : string :=
  match k, s with
  | S k', String c r => String c (take k' r)
  | _, _ => ""
  end.

Fixpoint drop (k : nat) (s : string) : string :=
  match k, s with
  | S k', String _ r => drop k' r
  | _, _ => s
  end.

(** The longest prefix of digits, and what follows it. *)
Fixpoint span_digits (s : string) : string * string :=
  match s with
  | String c r =>
      if is_digit c then
        let (d, t) := span_digits r in (String c d, t)
      else ("", s)
  | "" => ("", "")
  end.

Definition is_empty (s : string) : bool :=
  match s with "" => true | _ => false end.

End Digits.
Export Digits.

(** ** Number.prototype.toFixed and parseFloat *)

Definition pow10 (k : nat) : Q := inject_Z (10 ^ Z.of_nat k).

(** The integer [n] for which [n / 10^f - x] is closest to zero, the larger
    one when two are equally close ([x] is not negative). *)
Definition nearest_scaled (f : nat) (x : Q) : N :=
  Z.to_N (Qfloor (x * pow10 f + (1 # 2))%Q).

(** Steps 11.a to 11.c of Number.prototype.toFixed for the integer [n]:
    its digits, padded with zeros to [f + 1] characters, with the point
    before the last [f] of them. *)
Definition fixed_digits (f : nat) (n : N) : string :=
  let m := digits n in
  match f with
  | O => m
  | _ =>
      let k := String.length m in
      let m := if (k <=? f)%nat then (zeros (f + 1 - k) ++ m)%string else m in
      let k := String.length m in
      (take (k - f) m ++ "." ++ drop (k - f) m)%string
  end.

Section ToFixed.

(** From 10^21 on, toFixed hands over to Number::toString, which prints in
    exponent notation the shortest digits that identify the double; that
    depends on the binary representation and is left as a parameter. *)
Variable toString_large : Q -> string.

(** [x.toFixed(f)] for a literal [f] between 0 and 100. *)
Definition toFixed (f : nat) (x : jsnum) : string :=
  match x with
  | NaN => "NaN"
  | Inf false => "Infinity"
  | Inf true => "-Infinity"
  | Fin q =>
      let s := if Qis_neg q then "-" else "" in
      let x := Qabs q in
      if Qle_bool (pow10 21) x then (s ++ toString_large x)%string
      else (s ++ fixed_digits f (nearest_scaled f x))%string
  end%string.

End ToFixed.

(** White space, of the characters below 128. *)
Definition is_ws (c : ascii) : bool :=
  match N_of_ascii c with
  | 9 | 10 | 11 | 12 | 13 | 32 => true
  | _ => false
  end%N.

Fixpoint skip_ws (s : string) : string :=
  match s with
  | String c r => if is_ws c then skip_ws r else s
  | EmptyString => s
  end.

Definition read_sign (s : string) : bool * string :=
  match s with
  | String "-" r => (true, r)
  | String "+" r => (false, r)
  | _ => (false, s)
  end%char.

(** The value of an ExponentPart at the head of [s], 0 when there is none. *)
Definition read_exponent (s : string) : Z :=
  match s with
  | String c r =>
      if (Ascii.eqb c "e" || Ascii.eqb c "E")%char then
        let (neg, r') := read_sign r in
        let (d, _) := span_digits r' in
        if is_empty d then 0
        else if neg then - Z.of_N (val d) else Z.of_N (val d)
      else 0
  | EmptyString => 0
  end.

(** The StrUnsignedDecimalLiteral at the head of [s1], after the sign. *)
Definition parse_unsigned (neg : bool) (s1 : string) : jsnum :=
  if String.prefix "Infinity" s1 then Inf neg
  else
    let (ip, s2) := span_digits s1 in
    let (fp, s3) :=
      match s2 with
      | String "." r => span_digits r
      | _ => (EmptyString, s2)
      end%char in
    if is_empty ip && is_empty fp then NaN
    else
      let mant :=
        (inject_Z (Z.of_N (val ip))
         + inject_Z (Z.of_N (val fp)) / pow10 (String.length fp))%Q in
      let v := (mant * Qpower 10 (read_exponent s3))%Q in
      Fin (if neg then (- v)%Q else v).

(** [parseFloat(s)]: leading white space is skipped, the longest prefix that
    is a StrDecimalLiteral is read, NaN when there is none. *)
Definition parseFloat (s : string) : jsnum :=
  let (neg, s1) := read_sign (skip_ws s) in
  parse_unsigned neg s1.

(** ** ConfusionMatrix.jsx *)

Record stats := {
  accuracy : string;
  precision : string;
  recall : string;
  f1Score : string
}.

(** [[tn, fp], [fn, tp]] with counts as entries. *)
Definition matrix := ((N * N) * (N * N))%type.

Section ConfusionMatrix.

Variable toString_large : Q -> string.
#[local] Open Scope js_scope.

Definition ConfusionMatrix (m : matrix) : stats :=
  let '((tn, fp), (fn, tp)) := m in
  let '(tn, fp, fn, tp) := (of_N tn, of_N fp, of_N fn, of_N tp) in
  let total := tn + fp + fn + tp in
  let accuracy := toFixed toString_large 1 ((tn + tp) / total * of_Z 100) in
  let precision := toFixed toString_large 1 (tp / (tp + fp) * of_Z 100) in
  let recall := toFixed toString_large 1 (tp / (tp + fn) * of_Z 100) in
  let p := parseFloat precision in
  let r := parseFloat recall in
  let f1Score :=
    if p + r > of_Z 0
    then toFixed toString_large 1 (of_Z 2 * p * r / (p + r))
    else "N/A"%string in
  {| accuracy := accuracy; precision := precision;
     recall := recall; f1Score := f1Score |}.

End ConfusionMatrix.

Definition mock_matrix : matrix := ((4250, 350), (420, 4980))%N.

(** ** PredictionResult.jsx *)

Inductive level := high | medium | low.

Section PredictionResult.

Variable toString_large : Q -> string.

#[local] Open Scope js_scope.

(** Convert confidence to percentage (handle both 0-1 and 0-100 formats). *)
Definition confidencePercent (confidence : jsnum) : jsnum :=
  if confidence > of_Z 1 then confidence else confidence * of_Z 100.

Definition confidenceDisplay (confidence : jsnum) : string :=
  toFixed toString_large 1 (confidencePercent confidence).

Definition getConfidenceLevel (percent : jsnum) : level :=
  if percent >= of_Z 85 then high
  else if percent >= of_Z 65 then medium
  else low.

Definition confidenceLevel (confidence : jsnum) : level :=
  getConfidenceLevel (confidencePercent confidence).

End PredictionResult.

(** ** The same computations on binary64

    The functions above, on the doubles JavaScript computes with: the
    arithmetic rounds as IEEE 754 prescribes, toFixed works on the exact
    value of the double, and parseFloat rounds the decimal it reads to the
    nearest double.  They replay the concrete inputs of the claims bit for
    bit. *)

Module F64.

Definition of_Z (z : Z) : float := PrimFloat.of_uint63 (Uint63.of_Z z).
Definition of_N (n : N) : float := of_Z (Z.of_N n).

(** The number a double stands for. *)
Definition value (x : float) : jsnum :=
  match Prim2SF x with
  | S754_zero _ => Fin 0
  | S754_infinity s => Inf s
  | S754_nan => NaN
  | S754_finite s m e =>
      let v := (inject_Z (Z.pos m) * Qpower 2 e)%Q in
      Fin (Qred (if s then (- v)%Q else v))
  end.

(** The double nearest to [q]: the quotient of numerator and denominator,
    which division rounds correctly when both are below 2^53 and so are
    doubles themselves; [None] beyond that. *)
Definition nearest (q : Q) : option float :=
  let q := Qred q in
  if (Z.abs (Qnum q) <? 2 ^ 53) && (Z.pos (Qden q) <? 2 ^ 53) then
    Some (if Qnum q <? 0
          then PrimFloat.opp
                 (PrimFloat.div (of_Z (- Qnum q)) (of_Z (Z.pos (Qden q))))
          else PrimFloat.div (of_Z (Qnum q)) (of_Z (Z.pos (Qden q))))
  else None.

Definition of_jsnum (x : jsnum) : option float :=
  match x with
  | NaN => Some PrimFloat.nan
  | Inf false => Some PrimFloat.infinity
  | Inf true => Some PrimFloat.neg_infinity
  | Fin q => nearest q
  end.

Section Display.

Variable toString_large : Q -> string.

Definition toFixed (f : nat) (x : float) : string :=
  toFixed toString_large f (value x).

Definition parseFloat (s : string) : option float :=
  of_jsnum (parseFloat s).

#[local] Open Scope float_scope.

(** The statistics from the four entries of the matrix, which are
    JavaScript numbers. *)
Definition deriveConfusionStats (tn fp fn tp : float) : option stats :=
  let total := tn + fp + fn + tp in
  let accuracy := toFixed 1 ((tn + tp) / total * of_Z 100) in
  let precision := toFixed 1 (tp / (tp + fp) * of_Z 100) in
  let recall := toFixed 1 (tp / (tp + fn) * of_Z 100) in
  match parseFloat precision, parseFloat recall with
  | Some p, Some r =>
      let f1Score :=
        if of_Z 0 <? p + r
        then toFixed 1 (of_Z 2 * p * r / (p + r))
        else "N/A"%string in
      Some {| accuracy := accuracy; precision := precision;
              recall := recall; f1Score := f1Score |}
  | _, _ => None
  end.

Definition ConfusionMatrix (m : matrix) : option stats :=
  let '((tn, fp), (fn, tp)) := m in
  deriveConfusionStats (of_N tn) (of_N fp) (of_N fn) (of_N tp).

Definition confidencePercent (confidence : float) : float :=
  if of_Z 1 <? confidence then confidence else confidence * of_Z 100.

Definition confidenceDisplay (confidence : float) : string :=
  toFixed 1 (confidencePercent confidence).

Definition getConfidenceLevel (percent : float) : level :=
  if of_Z 85 <=? percent then high
  else if of_Z 65 <=? percent then medium
  else low.

Definition confidenceLevel (confidence : float) : level :=
  getConfidenceLevel (confidencePercent confidence).

End Display.

End F64.

(** ** MetricsCharts.jsx *)

(** The arrays of a metrics report; the confusion matrix is used by
    [ConfusionMatrix] only. *)
Record metrics := {
  epochs : list jsnum;
  train_accuracy : list jsnum;
  val_accuracy : list jsnum;
  train_loss : list jsnum;
  val_loss : list jsnum
}.

(** One row of the chart; reading an array past its end gives undefined,
    here [None]. *)
Record chart_row := {
  epoch : jsnum;
  trainAccuracy : option jsnum;
  valAccuracy : option jsnum;
  trainLoss : option jsnum;
  valLoss : option jsnum
}.

Definition chartData (m : metrics) : list chart_row :=
  imap (fun index epoch =>
    {| epoch := epoch;
       trainAccuracy := train_accuracy m !! index;
       valAccuracy := val_accuracy m !! index;
       trainLoss := train_loss m !! index;
       valLoss := val_loss m !! index |}) (epochs m).

Definition mock_metrics : metrics :=
  let n (l : list Z) := map (fun z => Fin (z # 100)) l in
  {| epochs := map of_Z [1; 2; 3; 4; 5; 6; 7; 8; 9; 10];
     train_accuracy := n [52; 65; 73; 79; 84; 87; 90; 92; 94; 95];
     val_accuracy := n [50; 62; 70; 76; 80; 83; 85; 87; 88; 89];
     train_loss := n [95; 78; 62; 50; 42; 35; 28; 23; 19; 16];
     val_loss := n [98; 82; 68; 58; 50; 45; 40; 37; 35; 34] |}.

(** ** JavaScript values *)

(** Values of response bodies and of the arguments the checks look into.
    Numbers in them are integers. *)
#[warnings="-register-all"]
Inductive jsval :=
| JUndefined
| JNull
| JBool (b : bool)
| JNum (n : Z)
| JStr (s : string)
| JArr (l : list jsval)
| JObj (o : gmap string jsval).

Definition nullish (v : jsval) : bool :=
  match v with JUndefined | JNull => true | _ => false end.

(** ToBoolean *)
Definition truthy (v : jsval) : bool :=
  match v with
  | JUndefined | JNull => false
  | JBool b => b
  | JNum n => negb (n =? 0)%Z
  | JStr s => negb (is_empty s)
  | JArr _ | JObj _ => true
  end.

(** [a || b] *)
Definition or_else (a b : jsval) : jsval := if truthy a then a else b.

(** [v.k] for a [v] that is not null or undefined; none of the keys read
    here is a property of a primitive or of an array. *)
Definition prop (v : jsval) (k : string) : jsval :=
  match v with
  | JObj o => default JUndefined (o !! k)
  | _ => JUndefined
  end.

(** [v?.k] *)
Definition opt_prop (v : jsval) (k : string) : jsval :=
  if nullish v then JUndefined else prop v k.

(** ToString *)
Fixpoint ToString (v : jsval) : string :=
  match v with
  | JUndefined => "undefined"
  | JNull => "null"
  | JBool true => "true"
  | JBool false => "false"
  | JNum n => (if (n <? 0)%Z then "-" else "") ++ digits (Z.abs_N n)
  | JStr s => s
  | JArr l =>
      (fix join (l : list jsval) : string :=
         match l with
         | [] => ""
         | x :: r =>
             (if nullish x then "" else ToString x)
             ++ match r with [] => "" | _ => "," ++ join r end
         end) l
  | JObj _ => "[object Object]"
  end%string.

(** ** String methods *)

(** [toLowerCase] on the letters A to Z; strings are ASCII. *)
Definition lower_char (c : ascii) : ascii :=
  let n := N_of_ascii c in
  if ((65 <=? n) && (n <=? 90))%N then ascii_of_N (n + 32) else c.

Fixpoint toLowerCase (s : string) : string :=
  match s with
  | EmptyString => EmptyString
  | String c r => String (lower_char c) (toLowerCase r)
  end.

(** [hay.includes(needle)] *)
Fixpoint str_includes (hay needle : string) : bool :=
  String.prefix needle hay
  || match hay with
     | String _ r => str_includes r needle
     | EmptyString => false
     end.

(** [x < y], the same test as [y > x]. *)
Definition js_lt (x y : jsnum) : bool := Num.gt y x.

(** ** services/api.js *)

Module Api.

Record Response := {
  data : jsval;
  status : Z
}.

(** What axios rejects with: an Error, whose message is a string, with the
    response when the server sent one. *)
Record AxiosError := {
  message : string;
  response : option Response
}.

Record File := {
  type : string;
  size : N
}.

Inductive http_method := GET | POST.

Inductive body :=
| NoBody
| FormData (entries : list (string * File))
| Json (v : jsval).

Record Request := {
  method : http_method;
  url : string;
  payload : body;
  headers : list (string * string);
  timeout : Z
}.

(** The errors a caller can catch.  [ValidationError] is the plain
    [new Error(message)] thrown by the argument checks; [StandardError] is
    the error the response interceptor builds, with [status] and
    [originalError]; [TypeError] is raised by reading a property of null or
    undefined. *)
Inductive exn :=
| ValidationError (message : string)
| StandardError (message : string) (status : Z) (originalError : AxiosError)
| TypeError.

Inductive outcome (A : Type) :=
| Resolve (a : A)
| Throw (e : exn).
Arguments Resolve {A} a.
Arguments Throw {A} e.

(** An operation runs on the list of requests sent so far. *)
Definition api (A : Type) : Type := list Request -> outcome A * list Request.

Definition throw {A} (e : exn) : api A := fun log => (Throw e, log).

#[export] Instance api_ret : MRet api :=
  fun A (a : A) log => (Resolve a, log).

(** [await]: a rejection ends the caller with the same error. *)
#[export] Instance api_bind : MBind api :=
  fun A B (k : A -> api B) (m : api A) log =>
    match m log with
    | (Resolve a, log') => k a log'
    | (Throw e, log') => (Throw e, log')
    end.

Definition fallback_message : string := "An unexpected error occurred".

(** The rejection handler of the response interceptor. *)
Definition on_rejected (error : AxiosError) : exn :=
  let body := match response error with
              | Some r => data r
              | None => JUndefined
              end in
  let message :=
    or_else (opt_prop body "error")
      (or_else (opt_prop body "message")
         (or_else (JStr (message error)) (JStr fallback_message))) in
  let status :=
    match response error with
    | Some r => if (status r =? 0)%Z then 500 else status r
    | None => 500
    end in
  StandardError (ToString message) status error.

Section Client.

(** The transport below axios: what a request is answered with. *)
Variable adapter : Request -> AxiosError + Response.

Definition API_BASE_URL : string := "".

Definition default_headers : list (string * string) :=
  [("Accept", "application/json")]%string.

Definition send (req : Request) : api Response :=
  fun log =>
    match adapter req with
    | inr r => (Resolve r, log ++ [req])
    | inl e => (Throw (on_rejected e), log ++ [req])
    end.

Definition apiClient_post (path : string) (b : body)
    (extra : list (string * string)) : api Response :=
  send {| method := POST; url := (API_BASE_URL ++ path)%string; payload := b;
          headers := default_headers ++ extra; timeout := 30000 |}.

Definition validTypes : list string :=
  ["image/jpeg"; "image/png"; "image/webp"; "image/gif"]%string.

Definition includes (l : list string) (s : string) : bool :=
  existsb (String.eqb s) l.

Definition maxSize : N := 10 * 1024 * 1024.

(** [imageFile] is [None] for null or undefined. *)
Definition uploadImageAndPredict (imageFile : option File) : api jsval :=
  match imageFile with
  | None => throw (ValidationError "No image file provided")
  | Some file =>
      if negb (includes validTypes (type file)) then
        throw (ValidationError
          "Invalid file type. Please upload a JPEG, PNG, WebP, or GIF image.")
      else if (maxSize <? size file)%N then
        throw (ValidationError "File too large. Maximum size is 10MB.")
      else
        let formData := FormData [("image"%string, file)] in
        response ← apiClient_post "/api/predict" formData
                     [("Content-Type", "multipart/form-data")]%string;
        mret (data response)
  end.

(** The loop over the messages. *)
Fixpoint check_messages (l : list jsval) : api unit :=
  match l with
  | [] => mret tt
  | msg :: rest =>
      if nullish msg then throw TypeError
      else if negb (truthy (prop msg "role"))
              || negb (truthy (prop msg "content")) then
        throw (ValidationError "Each message must have a role and content")
      else check_messages rest
  end.

Definition sendChatMessage (messages : jsval) : api jsval :=
  match messages with
  | JArr ((_ :: _) as l) =>
      check_messages l;;
      response ← apiClient_post "/api/chat"
                   (Json (JObj {[ "messages"%string := messages ]})) [];
      mret (data response)
  | _ => throw (ValidationError "Messages array is required")
  end.

Definition apiClient_get (path : string) : api Response :=
  send {| method := GET; url := (API_BASE_URL ++ path)%string;
          payload := NoBody; headers := default_headers; timeout := 30000 |}.

Definition is_string (v : jsval) : bool :=
  match v with JStr _ => true | _ => false end.

(** [context] is [JUndefined] when the caller leaves it out; the default
    value [''] replaces undefined only. *)
Definition summarizeText (text context : jsval) : api jsval :=
  let context := match context with JUndefined => JStr "" | _ => context end in
  if negb (truthy text) || negb (is_string text) then
    throw (ValidationError "Text is required for summarization")
  else
    response ← apiClient_post "/api/gen/summary"
                 (Json (JObj (<[ "text"%string := text ]>
                                {[ "context"%string := context ]}))) [];
    mret (data response).

Definition getMetrics : api jsval :=
  response ← apiClient_get "/api/metrics";
  mret (data response).

Definition checkHealth : api jsval :=
  response ← apiClient_get "/api/health";
  mret (data response).

End Client.

End Api.

(** ** The mock functions of services/api.js

    The delays (setTimeout) are left out; the values of Math.random are
    arguments. *)

Module Mocks.

Import Api.

Record prediction_result := {
  prediction : jsval;
  confidence : float;
  details : jsval
}.

Definition details_real : string :=
  "The image shows natural skin texture and consistent lighting patterns typical of real photographs.".
Definition details_fake : string :=
  "The model detected artifacts in the eye region and inconsistent facial symmetry typical of AI-generated images.".

(** The literal 0.2: the double nearest to it. *)
Definition two_tenths : float := 0x1.999999999999ap-3%float.

Section Upload.

Variable toString_large : Q -> string.

(** [random1] and [random2] are the two values of Math.random(); the file
    is not looked at.  The numbers are doubles. *)
Definition mockUploadImageAndPredict (imageFile : option File)
    (random1 random2 : float) : option prediction_result :=
  let isReal := (0.5 <? random1)%float in
  let confidence := (0.75 + random2 * two_tenths)%float in
  c ← F64.parseFloat (F64.toFixed toString_large 2 confidence);
  Some {| prediction := JStr (if isReal then "Real" else "Fake");
          confidence := c;
          details := JStr (if isReal then details_real else details_fake) |}.

End Upload.

Definition reply_fake : string :=
  "AI-generated faces often exhibit subtle artifacts in areas like eyes, ears, and hair. Our CNN model learned to detect these patterns by training on 140,000+ images from the GenImage dataset. Common telltale signs include asymmetric earrings, irregular teeth, and unnatural skin textures around facial boundaries.".
Definition reply_real : string :=
  "Real photographs show natural variations in lighting, skin texture, and facial features. Our model learned to recognize authentic patterns like consistent shadow casting, natural pore distribution, and realistic hair strands that are difficult for AI generators to replicate perfectly.".
Definition reply_metrics : string :=
  "Our model achieves approximately 89% validation accuracy on the test set. The confusion matrix shows good balance between precision and recall, with slightly more false positives (real images classified as fake) than false negatives.".
Definition reply_help : string :=
  "I can help explain how our Real vs AI face classifier works. You can ask me about how the model detects fake images, what makes real photos different, or about our training performance and accuracy metrics.".

Definition reply_object (reply : string) : jsval :=
  JObj {[ "reply"%string := JStr reply ]}.

(** The reply chosen for the lower-cased query. *)
Definition mock_reply (userQuery : string) : string :=
  if str_includes userQuery "fake" || str_includes userQuery "ai" then
    reply_fake
  else if str_includes userQuery "real" then reply_real
  else if str_includes userQuery "accuracy"
          || str_includes userQuery "performance" then reply_metrics
  else reply_help.

(** [messages] is an array.  [messages[messages.length - 1]] is undefined
    for the empty array; reading [content] of undefined or null, and
    calling [toLowerCase] on what is not a string, raise a TypeError. *)
Definition mockSendChatMessage (messages : list jsval) : outcome jsval :=
  let lastMessage := default JUndefined (last messages) in
  if nullish lastMessage then Throw TypeError
  else
    match prop lastMessage "content" with
    | JStr content =>
        let userQuery := toLowerCase content in
        Resolve (reply_object (mock_reply userQuery))
    | _ => Throw TypeError
    end.

End Mocks.

(** ** More of PredictionResult.jsx *)

(** [prediction?.toLowerCase() === 'real']; [toLowerCase] is no method of
    a number, a boolean, an array or a plain object. *)
Definition isReal (prediction : jsval) : Api.outcome bool :=
  match prediction with
  | JUndefined | JNull => Api.Resolve false
  | JStr s => Api.Resolve (String.eqb (toLowerCase s) "real")
  | _ => Api.Throw Api.TypeError
  end.

(** The label under the confidence bar. *)
Definition confidenceLabel (l : level) : string :=
  match l with
  | high => "High confidence"
  | medium => "Moderate confidence"
  | low => "Low confidence"
  end.

Definition note_low : string :=
  " Low confidence scores suggest the image may have ambiguous features.".
Definition note_medium : string :=
  " Consider additional verification for important decisions.".
Definition note_high : string :=
  " High confidence indicates strong distinguishing features were detected.".

(** The sentences of the interpretation guide that are rendered:
    [cond && text] renders [text] when [cond] holds and nothing else. *)
Definition interpretation (confidencePercent : jsnum) : list string :=
  (if js_lt confidencePercent (of_Z 70) then [note_low] else [])
  ++ (if (confidencePercent >= of_Z 70)%js
         && js_lt confidencePercent (of_Z 85) then [note_medium] else [])
  ++ (if (confidencePercent >= of_Z 85)%js then [note_high] else []).

(** ** MetricsView.jsx *)

Record summary := {
  finalTrainAccuracy : string;
  finalValAccuracy : string;
  finalTrainLoss : string;
  finalValLoss : string;
  totalEpochs : nat
}.

(** [arr[i]] for an integer [i]: undefined, here [None], outside the
    array, also for [i = -1]. *)
Definition at_index {A} (arr : list A) (i : Z) : option A :=
  if i <? 0 then None else arr !! Z.to_nat i.

(** ToNumber of an array entry: undefined becomes NaN. *)
Definition ToNumber (x : option jsnum) : jsnum :=
  match x with Some v => v | None => NaN end.

Section MetricsView.

Variable toString_large : Q -> string.

(** [metrics] is [None] for null; [undefined.toFixed(4)] raises a
    TypeError. *)
Definition getSummaryStats (metrics : option metrics)
  : Api.outcome (option summary) :=
  match metrics with
  | None => Api.Resolve None
  | Some m =>
      let lastEpoch := Z.of_nat (length (epochs m)) - 1 in
      let finalTrainAccuracy :=
        toFixed toString_large 1
          (ToNumber (at_index (train_accuracy m) lastEpoch) * of_Z 100)%js in
      let finalValAccuracy :=
        toFixed toString_large 1
          (ToNumber (at_index (val_accuracy m) lastEpoch) * of_Z 100)%js in
      match at_index (train_loss m) lastEpoch,
            at_index (val_loss m) lastEpoch with
      | Some tl, Some vl =>
          Api.Resolve (Some
            {| finalTrainAccuracy := finalTrainAccuracy;
               finalValAccuracy := finalValAccuracy;
               finalTrainLoss := toFixed toString_large 4 tl;
               finalValLoss := toFixed toString_large 4 vl;
               totalEpochs := length (epochs m) |})
      | _, _ => Api.Throw Api.TypeError
      end
  end.

End MetricsView.

(** ** ImageUploadForm.jsx *)

Module ImageUploadForm.

Import Api.

Definition ALLOWED_TYPES : list string :=
  ["image/jpeg"; "image/png"; "image/webp"; "image/gif"]%string.

Definition MAX_FILE_SIZE : N := 10 * 1024 * 1024.

(** The error message, [None] for null; [file] is [None] for a missing
    file. *)
Definition validateFile (file : option File) : option string :=
  match file with
  | None => Some "No file selected"%string
  | Some f =>
      if negb (includes ALLOWED_TYPES (type f)) then
        Some "Invalid file type."%string
      else if (MAX_FILE_SIZE <? size f)%N then
        Some "File too large (Max 10MB)."%string
      else None
  end.

Record form_state := {
  selectedFile : option File;
  previewUrl : option string;
  isDragOver : bool;
  error : option string
}.

Definition initial : form_state :=
  {| selectedFile := None; previewUrl := None;
     isDragOver := false; error := None |}.

(** What the user can do to the form; the file of a change or drop event
    is [files?.[0]], [None] when there is none. *)
Inductive event :=
| InputChange (file : option File)
| DragOver
| DragLeave
| Drop (file : option File)
| Submit
| Clear.

Section Handlers.

(** URL.createObjectURL of the browser. *)
Variable createObjectURL : File -> string.

Definition handleFileSelect (file : File) (st : form_state) : form_state :=
  match validateFile (Some file) with
  | Some validationError =>
      {| selectedFile := None; previewUrl := None;
         isDragOver := isDragOver st; error := Some validationError |}
  | None =>
      {| selectedFile := Some file;
         previewUrl := Some (createObjectURL file);
         isDragOver := isDragOver st; error := None |}
  end.

Definition set_drag (b : bool) (st : form_state) : form_state :=
  {| selectedFile := selectedFile st; previewUrl := previewUrl st;
     isDragOver := b; error := error st |}.

(** One event: the next state and the file handed to [onSubmit], if
    any. *)
Definition handle (st : form_state) (e : event)
  : form_state * option File :=
  match e with
  | InputChange (Some file) => (handleFileSelect file st, None)
  | InputChange None => (st, None)
  | DragOver => (set_drag true st, None)
  | DragLeave => (set_drag false st, None)
  | Drop (Some file) => (handleFileSelect file (set_drag false st), None)
  | Drop None => (set_drag false st, None)
  | Submit =>
      match selectedFile st with
      | None =>
          ({| selectedFile := None; previewUrl := previewUrl st;
              isDragOver := isDragOver st;
              error := Some "Please select an image first"%string |}, None)
      | Some file => (st, Some file)
      end
  | Clear =>
      ({| selectedFile := None; previewUrl := None;
          isDragOver := isDragOver st; error := None |}, None)
  end.

(** A sequence of events: the last state and the files submitted, in
    order. *)
Fixpoint run (st : form_state) (events : list event)
  : form_state * list File :=
  match events with
  | [] => (st, [])
  | e :: rest =>
      let (st', submitted) := handle st e in
      let (st'', more) := run st' rest in
      (st'', match submitted with Some f => f :: more | None => more end)
  end.

(** The submit button is disabled: [!selectedFile || isLoading || !!error];
    every error message the handlers set is a non-empty string. *)
Definition submit_disabled (isLoading : bool) (st : form_state) : bool :=
  negb (bool_decide (is_Some (selectedFile st))) || isLoading
  || bool_decide (is_Some (error st)).

End Handlers.

End ImageUploadForm.

(** ** GenAIView.jsx *)

Module GenAIView.

Import Api.

(** Set to true to use mock API during development without backend. *)
Definition USE_MOCKS : bool := true.

Record chat_state := {
  messages : list jsval;
  isChatLoading : bool;
  chatError : option string
}.

Definition initial : chat_state :=
  {| messages := []; isChatLoading := false; chatError := None |}.

Definition chat_message (role content : jsval) : jsval :=
  JObj (<[ "role"%string := role ]> {[ "content"%string := content ]}).

Section Handlers.

Variable adapter : Request -> AxiosError + Response.

(** The message of a TypeError is the engine's. *)
Variable type_error_message : string.

Definition error_message (e : exn) : string :=
  match e with
  | ValidationError msg => msg
  | StandardError msg _ _ => msg
  | TypeError => type_error_message
  end.

(** [err.message || fallback] *)
Definition message_or (e : exn) (fallback : string) : string :=
  if is_empty (error_message e) then fallback else error_message e.

(** The function the view calls: the mock, which sends nothing, or the
    client. *)
Definition apiFunction (use_mocks : bool) (history : list jsval) : api jsval :=
  if use_mocks then fun log => (Mocks.mockSendChatMessage history, log)
  else sendChatMessage adapter (JArr history).

(** The state after the handler has run to its end. *)
Definition handleSendMessage_with (use_mocks : bool) (userMessage : string)
    (st : chat_state) : list Request -> chat_state * list Request :=
  fun log =>
    let newUserMessage := chat_message (JStr "user") (JStr userMessage) in
    let updatedMessages := messages st ++ [newUserMessage] in
    let failed (e : exn) :=
      {| messages := updatedMessages; isChatLoading := false;
         chatError :=
           Some (message_or e "Failed to get response. Please try again.") |} in
    match apiFunction use_mocks updatedMessages log with
    | (Resolve response, log') =>
        if nullish response then (failed TypeError, log')
        else
          let assistantMessage :=
            chat_message (JStr "assistant") (prop response "reply") in
          ({| messages := updatedMessages ++ [assistantMessage];
              isChatLoading := false; chatError := None |}, log')
    | (Throw e, log') => (failed e, log')
    end.

Definition handleSendMessage := handleSendMessage_with USE_MOCKS.

Definition handleClearChat (st : chat_state) : chat_state :=
  {| messages := []; isChatLoading := isChatLoading st; chatError := None |}.

End Handlers.

End GenAIView.

(** * Vocabulary of the claims *)

(** ** Rounded percentages *)

(** [num / den * 100], not rounded. *)
Definition ratio100 (num den : N) : Q :=
  (inject_Z (Z.of_N num) / inject_Z (Z.of_N den) * 100)%Q.

(** Rounding to one decimal: the number of tenths, and its value. *)
Definition tenths (x : Q) : N := nearest_scaled 1 x.
Definition of_tenths (n : N) : Q := (inject_Z (Z.of_N n) / 10)%Q.
Definition show1 (n : N) : string := fixed_digits 1 n.

Definition harmonic (p r : Q) : Q := (2 * p * r / (p + r))%Q.

(** A shown statistic is a number between 0 and 100. *)
Definition in_range (s : string) : Prop :=
  exists q, same (parseFloat s) (Fin q) /\ (0 <= q <= 100)%Q.


(** F1 as the specification words it: from the precision and recall
    percentages before any rounding. *)
Definition f1_unrounded (m : matrix) : Q :=
  let '((tn, fp), (fn, tp)) := m in
  harmonic (ratio100 tp (tp + fp)) (ratio100 tp (tp + fn)).

(** [num / den * 100] and the F1 score of two percentages, on doubles *)
Definition percent64 (num den : float) : float :=
  (num / den * F64.of_Z 100)%float.
Definition f1_64 (p r : float) : float :=
  (F64.of_Z 2 * p * r / (p + r))%float.

(** The three percentages of a matrix as the component computes them on
    doubles, before toFixed rounds them. *)
Definition accuracy64 (m : matrix) : float :=
  let '((tn, fp), (fn, tp)) := m in
  let '(tn, fp, fn, tp) :=
    (F64.of_N tn, F64.of_N fp, F64.of_N fn, F64.of_N tp) in
  percent64 (tn + tp) (tn + fp + fn + tp).
Definition precision64 (m : matrix) : float :=
  let '((tn, fp), (fn, tp)) := m in
  percent64 (F64.of_N tp) (F64.of_N tp + F64.of_N fp).
Definition recall64 (m : matrix) : float :=
  let '((tn, fp), (fn, tp)) := m in
  percent64 (F64.of_N tp) (F64.of_N tp + F64.of_N fn).

(** ** Chart rows *)

(** The four metric arrays are as long as [epochs]. *)
Definition parallel (m : metrics) : Prop :=
  length (train_accuracy m) = length (epochs m)
  /\ length (val_accuracy m) = length (epochs m)
  /\ length (train_loss m) = length (epochs m)
  /\ length (val_loss m) = length (epochs m).

(** ** Errors and requests *)

Section ApiVocabulary.

Import Api.



Definition non_empty_array (v : jsval) : Prop :=
  exists x l, v = JArr (x :: l).

(** A message without a (truthy) role or content. *)
Definition lacks_role_or_content (msg : jsval) : Prop :=
  truthy (prop msg "role") = false \/ truthy (prop msg "content") = false.

(** ** Sample inputs *)



Definition online : Request -> AxiosError + Response :=
  fun _ => inr {| data := JObj {[ "prediction"%string := JStr "Real" ]};
                  status := 200 |}.


Definition text_file : File :=
  {| type := "text/plain"; size := 120 |}.
Definition large_file : File :=
  {| type := "image/jpeg"; size := 15 * 1024 * 1024 |}.
Definition png_file : File :=
  {| type := "image/png"; size := 2048 |}.

End ApiVocabulary.

(** * Vocabulary of the further properties *)

Section MoreVocabulary.

Import Api.

(** A message the checks of sendChatMessage let pass. *)
Definition valid_message (msg : jsval) : Prop :=
  nullish msg = false
  /\ truthy (prop msg "role") = true /\ truthy (prop msg "content") = true.

(** The requests the operations send. *)
Definition post_request (path : string) (b : body)
    (extra : list (string * string)) : Request :=
  {| method := POST; url := path; payload := b;
     headers := ("Accept", "application/json")%string :: extra;
     timeout := 30000 |}.

Definition get_request (path : string) : Request :=
  {| method := GET; url := path; payload := NoBody;
     headers := [("Accept", "application/json")%string]; timeout := 30000 |}.

(** What the caller gets for the answer of the transport. *)
Definition delivered (answer : AxiosError + Response) : outcome jsval :=
  match answer with
  | inl e => Throw (on_rejected e)
  | inr r => Resolve (data r)
  end.


(** Sending several messages one after the other from the chat view. *)
Fixpoint send_all (adapter : Request -> AxiosError + Response)
    (type_error_message : string) (use_mocks : bool)
    (userMessages : list string) (st : GenAIView.chat_state)
    (log : list Request) : GenAIView.chat_state * list Request :=
  match userMessages with
  | [] => (st, log)
  | u :: rest =>
      let (st', log') :=
        GenAIView.handleSendMessage_with adapter type_error_message
          use_mocks u st log in
      send_all adapter type_error_message use_mocks rest st' log'
  end.

(** What holds of the form in every state it can reach. *)
Definition form_invariant (st : ImageUploadForm.form_state) : Prop :=
  (forall f, ImageUploadForm.selectedFile st = Some f -> ImageUploadForm.validateFile (Some f) = None)
  /\ (ImageUploadForm.selectedFile st = None <-> ImageUploadForm.previewUrl st = None)
  /\ (is_Some (ImageUploadForm.error st) -> ImageUploadForm.selectedFile st = None).

(** Sample inputs. *)
Definition replying (reply : jsval) : Request -> AxiosError + Response :=
  fun _ => inr {| data := JObj {[ "reply"%string := reply ]}; status := 200 |}.

Definition broken_chat : GenAIView.chat_state :=
  {| GenAIView.messages := [GenAIView.chat_message (JStr "user") (JStr "hello");
                  GenAIView.chat_message (JStr "assistant") JUndefined];
     GenAIView.isChatLoading := false; GenAIView.chatError := None |}.

End MoreVocabulary.

(** * Vocabulary of binary64 *)

(** The numbers of binary64 are [m * 2^e] with a mantissa [m] below 2^53
    and an exponent [e] from -1074 on; the Standard Library specifies the
    primitive operations by [SpecFloat], where a result is rounded by
    [binary_round_aux]. *)

Definition pow2 (e : Z) : Q := Qpower 2 e.

(** [m * 2^e] *)
Definition scaled (m e : Z) : Q := (inject_Z m * pow2 e)%Q.

(** The mantissas and exponents of binary64. *)
Definition on_grid (M E : Z) : Prop := 0 <= M < 2 ^ 53 /\ -1074 <= E.

(** Something was lost to the right of a shifted mantissa. *)
Definition inexact (mrs : shr_record) : bool := shr_r mrs || shr_s mrs.

(** [b] is [a] shifted right by [k] places. *)
Definition shifted (k : Z) (a b : shr_record) : Prop :=
  0 <= shr_m a ->
  0 <= shr_m b
  /\ shr_m b = shr_m a / 2 ^ k
  /\ inexact b = inexact a || negb (shr_m a mod 2 ^ k =? 0).

(** A spec_float that is a zero or positive and finite, with its value. *)
Definition SFnonneg (f : spec_float) (v : Q) : Prop :=
  match f with
  | S754_zero _ => (v == 0)%Q
  | S754_finite false m e => (v == scaled (Z.pos m) e)%Q
  | _ => False
  end.

(** [f] is what binary64 gives for the number [x]: below every number of
    binary64 above [x], and above every one below [x]. *)
Definition rounds (x : Q) (f : spec_float) : Prop :=
  (forall M E, on_grid M E -> E <= 971 -> (x <= scaled M E)%Q ->
     exists v, SFnonneg f v /\ (v <= scaled M E)%Q)
  /\ (forall M E, on_grid M E -> (scaled M E <= x)%Q ->
        f = S754_infinity false
        \/ exists v, SFnonneg f v /\ (scaled M E <= v)%Q).

(** A double that is a zero or positive and finite, with its value. *)
Definition nonneg (x : float) (v : Q) : Prop := SFnonneg (Prim2SF x) v.

(** The double [f] is what binary64 gives for the number [x]. *)
Definition rounded (x : Q) (f : float) : Prop := rounds x (Prim2SF f).

(** ** Tables checked by evaluation

    F1 is computed from the precision and recall read back from their
    strings, which are numbers of tenths from 0 to 1000: what the doubles
    give for every pair of them is found by evaluating the code. *)

Record entry := {
  shown : N;
  parsed : float;
  lower : float;
  upper : float
}.

(** For a number of tenths: the double parseFloat reads from its string,
    and two doubles a quarter of a tenth below and above it. *)
Definition entry_of (n : N) : option entry :=
  p ← F64.nearest (of_tenths n);
  lo ← F64.nearest (if (n =? 0)%N then 0
                    else inject_Z (4 * Z.of_N n - 1) / 40)%Q;
  hi ← F64.nearest (inject_Z (4 * Z.of_N n + 1) / 40)%Q;
  Some {| shown := n; parsed := p; lower := lo; upper := hi |}.

(** The two doubles round to the tenths of the entry. *)
Definition entry_ok (e : entry) : bool :=
  match F64.value (lower e), F64.value (upper e) with
  | Fin l, Fin u =>
      Qle_bool 0 l && (shown e <=? tenths l)%N
      && Qle_bool 0 u && (tenths u <=? shown e)%N && Qle_bool u 101
  | _, _ => false
  end.

(** The F1 score of two entries is between the lower double of the
    smaller and the upper double of the larger one. *)
Definition pair_ok (a b : entry) : bool :=
  let s := (parsed a + parsed b)%float in
  PrimFloat.Leibniz.eqb s (parsed b + parsed a)%float
  && PrimFloat.Leibniz.eqb (f1_64 (parsed a) (parsed b))
       (f1_64 (parsed b) (parsed a))
  && if (F64.of_Z 0 <? s)%float then
       let lo := if (shown a <=? shown b)%N then lower a else lower b in
       let hi := if (shown a <=? shown b)%N then upper b else upper a in
       (lo <=? f1_64 (parsed a) (parsed b))%float
       && (f1_64 (parsed a) (parsed b) <=? hi)%float
     else (shown a =? 0)%N && (shown b =? 0)%N.

Definition upto (n : nat) : list N := List.map N.of_nat (List.seq 0 (S n)).

Definition entries (l : list N) : option (list entry) := mapM entry_of l.

Definition table_ok (t : list entry) : bool :=
  forallb entry_ok t && forallb (fun a => forallb (pair_ok a) t) t.

Definition percentages_ok : bool :=
  match entries (upto 1000) with
  | Some t => table_ok t
  | None => false
  end.

(** ** The mock prediction

    The mock reads its confidence back from a number of hundredths. *)

(** What holds of the confidence read back from [n] hundredths. *)
Definition hundredths_ok (n : N) : bool :=
  match F64.nearest (inject_Z (Z.of_N n) / pow10 2) with
  | Some c =>
      match F64.value c, F64.value (F64.confidencePercent c) with
      | Fin q, Fin pct =>
          Qle_bool (3 # 4) q && Qle_bool q (19 # 20)
          && Qle_bool 75 pct && Qle_bool pct 95
          && match F64.confidenceLevel c with low => false | _ => true end
      | _, _ => false
      end
  | None => false
  end.

Definition hundredths_75_95 : list N :=
  List.map (fun k => (75 + N.of_nat k)%N) (List.seq 0 21).


(** * Properties *)

(** ** Digit strings *)

Lemma append_cons (c : ascii) (s t : string) :
  (String c s ++ t)%string = String c (s ++ t)%string.
Proof. reflexivity. Qed.

Lemma append_nil (t : string) : (EmptyString ++ t)%string = t.
Proof. reflexivity. Qed.

Ltac str_simpl :=
  repeat first
    [ progress cbn [String.length take drop zeros all_digits val_acc
                    is_empty span_digits]
    | rewrite append_cons
    | rewrite append_nil ].

Section DigitFacts.

#[local] Open Scope string_scope.

Lemma digit_char_spec (d : N) :
  (d < 10)%N -> is_digit (digit_char d) = true /\ digit_val (digit_char d) = d.
Proof.
  intros Hd.
  assert (Hcases : In d [0; 1; 2; 3; 4; 5; 6; 7; 8; 9]%N).
  { destruct d as [|p]; [now left|].
    do 10 (destruct p as [p|p|]; try lia; simpl; auto 12). }
  simpl in Hcases.
  repeat (destruct Hcases as [<-|Hcases]; [split; reflexivity|]).
  contradiction.
Qed.

Lemma is_digit_head (c : ascii) :
  is_digit c = true ->
  is_ws c = false /\ c <> "-"%char /\ c <> "+"%char /\ c <> "."%char
  /\ c <> "I"%char.
Proof.
  destruct c as [[] [] [] [] [] [] [] []]; intros H; try discriminate H;
    repeat split; try reflexivity; discriminate.
Qed.

Lemma append_assoc (s t u : string) : (s ++ t) ++ u = s ++ (t ++ u).
Proof. induction s as [|c s IH]; str_simpl; [reflexivity | now rewrite IH]. Qed.

Lemma append_nil_r (s : string) : s ++ "" = s.
Proof. induction s as [|c s IH]; str_simpl; [reflexivity | now rewrite IH]. Qed.

Lemma take_drop (k : nat) (s : string) : take k s ++ drop k s = s.
Proof.
  revert s; induction k as [|k IH]; intros [|c r]; str_simpl; try reflexivity.
  now rewrite IH.
Qed.

Lemma length_app (s t : string) :
  String.length (s ++ t) = (String.length s + String.length t)%nat.
Proof. induction s as [|c s IH]; str_simpl; [reflexivity | now rewrite IH]. Qed.

Lemma length_take (k : nat) (s : string) :
  (k <= String.length s)%nat -> String.length (take k s) = k.
Proof.
  revert s; induction k as [|k IH]; intros [|c r]; simpl; intros H;
    try reflexivity; try lia.
  rewrite IH; [reflexivity | lia].
Qed.

Lemma length_zeros (k : nat) : String.length (zeros k) = k.
Proof. induction k; simpl; congruence. Qed.

Lemma all_digits_app (s t : string) :
  all_digits (s ++ t) = all_digits s && all_digits t.
Proof.
  induction s as [|c s IH]; str_simpl; [reflexivity|].
  now rewrite IH, andb_assoc.
Qed.

Lemma all_digits_zeros (k : nat) : all_digits (zeros k) = true.
Proof. induction k; simpl; auto. Qed.

Lemma val_acc_app (s t : string) (a : N) :
  val_acc (s ++ t) a = val_acc t (val_acc s a).
Proof. revert a; induction s as [|c s IH]; intros a; str_simpl; auto. Qed.

Lemma val_acc_shift (s : string) (a : N) :
  val_acc s a = (a * 10 ^ N.of_nat (String.length s) + val s)%N.
Proof.
  unfold val. revert a; induction s as [|c s IH]; intros a.
  - simpl. lia.
  - cbn [val_acc String.length]. rewrite (IH (10 * a + digit_val c)%N).
    rewrite (IH (10 * 0 + digit_val c)%N).
    rewrite Nat2N.inj_succ, N.pow_succ_r'. lia.
Qed.

Lemma val_app (s t : string) :
  val (s ++ t) = (val s * 10 ^ N.of_nat (String.length t) + val t)%N.
Proof. unfold val at 1. rewrite val_acc_app. apply val_acc_shift. Qed.

Lemma val_zeros (k : nat) : val (zeros k) = 0%N.
Proof.
  unfold val. induction k as [|k IH]; [reflexivity|].
  cbn [zeros val_acc]. exact IH.
Qed.

Lemma digits_aux_S (fuel : nat) (n : N) (acc : string) :
  digits_aux (S fuel) n acc =
  if (n / 10 =? 0)%N then String (digit_char (n mod 10)) acc
  else digits_aux fuel (n / 10) (String (digit_char (n mod 10)) acc).
Proof. reflexivity. Qed.

(** The digits written for [n] denote [n]. *)
Lemma digits_aux_spec (fuel : nat) (n : N) :
  (n < 2 ^ N.of_nat (S fuel))%N ->
  exists d,
    is_empty d = false /\ all_digits d = true /\ val d = n
    /\ forall acc, digits_aux (S fuel) n acc = d ++ acc.
Proof.
  revert n; induction fuel as [|fuel IH]; intros n Hn.
  - destruct (digit_char_spec (n mod 10)) as [Hd Hv].
    { apply N.mod_lt; lia. }
    exists (String (digit_char (n mod 10)) "").
    assert (Hq : (n / 10 = 0)%N).
    { apply N.div_small. change (2 ^ N.of_nat 1)%N with 2%N in Hn. lia. }
    repeat split.
    + simpl. now rewrite Hd.
    + unfold val; simpl. rewrite Hv. apply N.mod_small.
      change (2 ^ N.of_nat 1)%N with 2%N in Hn. lia.
    + intros acc. rewrite digits_aux_S, Hq. reflexivity.
  - destruct (digit_char_spec (n mod 10)) as [Hd Hv].
    { apply N.mod_lt; lia. }
    destruct (N.eqb_spec (n / 10) 0) as [Hq|Hq].
    + exists (String (digit_char (n mod 10)) "").
      repeat split.
      * simpl. now rewrite Hd.
      * unfold val; simpl. rewrite Hv.
        pose proof (N.div_mod' n 10). lia.
      * intros acc. rewrite digits_aux_S.
        destruct (N.eqb_spec (n / 10) 0); [reflexivity | contradiction].
    + destruct (IH (n / 10)%N) as (d & Hne & Hall & Hval & Hacc).
      { rewrite Nat2N.inj_succ, N.pow_succ_r' in Hn.
        apply N.Div0.div_lt_upper_bound. lia. }
      exists (d ++ String (digit_char (n mod 10)) "").
      repeat split.
      * destruct d; [discriminate | reflexivity].
      * rewrite all_digits_app, Hall. str_simpl. now rewrite Hd.
      * rewrite val_app, Hval. unfold val; simpl. rewrite Hv.
        pose proof (N.div_mod' n 10). lia.
      * intros acc. rewrite (digits_aux_S (S fuel)).
        destruct (N.eqb_spec (n / 10) 0); [contradiction|].
        rewrite Hacc. now rewrite append_assoc.
Qed.

Lemma digits_spec (n : N) :
  is_empty (digits n) = false /\ all_digits (digits n) = true
  /\ val (digits n) = n.
Proof.
  destruct (digits_aux_spec (N.to_nat (N.log2 n)) n) as (d & Hne & Hall & Hval & Hacc).
  - rewrite Nat2N.inj_succ, N2Nat.id.
    destruct n as [|p]; [reflexivity|].
    apply N.log2_spec. lia.
  - unfold digits. rewrite Hacc.
    rewrite append_nil_r. auto.
Qed.

End DigitFacts.

(** ** parseFloat reads back what toFixed writes *)

Section ParseFixed.

#[local] Open Scope string_scope.

Lemma span_digits_app (d rest : string) :
  all_digits d = true ->
  match rest with String c _ => is_digit c = false | "" => True end ->
  span_digits (d ++ rest) = (d, rest).
Proof.
  intros Hd Hrest. induction d as [|c d IH]; str_simpl.
  - destruct rest as [|c r]; [reflexivity|].
    cbn [span_digits]. now rewrite Hrest.
  - cbn [all_digits] in Hd. apply andb_true_iff in Hd as [Hc Hd].
    rewrite Hc, (IH Hd). reflexivity.
Qed.

Lemma span_digits_all (d : string) :
  all_digits d = true -> span_digits d = (d, "").
Proof.
  intros Hd. rewrite <- (append_nil_r d) at 1.
  now apply span_digits_app.
Qed.

Lemma pow10_pos (k : nat) : (0 < pow10 k)%Q.
Proof.
  unfold pow10. change 0%Q with (inject_Z 0). rewrite <- Zlt_Qlt.
  apply Z.pow_pos_nonneg; lia.
Qed.

(** The output of [fixed_digits]: digits [a], and after a point the [f]
    digits [b], which together denote [n]. *)
Lemma fixed_digits_shape (f : nat) (n : N) :
  exists a b,
    fixed_digits f n = match f with O => a | _ => a ++ "." ++ b end
    /\ is_empty a = false /\ all_digits a = true /\ all_digits b = true
    /\ String.length b = f /\ val (a ++ b) = n.
Proof.
  destruct (digits_spec n) as (Hne & Hall & Hval).
  destruct f as [|f].
  - exists (digits n), "". rewrite append_nil_r. repeat split; auto.
  - unfold fixed_digits.
    set (m0 := digits n) in *.
    set (m := if (String.length m0 <=? S f)%nat
              then zeros (S f + 1 - String.length m0) ++ m0 else m0).
    assert (Hm : all_digits m = true /\ val m = n
                 /\ (S f < String.length m)%nat).
    { subst m. destruct (Nat.leb_spec (String.length m0) (S f)) as [Hk|Hk].
      - rewrite all_digits_app, all_digits_zeros, Hall.
        rewrite val_app, val_zeros, length_app, length_zeros.
        repeat split; lia.
      - auto. }
    destruct Hm as (Hmall & Hmval & Hmlen).
    set (k := (String.length m - S f)%nat).
    exists (take k m), (drop k m).
    pose proof (take_drop k m) as Htd.
    assert (Hlen : String.length (take k m) = k)
      by (apply length_take; subst k; lia).
    assert (Hlb : String.length (drop k m) = S f).
    { pose proof (length_app (take k m) (drop k m)) as H.
      rewrite Htd, Hlen in H. subst k. lia. }
    rewrite <- Htd, all_digits_app in Hmall.
    apply andb_true_iff in Hmall as [Ha Hb].
    repeat split; auto.
    + destruct (take k m); [|reflexivity].
      cbn [String.length] in Hlen. subst k. lia.
    + now rewrite Htd.
Qed.

Lemma parse_unsigned_fixed (neg : bool) (f : nat) (n : N) :
  same (parse_unsigned neg (fixed_digits f n))
       (Fin ((if neg then - 1 else 1) * (inject_Z (Z.of_N n) / pow10 f))).
Proof.
  destruct (fixed_digits_shape f n) as (a & b & -> & Hne & Ha & Hb & Hlen & Hval).
  destruct a as [|c a]; [discriminate|].
  cbn [all_digits] in Ha. apply andb_true_iff in Ha as [Hc Ha].
  destruct (is_digit_head c Hc) as (_ & _ & _ & Hdot & HI).
  assert (Hrest :
    span_digits (String c a ++ match f with O => "" | _ => "." ++ b end)
    = (String c a, match f with O => "" | _ => "." ++ b end)).
  { apply span_digits_app.
    - cbn [all_digits]. now rewrite Hc, Ha.
    - destruct f; [exact I | reflexivity]. }
  assert (Hq : (inject_Z (Z.of_N n)
                == inject_Z (Z.of_N (val (String c a))) * pow10 f
                   + inject_Z (Z.of_N (val b)))%Q).
  { rewrite <- Hval, val_app, Hlen. unfold pow10.
    rewrite <- inject_Z_mult, <- inject_Z_plus.
    rewrite N2Z.inj_add, N2Z.inj_mul, N2Z.inj_pow, nat_N_Z. reflexivity. }
  pose proof (pow10_pos f) as Hpos.
  unfold parse_unsigned.
  assert (Hpre : forall s, String.prefix "Infinity" (String c s) = false).
  { intros s. cbn [String.prefix].
    destruct (ascii_dec "I" c) as [E|E]; [now subst c | reflexivity]. }
  destruct f as [|f].
  - rewrite Hpre, (span_digits_all (String c a))
      by (cbn [all_digits]; now rewrite Hc, Ha).
    destruct b; [|discriminate].
    cbn [is_empty andb read_exponent String.length].
    unfold same. rewrite Hq. change (val "") with 0%N.
    change (pow10 0) with 1%Q. change (Qpower 10 0) with 1%Q.
    change (inject_Z (Z.of_N 0)) with 0%Q.
    destruct neg; field.
  - rewrite append_cons, Hpre, <- append_cons, Hrest.
    rewrite append_cons, append_nil, (span_digits_all b Hb).
    cbn [is_empty andb read_exponent]. rewrite Hlen.
    unfold same. rewrite Hq. change (Qpower 10 0) with 1%Q.
    destruct neg; field; intros E; rewrite E in Hpos; discriminate.
Qed.

End ParseFixed.

(** ** Numbers up to their value *)

#[export] Instance same_equiv : Equivalence same.
Proof.
  split.
  - intros [| |q]; simpl; auto. reflexivity.
  - intros [| |p] [| |q]; simpl; auto. intros H; now symmetry.
  - intros [| |p] [| |q] [| |r]; simpl; auto; try contradiction; try congruence.
    intros H1 H2; now rewrite H1.
Qed.

Lemma same_Fin (x : jsnum) (q : Q) :
  same x (Fin q) -> exists p, x = Fin p /\ (p == q)%Q.
Proof. destruct x as [| |p]; simpl; try contradiction. eauto. Qed.

Lemma Qis_zero_false (q : Q) : ~ (q == 0)%Q -> Qis_zero q = false.
Proof.
  intros H. unfold Qis_zero. destruct (Z.eqb_spec (Qnum q) 0) as [E|E]; auto.
  exfalso; apply H. unfold Qeq; simpl. lia.
Qed.

Lemma Qis_neg_false (q : Q) : (0 <= q)%Q -> Qis_neg q = false.
Proof.
  intros H. unfold Qis_neg. apply Z.ltb_ge.
  unfold Qle in H; simpl in H. lia.
Qed.

Lemma Qis_neg_true (q : Q) : (q < 0)%Q -> Qis_neg q = true.
Proof.
  intros H. unfold Qis_neg. apply Z.ltb_lt.
  unfold Qlt in H; simpl in H. lia.
Qed.

Lemma gt_Fin (p q : Q) : Num.gt (Fin p) (Fin q) = true <-> (q < p)%Q.
Proof.
  unfold Num.gt. destruct (Qlt_le_dec q p) as [H|H]; split; auto.
  - discriminate.
  - intros H'. exfalso. apply (Qlt_irrefl p). eapply Qle_lt_trans; eauto.
Qed.

(** ** toFixed below 10^21 *)

Section ToFixedFacts.

Variable big : Q -> string.

Lemma nearest_scaled_proper (f : nat) (p q : Q) :
  (p == q)%Q -> nearest_scaled f p = nearest_scaled f q.
Proof. intros H. unfold nearest_scaled. now rewrite H. Qed.

Lemma nearest_scaled_Z (f : nat) (q : Q) :
  (0 <= q)%Q ->
  Z.of_N (nearest_scaled f q) = Qfloor (q * pow10 f + (1 # 2)).
Proof.
  intros H. unfold nearest_scaled. rewrite Z2N.id; [reflexivity|].
  change 0 with (Qfloor 0). apply Qfloor_resp_le.
  pose proof (pow10_pos f). nra.
Qed.

Lemma nearest_scaled_mono (f : nat) (p q : Q) :
  (0 <= p)%Q -> (p <= q)%Q -> (nearest_scaled f p <= nearest_scaled f q)%N.
Proof.
  intros H0 H. apply N2Z.inj_le. rewrite !nearest_scaled_Z by lra.
  apply Qfloor_resp_le. pose proof (pow10_pos f). nra.
Qed.

Lemma not_large (q : Q) :
  (Qabs q < pow10 21)%Q -> Qle_bool (pow10 21) (Qabs q) = false.
Proof.
  intros H. destruct (Qle_bool (pow10 21) (Qabs q)) eqn:E; [|reflexivity].
  apply Qle_bool_iff in E. exfalso.
  apply (Qlt_irrefl (Qabs q)). eapply Qlt_le_trans; eauto.
Qed.

Lemma toFixed_small (f : nat) (q : Q) :
  (0 <= q)%Q -> (q < pow10 21)%Q ->
  toFixed big f (Fin q) = fixed_digits f (nearest_scaled f q).
Proof.
  intros H0 H1. unfold toFixed.
  pose proof (Qabs_pos q H0) as Habs.
  rewrite (Qis_neg_false q H0), not_large by now rewrite Habs.
  rewrite append_nil. f_equal. now apply nearest_scaled_proper.
Qed.

Lemma parseFloat_fixed (f : nat) (n : N) :
  same (parseFloat (fixed_digits f n))
       (Fin (inject_Z (Z.of_N n) / pow10 f)).
Proof.
  pose proof (parse_unsigned_fixed false f n) as H.
  destruct (fixed_digits_shape f n) as (a & b & E & Hne & Ha & _).
  assert (Hhead : exists c r, fixed_digits f n = String c r
                              /\ is_digit c = true).
  { destruct a as [|c a]; [discriminate|].
    cbn [all_digits] in Ha. apply andb_true_iff in Ha as [Hc _].
    rewrite E. destruct f; rewrite ?append_cons; eauto. }
  destruct Hhead as (c & r & E' & Hc).
  unfold parseFloat. rewrite E' in *.
  destruct (is_digit_head c Hc) as (Hws & Hm & Hp & _).
  cbn [skip_ws]. rewrite Hws.
  assert (Hsign : read_sign (String c r) = (false, String c r)).
  { clear -Hm Hp. destruct c as [[] [] [] [] [] [] [] []];
      try reflexivity; congruence. }
  rewrite Hsign. etransitivity; [exact H|].
  simpl. field. pose proof (pow10_pos f) as Hpos.
  intros E0; rewrite E0 in Hpos; discriminate.
Qed.

End ToFixedFacts.

(** ** ConfusionMatrix: what is shown, in terms of the counts *)

Section RoundingFacts.

Lemma tenths_Z (q : Q) :
  (0 <= q)%Q -> Z.of_N (tenths q) = Qfloor (q * 10 + (1 # 2)).
Proof. intros H. unfold tenths. now rewrite nearest_scaled_Z. Qed.

Lemma tenths_proper (p q : Q) : (p == q)%Q -> tenths p = tenths q.
Proof. apply nearest_scaled_proper. Qed.

Lemma tenths_mono (p q : Q) :
  (0 <= p)%Q -> (p <= q)%Q -> (tenths p <= tenths q)%N.
Proof.
  intros H0 H. apply N2Z.inj_le. rewrite !tenths_Z by lra.
  apply Qfloor_resp_le. lra.
Qed.

Lemma of_tenths_nonneg (n : N) : (0 <= of_tenths n)%Q.
Proof.
  unfold of_tenths. apply Qle_shift_div_l; [reflexivity|].
  change (0 * 10)%Q with (inject_Z 0). rewrite <- Zle_Qle. lia.
Qed.

Lemma tenths_of_tenths (n : N) : tenths (of_tenths n) = n.
Proof.
  apply N2Z.inj. rewrite tenths_Z by apply of_tenths_nonneg.
  assert (E : (of_tenths n * 10 + (1 # 2) == inject_Z (Z.of_N n) + (1 # 2))%Q)
    by (unfold of_tenths; field).
  rewrite E. apply Z.le_antisymm.
  - assert (H : (Qfloor (inject_Z (Z.of_N n) + (1 # 2)) < Z.of_N n + 1)%Z);
      [|lia].
    pose proof (Qfloor_le (inject_Z (Z.of_N n) + (1 # 2))) as Hfl.
    rewrite Zlt_Qlt, inject_Z_plus. change (inject_Z 1) with 1%Q. lra.
  - rewrite <- (Qfloor_Z (Z.of_N n)) at 1. apply Qfloor_resp_le. lra.
Qed.

Lemma of_tenths_mono (m n : N) : (m <= n)%N -> (of_tenths m <= of_tenths n)%Q.
Proof.
  intros H. unfold of_tenths.
  assert (inject_Z (Z.of_N m) <= inject_Z (Z.of_N n))%Q
    by (rewrite <- Zle_Qle; lia).
  unfold Qdiv. apply Qmult_le_compat_r; [assumption | discriminate].
Qed.

Lemma of_tenths_pos (n : N) : (0 < of_tenths n)%Q <-> (0 < n)%N.
Proof.
  unfold of_tenths. split; intros H.
  - destruct n; [|lia]. exfalso. revert H. apply Qle_not_lt. now vm_compute.
  - apply Qlt_shift_div_l; [reflexivity|].
    change (0 * 10)%Q with (inject_Z 0). rewrite <- Zlt_Qlt. lia.
Qed.

Lemma of_tenths_add (m n : N) :
  (of_tenths m + of_tenths n == of_tenths (m + n))%Q.
Proof.
  unfold of_tenths. rewrite N2Z.inj_add, inject_Z_plus. field.
Qed.

(** The harmonic mean lies between its arguments. *)
Lemma harmonic_between (p r : Q) :
  (0 <= p)%Q -> (0 <= r)%Q -> (0 < p + r)%Q ->
  (Qmin p r <= harmonic p r <= Qmax p r)%Q.
Proof.
  intros Hp Hr Hs. unfold harmonic.
  destruct (Qlt_le_dec p r) as [H|H].
  - rewrite (Q.min_l p r), (Q.max_r p r) by lra. split.
    + apply Qle_shift_div_l; [assumption | nra].
    + apply Qle_shift_div_r; [assumption | nra].
  - rewrite (Q.min_r p r), (Q.max_l p r) by lra. split.
    + apply Qle_shift_div_l; [assumption | nra].
    + apply Qle_shift_div_r; [assumption | nra].
Qed.

Lemma ratio100_bounds (num den : N) :
  (num <= den)%N -> (0 < den)%N -> (0 <= ratio100 num den <= 100)%Q.
Proof.
  intros Hle Hpos. unfold ratio100.
  assert (Hd : (0 < inject_Z (Z.of_N den))%Q).
  { change 0%Q with (inject_Z 0). rewrite <- Zlt_Qlt. lia. }
  assert (Hn : (0 <= inject_Z (Z.of_N num))%Q).
  { change 0%Q with (inject_Z 0). rewrite <- Zle_Qle. lia. }
  assert (Hnd : (inject_Z (Z.of_N num) <= inject_Z (Z.of_N den))%Q).
  { rewrite <- Zle_Qle. lia. }
  assert (H0 : (0 <= inject_Z (Z.of_N num) / inject_Z (Z.of_N den))%Q).
  { apply Qle_shift_div_l; [assumption | lra]. }
  assert (H1 : (inject_Z (Z.of_N num) / inject_Z (Z.of_N den) <= 1)%Q).
  { apply Qle_shift_div_r; [assumption | lra]. }
  lra.
Qed.

Lemma tenths_le_1000 (q : Q) : (0 <= q <= 100)%Q -> (tenths q <= 1000)%N.
Proof.
  intros [H0 H1]. change 1000%N with (tenths 100).
  now apply tenths_mono.
Qed.

Lemma of_tenths_le_100 (n : N) : (n <= 1000)%N -> (of_tenths n <= 100)%Q.
Proof.
  intros H. apply of_tenths_mono in H.
  eapply Qle_trans; [exact H | now vm_compute].
Qed.

End RoundingFacts.

Section StatsFacts.

Variable big : Q -> string.

Lemma percent_shown (a b : Q) (num den : N) :
  (a == inject_Z (Z.of_N num))%Q -> (b == inject_Z (Z.of_N den))%Q ->
  (num <= den)%N -> (0 < den)%N ->
  toFixed big 1 (Fin a / Fin b * Fin (inject_Z 100))%js
  = show1 (tenths (ratio100 num den)).
Proof.
  intros Ha Hb Hle Hpos.
  pose proof (ratio100_bounds num den Hle Hpos) as Hbounds.
  assert (Hb0 : (0 < b)%Q).
  { rewrite Hb. change 0%Q with (inject_Z 0). rewrite <- Zlt_Qlt. lia. }
  assert (E : (a / b * inject_Z 100 == ratio100 num den)%Q).
  { unfold ratio100. rewrite Ha, Hb. reflexivity. }
  cbn [Num.div]. rewrite Qis_zero_false by lra.
  cbn [Num.mul]. rewrite toFixed_small.
  - unfold show1, tenths. f_equal. now apply nearest_scaled_proper.
  - rewrite E. tauto.
  - rewrite E. eapply Qle_lt_trans; [apply Hbounds | reflexivity].
Qed.

Lemma parse_show1 (n : N) :
  exists q, parseFloat (show1 n) = Fin q /\ (q == of_tenths n)%Q.
Proof.
  apply same_Fin. unfold show1, of_tenths. apply parseFloat_fixed.
Qed.

Lemma inject_N_add (a b : N) :
  (inject_Z (Z.of_N a) + inject_Z (Z.of_N b) == inject_Z (Z.of_N (a + b)))%Q.
Proof. now rewrite N2Z.inj_add, inject_Z_plus. Qed.

(** The four strings of [ConfusionMatrix] from the counts: accuracy,
    precision and recall are the unrounded percentages rounded once; F1 is
    the harmonic mean of the rounded precision and recall, rounded again. *)
Lemma ConfusionMatrix_shown (tn fp fn tp : N) :
  (0 < tp + fp)%N -> (0 < tp + fn)%N ->
  let np := tenths (ratio100 tp (tp + fp)) in
  let nr := tenths (ratio100 tp (tp + fn)) in
  ConfusionMatrix big ((tn, fp), (fn, tp)) =
  {| accuracy := show1 (tenths (ratio100 (tn + tp) (tn + fp + fn + tp)));
     precision := show1 np;
     recall := show1 nr;
     f1Score :=
       if (0 <? np + nr)%N
       then show1 (tenths (harmonic (of_tenths np) (of_tenths nr)))
       else "N/A"%string |}.
Proof.
  intros Hp Hr np nr.
  unfold ConfusionMatrix, of_N, of_Z. cbn [Num.add].
  rewrite (percent_shown _ _ (tn + tp) (tn + fp + fn + tp));
    [| now rewrite inject_N_add | now rewrite !inject_N_add | lia | lia].
  rewrite (percent_shown _ _ tp (tp + fp));
    [| reflexivity | now rewrite inject_N_add | lia | lia].
  rewrite (percent_shown _ _ tp (tp + fn));
    [| reflexivity | now rewrite inject_N_add | lia | lia].
  fold np nr.
  destruct (parse_show1 np) as (qp & -> & Eqp).
  destruct (parse_show1 nr) as (qr & -> & Eqr).
  f_equal.
  assert (Esum : (qp + qr == of_tenths (np + nr))%Q)
    by now rewrite Eqp, Eqr, of_tenths_add.
  destruct (N.ltb_spec 0 (np + nr)) as [Hs|Hs].
  - assert (Hpos : (0 < qp + qr)%Q) by (rewrite Esum; now apply of_tenths_pos).
    cbn [Num.add]. rewrite (proj2 (gt_Fin _ _)) by exact Hpos.
    cbn [Num.mul Num.div]. rewrite Qis_zero_false by lra.
    pose proof (of_tenths_nonneg np) as H0p.
    pose proof (of_tenths_nonneg nr) as H0r.
    assert (Hsum : (0 < of_tenths np + of_tenths nr)%Q)
      by now rewrite <- Eqp, <- Eqr.
    assert (E : (inject_Z 2 * qp * qr / (qp + qr)
                 == harmonic (of_tenths np) (of_tenths nr))%Q).
    { unfold harmonic. rewrite Eqp, Eqr. reflexivity. }
    pose proof (harmonic_between _ _ H0p H0r Hsum) as [Hlo Hhi].
    assert (Hnp : (of_tenths np <= 100)%Q).
    { apply of_tenths_le_100, tenths_le_1000, ratio100_bounds; lia. }
    assert (Hnr : (of_tenths nr <= 100)%Q).
    { apply of_tenths_le_100, tenths_le_1000, ratio100_bounds; lia. }
    rewrite toFixed_small.
    + unfold show1, tenths. f_equal. now apply nearest_scaled_proper.
    + rewrite E. eapply Qle_trans; [|exact Hlo].
      apply Q.min_glb; assumption.
    + rewrite E. eapply Qle_lt_trans; [exact Hhi|].
      eapply Qle_lt_trans; [apply Q.max_lub; eassumption | reflexivity].
  - cbn [Num.add].
    destruct (Num.gt (Fin (qp + qr)) (Fin (inject_Z 0))) eqn:G; [|reflexivity].
    apply gt_Fin in G. rewrite Esum in G. apply of_tenths_pos in G. lia.
Qed.

End StatsFacts.

(** ** Binary64: powers of two *)

Section Pow2.

Lemma pow2_pos (e : Z) : (0 < pow2 e)%Q.
Proof. apply Qpower_0_lt. reflexivity. Qed.

Lemma pow2_add (a b : Z) : (pow2 (a + b) == pow2 a * pow2 b)%Q.
Proof. apply Qpower_plus. discriminate. Qed.

Lemma pow2_Z (e : Z) : 0 <= e -> (pow2 e == inject_Z (2 ^ e))%Q.
Proof. intros H. unfold pow2. now rewrite Zpower_Qpower. Qed.

Lemma pow2_le (a b : Z) : a <= b -> (pow2 a <= pow2 b)%Q.
Proof.
  intros H. replace b with (a + (b - a)) by lia. rewrite pow2_add.
  rewrite (pow2_Z (b - a)) by lia.
  assert (2 ^ 0 <= 2 ^ (b - a)) by (apply Z.pow_le_mono_r; lia).
  assert (1 <= inject_Z (2 ^ (b - a)))%Q
    by (change 1%Q with (inject_Z 1); now rewrite <- Zle_Qle).
  pose proof (pow2_pos a). nra.
Qed.

Lemma pow2_lt (a b : Z) : a < b -> (pow2 a < pow2 b)%Q.
Proof.
  intros H. replace b with (a + (b - a)) by lia. rewrite pow2_add.
  rewrite (pow2_Z (b - a)) by lia.
  assert (2 ^ 1 <= 2 ^ (b - a)) by (apply Z.pow_le_mono_r; lia).
  assert (2 <= inject_Z (2 ^ (b - a)))%Q
    by (change 2%Q with (inject_Z 2); now rewrite <- Zle_Qle).
  pose proof (pow2_pos a). nra.
Qed.

Lemma pow2_lt_inv (a b : Z) : (pow2 a < pow2 b)%Q -> a < b.
Proof.
  intros H. destruct (Z.lt_ge_cases a b) as [L|L]; [exact L|].
  apply pow2_le in L. lra.
Qed.

Lemma inject_pos (m : positive) : (0 < inject_Z (Z.pos m))%Q.
Proof. rewrite <- (Zlt_Qlt 0). apply Pos2Z.is_pos. Qed.

Lemma scaled_le (a b e : Z) : (scaled a e <= scaled b e)%Q <-> a <= b.
Proof.
  unfold scaled. pose proof (pow2_pos e). rewrite Zle_Qle. split; intros; nra.
Qed.

Lemma scaled_lt (a b e : Z) : (scaled a e < scaled b e)%Q <-> a < b.
Proof.
  unfold scaled. pose proof (pow2_pos e). rewrite Zlt_Qlt. split; intros; nra.
Qed.

(** Moving a power of two from the exponent into the mantissa. *)
Lemma scaled_shift (m e k : Z) :
  0 <= k -> (scaled m (e + k) == scaled (m * 2 ^ k) e)%Q.
Proof.
  intros H. unfold scaled. rewrite pow2_add, (pow2_Z k) by lia.
  rewrite inject_Z_mult. ring.
Qed.

End Pow2.

(** [lia] with the powers of two taken as unknowns. *)
Ltac hide_pow :=
  repeat match goal with
  | |- context [Z.pow ?b ?e] => generalize dependent (Z.pow b e); intros
  | H : context [Z.pow ?b ?e] |- _ => generalize dependent (Z.pow b e); intros
  end.
Ltac pow_lia := hide_pow; lia.

(** ** The number of binary digits *)

Section BinaryDigits.

Lemma digits2_pos_bounds (p : positive) :
  2 ^ (Z.pos (digits2_pos p) - 1) <= Z.pos p < 2 ^ Z.pos (digits2_pos p).
Proof.
  induction p as [p IH|p IH|]; cbn [digits2_pos].
  - pose proof (Pos2Z.is_pos (digits2_pos p)) as Hd.
    rewrite Pos2Z.inj_succ.
    replace (Z.succ (Z.pos (digits2_pos p)) - 1)
      with (Z.succ (Z.pos (digits2_pos p) - 1)) by lia.
    rewrite !Z.pow_succ_r by (clear IH; lia). pow_lia.
  - pose proof (Pos2Z.is_pos (digits2_pos p)) as Hd.
    rewrite Pos2Z.inj_succ.
    replace (Z.succ (Z.pos (digits2_pos p)) - 1)
      with (Z.succ (Z.pos (digits2_pos p) - 1)) by lia.
    rewrite !Z.pow_succ_r by (clear IH; lia). pow_lia.
  - cbn. lia.
Qed.

Lemma Zdigits2_nonneg (m : Z) : 0 <= Zdigits2 m.
Proof. destruct m; cbn; lia. Qed.

Lemma Zdigits2_bounds (m : Z) :
  0 < m -> 2 ^ (Zdigits2 m - 1) <= m < 2 ^ Zdigits2 m.
Proof.
  destruct m as [|p|p]; try lia. intros _. apply digits2_pos_bounds.
Qed.

(** The digits of a number between two powers of two. *)
Lemma Zdigits2_unique (m d : Z) :
  2 ^ (d - 1) <= m < 2 ^ d -> 0 < m -> Zdigits2 m = d.
Proof.
  intros [Hlo Hhi] Hm. pose proof (Zdigits2_bounds m Hm) as [Blo Bhi].
  pose proof (Zdigits2_nonneg m) as Hd.
  assert (0 < d).
  { destruct (Z.lt_ge_cases 0 d) as [L|L]; [exact L|].
    assert (2 ^ d <= 2 ^ 0) by (apply Z.pow_le_mono_r; lia). lia. }
  destruct (Z.lt_trichotomy (Zdigits2 m) d) as [L|[L|L]]; [|exact L|].
  - assert (2 ^ Zdigits2 m <= 2 ^ (d - 1)) by (apply Z.pow_le_mono_r; lia). lia.
  - assert (2 ^ d <= 2 ^ (Zdigits2 m - 1)) by (apply Z.pow_le_mono_r; lia). lia.
Qed.

Lemma Zdigits2_le (m d : Z) : 0 <= d -> 0 <= m < 2 ^ d -> Zdigits2 m <= d.
Proof.
  intros Hd [H0 H]. destruct (Z.eq_dec m 0) as [->|Hm]; [cbn; lia|].
  pose proof (Zdigits2_bounds m ltac:(lia)) as [Blo _].
  destruct (Z.le_gt_cases (Zdigits2 m) d) as [L|L]; [exact L|].
  assert (2 ^ d <= 2 ^ (Zdigits2 m - 1)) by (apply Z.pow_le_mono_r; lia). lia.
Qed.

Lemma Zdigits2_ge (m d : Z) : 2 ^ (d - 1) <= m -> 0 < m -> d <= Zdigits2 m.
Proof.
  intros H Hm. pose proof (Zdigits2_bounds m Hm) as [_ Bhi].
  destruct (Z.le_gt_cases d (Zdigits2 m)) as [L|L]; [exact L|].
  assert (2 ^ Zdigits2 m <= 2 ^ (d - 1)) by (apply Z.pow_le_mono_r; pose proof (Zdigits2_nonneg m); lia).
  lia.
Qed.

End BinaryDigits.

(** ** Shifting a mantissa to the right *)

Section MantissaShifts.

Lemma shifted_1 (a : shr_record) : shifted 1 a (shr_1 a).
Proof.
  destruct a as [m r s]. unfold shifted, inexact. cbn [shr_m shr_r shr_s].
  intros Hm. change (2 ^ 1) with 2.
  destruct m as [|[p|p|]|p]; try lia; cbn [shr_1 shr_m shr_r shr_s].
  - repeat split; cbn; try lia. destruct r, s; reflexivity.
  - split; [lia|]. split; [now rewrite <- Z.div2_div|].
    rewrite Pos2Z.inj_xI, Z.add_comm, Z.mul_comm, Z.mod_add by lia.
    cbn. destruct r, s; reflexivity.
  - split; [lia|]. split; [now rewrite <- Z.div2_div|].
    rewrite Pos2Z.inj_xO, Z.mul_comm, Z.mod_mul by lia.
    cbn. destruct r, s; reflexivity.
  - repeat split; cbn; try lia. destruct r, s; reflexivity.
Qed.

Lemma shifted_trans (j k : Z) (a b c : shr_record) :
  0 <= j -> 0 <= k -> shifted j a b -> shifted k b c -> shifted (j + k) a c.
Proof.
  intros Hj Hk Hab Hbc Ha.
  destruct (Hab Ha) as (Hb & Emb & Eib).
  destruct (Hbc Hb) as (Hc & Emc & Eic).
  assert (0 < 2 ^ j) by (apply Z.pow_pos_nonneg; lia).
  assert (0 < 2 ^ k) by (apply Z.pow_pos_nonneg; lia).
  split; [exact Hc|]. split.
  - rewrite Emc, Emb, Z.div_div, Z.pow_add_r by lia. reflexivity.
  - rewrite Eic, Eib, Emb, <- orb_assoc. f_equal.
    rewrite Z.pow_add_r, Z.rem_mul_r by lia.
    pose proof (Z.mod_pos_bound (shr_m a) (2 ^ j) ltac:(lia)).
    pose proof (Z.mod_pos_bound (shr_m a / 2 ^ j) (2 ^ k) ltac:(lia)).
    destruct (Z.eqb_spec (shr_m a mod 2 ^ j) 0) as [E1|E1];
      destruct (Z.eqb_spec ((shr_m a / 2 ^ j) mod 2 ^ k) 0) as [E2|E2];
      cbn [negb orb]; symmetry;
      match goal with
      | |- negb (?x =? 0) = false => destruct (Z.eqb_spec x 0); [reflexivity|nia]
      | |- negb (?x =? 0) = true => destruct (Z.eqb_spec x 0); [nia|reflexivity]
      end.
Qed.

Lemma iter_pos_shifted (p : positive) (a : shr_record) :
  shifted (Z.pos p) a (SpecFloat.iter_pos shr_1 p a).
Proof.
  revert a. induction p as [p IH|p IH|]; intros a; cbn [SpecFloat.iter_pos].
  - replace (Z.pos p~1) with (1 + (Z.pos p + Z.pos p)) by lia.
    eapply shifted_trans; [lia | lia | apply shifted_1 |].
    eapply shifted_trans; [lia | lia | apply IH | apply IH].
  - replace (Z.pos p~0) with (Z.pos p + Z.pos p) by lia.
    eapply shifted_trans; [lia | lia | apply IH | apply IH].
  - apply shifted_1.
Qed.

Lemma inexact_of_loc (m : Z) (l : location) :
  shr_m (shr_record_of_loc m l) = m
  /\ (inexact (shr_record_of_loc m l) = false <-> l = loc_Exact).
Proof.
  destruct l as [|[]]; cbn; split; try reflexivity; split; congruence.
Qed.

Lemma loc_of_inexact (mrs : shr_record) :
  inexact mrs = false <-> loc_of_shr_record mrs = loc_Exact.
Proof.
  destruct mrs as [m [] []]; cbn; split; congruence.
Qed.

Lemma round_nearest_even_cases (m : Z) (l : location) :
  (l = loc_Exact -> round_nearest_even m l = m)
  /\ (round_nearest_even m l = m \/ round_nearest_even m l = m + 1).
Proof.
  destruct l as [|[]]; cbn; split; try congruence; auto.
  destruct (Z.even m); auto.
Qed.

End MantissaShifts.

(** ** Rounding to binary64 *)

Section Binary64Rounding.

Lemma fexp64 (e : Z) : fexp prec emax e = Z.max (e - 53) (-1074).
Proof. reflexivity. Qed.

Lemma shr_fexp_spec (m e : Z) (l : location) :
  0 <= m ->
  let n := Z.max 0 (fexp prec emax (Zdigits2 m + e) - e) in
  exists mrs,
    shr_fexp prec emax m e l = (mrs, e + n)
    /\ shr_m mrs = m / 2 ^ n
    /\ (inexact mrs = false <-> l = loc_Exact /\ m mod 2 ^ n = 0).
Proof.
  intros Hm n. unfold shr_fexp, shr. subst n.
  destruct (inexact_of_loc m l) as [Em El].
  destruct (fexp prec emax (Zdigits2 m + e) - e) as [|p|p] eqn:E.
  - exists (shr_record_of_loc m l). cbn [Z.max Z.compare].
    rewrite Z.add_0_r, Z.div_1_r, Z.mod_1_r. tauto.
  - exists (SpecFloat.iter_pos shr_1 p (shr_record_of_loc m l)).
    replace (Z.max 0 (Z.pos p)) with (Z.pos p) by lia.
    destruct (iter_pos_shifted p (shr_record_of_loc m l)) as (_ & Hs & Hi);
      [now rewrite Em|].
    rewrite Em in Hs, Hi. split; [reflexivity|]. split; [exact Hs|].
    rewrite Hi, orb_false_iff, El, negb_false_iff, Z.eqb_eq. tauto.
  - exists (shr_record_of_loc m l).
    replace (Z.max 0 (Z.neg p)) with 0 by lia.
    rewrite Z.add_0_r, Z.div_1_r, Z.mod_1_r. tauto.
Qed.

(** What [binary_round_aux] returns for the number [x], given by the
    mantissa [mx] that is its integer part at the exponent [ex] and by the
    location [lx] of the rest: [x] is between two neighbours on the grid
    of exponent [e'], the result is one of the two, and it is [x] when [x]
    is on the grid. *)
Lemma binary_round_aux_form (mx ex : Z) (lx : location) (x : Q) :
  0 <= mx ->
  (scaled mx ex <= x)%Q -> (x < scaled (mx + 1) ex)%Q ->
  (lx = loc_Exact <-> (x == scaled mx ex)%Q) ->
  ex <= fexp prec emax (Zdigits2 mx + ex) ->
  exists m' e' m1,
    0 <= m'
    /\ (scaled m' e' <= x)%Q /\ (x < scaled (m' + 1) e')%Q
    /\ (m1 = m' \/ m1 = m' + 1 /\ (scaled m' e' < x)%Q)
    /\ (e' = -1074 \/ -1074 < e' /\ (pow2 (e' + 52) <= x)%Q)
    /\ (m1 = 0 /\ binary_round_aux prec emax false mx ex lx = S754_zero false
        \/ (exists m e,
              binary_round_aux prec emax false mx ex lx = S754_finite false m e
              /\ (scaled (Z.pos m) e == scaled m1 e')%Q)
        \/ (binary_round_aux prec emax false mx ex lx = S754_infinity false
            /\ (pow2 1024 <= scaled m1 e')%Q)).
Proof.
  intros Hmx Hlo Hhi Hloc Hn.
  set (e' := fexp prec emax (Zdigits2 mx + ex)) in *.
  set (n := e' - ex).
  assert (Hn0 : 0 <= n) by (subst n; lia).
  assert (Hpn : 0 < 2 ^ n) by (apply Z.pow_pos_nonneg; lia).
  destruct (shr_fexp_spec mx ex lx Hmx) as (mrs & E1 & Em & Ei).
  fold e' in E1, Em, Ei. fold n in E1, Em, Ei.
  replace (Z.max 0 n) with n in E1, Em, Ei by lia.
  replace (ex + n) with e' in E1 by (subst n; lia).
  set (m' := mx / 2 ^ n) in *.
  assert (Hm' : 0 <= m') by (apply Z.div_pos; lia).
  pose proof (Z.div_mod mx (2 ^ n) ltac:(lia)) as Hdm. fold m' in Hdm.
  pose proof (Z.mod_pos_bound mx (2 ^ n) Hpn) as Hmod.
  assert (Hs : forall k, (scaled k e' == scaled (k * 2 ^ n) ex)%Q).
  { intros k. replace e' with (ex + n) by (subst n; lia).
    now apply scaled_shift. }
  (* the neighbours of x *)
  assert (Hlo' : (scaled m' e' <= x)%Q).
  { rewrite Hs. eapply Qle_trans; [|exact Hlo]. apply scaled_le. nia. }
  assert (Hhi' : (x < scaled (m' + 1) e')%Q).
  { rewrite Hs. eapply Qlt_le_trans; [exact Hhi|]. apply scaled_le. nia. }
  assert (Hex : inexact mrs = false <-> (x == scaled m' e')%Q).
  { rewrite Ei, Hloc. split.
    - intros [Hx H0]. rewrite Hx, Hs. replace (m' * 2 ^ n) with mx by lia.
      reflexivity.
    - intros Hx. rewrite Hs in Hx.
      assert (mx <= m' * 2 ^ n)
        by (apply (scaled_le _ _ ex); rewrite <- Hx; exact Hlo).
      assert (E : m' * 2 ^ n = mx) by nia.
      split; [rewrite Hx, E; reflexivity | lia]. }
  (* the grid *)
  assert (He' : -1074 <= e') by (subst e'; rewrite fexp64; lia).
  assert (HG : e' = -1074 \/ -1074 < e' /\ (pow2 (e' + 52) <= x)%Q).
  { destruct (Z.eq_dec e' (-1074)) as [|Hne]; [now left|]. right.
    split; [lia|].
    assert (Ee : e' = Zdigits2 mx + ex - 53) by (subst e'; rewrite fexp64 in *; lia).
    assert (Hpos : 0 < mx).
    { destruct (Z.eq_dec mx 0) as [E0|]; [|lia]. subst mx. cbn in Ee. lia. }
    pose proof (Zdigits2_bounds mx Hpos) as [Hd _].
    pose proof (Zdigits2_nonneg mx).
    eapply Qle_trans; [|exact Hlo].
    replace (e' + 52) with (ex + (Zdigits2 mx - 1)) by lia.
    assert (0 < Zdigits2 mx).
    { destruct mx; cbn in *; lia. }
    rewrite pow2_add, (pow2_Z (Zdigits2 mx - 1)) by lia.
    unfold scaled. rewrite Zle_Qle in Hd. pose proof (pow2_pos ex). nra. }
  (* the rounded mantissa *)
  set (m1 := round_nearest_even (shr_m mrs) (loc_of_shr_record mrs)).
  destruct (round_nearest_even_cases (shr_m mrs) (loc_of_shr_record mrs))
    as [Hr1 Hr2]. fold m1 in Hr1, Hr2. rewrite Em in Hr1, Hr2.
  assert (Hm1 : m1 = m' \/ m1 = m' + 1 /\ (scaled m' e' < x)%Q).
  { destruct Hr2 as [R|R]; [now left|].
    destruct (inexact mrs) eqn:I.
    - right. split; [exact R|].
      destruct (Qlt_le_dec (scaled m' e') x) as [L|L]; [exact L|].
      assert (Hx : (x == scaled m' e')%Q) by lra.
      apply Hex in Hx. discriminate.
    - left. apply Hr1. now apply loc_of_inexact. }
  assert (Hm53 : m' < 2 ^ 53).
  { apply Z.div_lt_upper_bound; [lia|].
    destruct (Z.eq_dec mx 0) as [->|]; [lia|].
    pose proof (Zdigits2_bounds mx ltac:(lia)) as [_ Hd].
    pose proof (Zdigits2_nonneg mx).
    assert (Zdigits2 mx <= n + 53) by (subst n e'; rewrite fexp64; lia).
    assert (2 ^ Zdigits2 mx <= 2 ^ (n + 53)) by (apply Z.pow_le_mono_r; lia).
    rewrite Z.pow_add_r in * by lia. lia. }
  assert (Hm1' : 0 <= m1 <= 2 ^ 53) by (destruct Hm1 as [->|[-> _]]; lia).
  exists m', e', m1.
  split; [exact Hm'|]. split; [exact Hlo'|]. split; [exact Hhi'|].
  split; [exact Hm1|]. split; [exact HG|].
  (* the second shift *)
  unfold binary_round_aux. rewrite E1. fold m1.
  destruct (shr_fexp_spec m1 e' loc_Exact ltac:(lia)) as (mrs2 & E2 & Em2 & _).
  rewrite E2.
  destruct (Z.eq_dec m1 (2 ^ 53)) as [E53|N53].
  - (* the carry *)
    assert (Ed : Zdigits2 m1 = 54) by (now rewrite E53).
    rewrite Ed, fexp64 in Em2.
    replace (Z.max 0 (Z.max (54 + e' - 53) (-1074) - e')) with 1 in Em2 by lia.
    rewrite E53 in Em2. change (2 ^ 53 / 2 ^ 1) with (Z.pos (2 ^ 52)) in Em2.
    rewrite Em2, Ed, fexp64.
    replace (e' + Z.max 0 (Z.max (54 + e' - 53) (-1074) - e')) with (e' + 1)
      by lia.
    assert (Ev : (scaled (Z.pos (2 ^ 52)) (e' + 1) == scaled m1 e')%Q).
    { rewrite scaled_shift by lia. now rewrite E53. }
    right. destruct (Z.leb_spec (e' + 1) (emax - prec)) as [L|L].
    + left. eauto.
    + right. split; [reflexivity|]. rewrite <- Ev.
      change (Z.pos (2 ^ 52)) with (2 ^ 52). unfold scaled.
      rewrite <- (pow2_Z 52), <- pow2_add by lia. apply pow2_le.
      change (emax - prec) with 971 in L. lia.
  - assert (Hd : Zdigits2 m1 <= 53) by (apply Zdigits2_le; lia).
    rewrite fexp64 in Em2, E2.
    replace (Z.max 0 (Z.max (Zdigits2 m1 + e' - 53) (-1074) - e')) with 0
      in Em2 by lia.
    rewrite fexp64.
    replace (e' + Z.max 0 (Z.max (Zdigits2 m1 + e' - 53) (-1074) - e'))
      with e' by lia.
    rewrite Z.div_1_r in Em2. rewrite Em2.
    destruct m1 as [|p|p] eqn:Ep; [left; split; reflexivity | | lia].
    right. destruct (Z.leb_spec e' (emax - prec)) as [L|L].
    + left. exists p, e'. split; reflexivity.
    + right. split; [reflexivity|].
      change (emax - prec) with 971 in L.
      destruct HG as [->|[_ HG]]; [lia|].
      assert (H52 : 2 ^ 52 <= m').
      { assert (Hlt : (scaled (2 ^ 52) e' < scaled (m' + 1) e')%Q).
        { eapply Qle_lt_trans; [|exact Hhi'].
          eapply Qle_trans; [|exact HG].
          unfold scaled. rewrite <- (pow2_Z 52), <- pow2_add by lia.
          apply pow2_le. lia. }
        apply scaled_lt in Hlt. lia. }
      assert (2 ^ 52 <= Z.pos p) by (destruct Hm1 as [|[? _]]; lia).
      eapply Qle_trans; [apply (pow2_le 1024 (52 + e')); lia|].
      rewrite pow2_add, (pow2_Z 52) by lia.
      apply (scaled_le (2 ^ 52) (Z.pos p)). assumption.
Qed.

Lemma scaled_2_53 (M E : Z) : M < 2 ^ 53 -> (scaled M E < pow2 (53 + E))%Q.
Proof.
  intros H. rewrite pow2_add, (pow2_Z 53) by lia.
  now apply (scaled_lt M (2 ^ 53)).
Qed.

(** Rounding is monotone against the numbers of binary64: what is above
    [x] stays above the rounded [x], what is below stays below. *)
Lemma binary_round_aux_bounds (mx ex : Z) (lx : location) (x : Q) :
  0 <= mx ->
  (scaled mx ex <= x)%Q -> (x < scaled (mx + 1) ex)%Q ->
  (lx = loc_Exact <-> (x == scaled mx ex)%Q) ->
  ex <= fexp prec emax (Zdigits2 mx + ex) ->
  let f := binary_round_aux prec emax false mx ex lx in
  (forall M E, on_grid M E -> E <= 971 -> (x <= scaled M E)%Q ->
     exists v, SFnonneg f v /\ (v <= scaled M E)%Q)
  /\ (forall M E, on_grid M E -> (scaled M E <= x)%Q ->
        f = S754_infinity false
        \/ exists v, SFnonneg f v /\ (scaled M E <= v)%Q).
Proof.
  intros Hmx Hlo Hhi Hloc Hn f.
  destruct (binary_round_aux_form mx ex lx x Hmx Hlo Hhi Hloc Hn)
    as (m' & e' & m1 & Hm' & Hlo' & Hhi' & Hm1 & HG & Hf).
  fold f in Hf.
  assert (Hmul : forall M E, 0 <= M -> e' <= E ->
            (scaled M E == scaled (M * 2 ^ (E - e')) e')%Q).
  { intros M E HM HE. replace E with (e' + (E - e')) at 1 by lia.
    apply scaled_shift. lia. }
  split.
  - intros M E [HM HE] HE' Hx.
    assert (Hv : (scaled m1 e' <= scaled M E)%Q).
    { destruct Hm1 as [->|[-> Hlt]]; [lra|].
      assert (e' <= E).
      { destruct HG as [->|[_ HG]]; [lia|].
        pose proof (scaled_2_53 M E ltac:(lia)).
        assert (e' + 52 < 53 + E) by (apply pow2_lt_inv; lra). lia. }
      rewrite (Hmul M E) in * by lia. apply scaled_le.
      assert (m' < M * 2 ^ (E - e')) by (apply (scaled_lt _ _ e'); lra). lia. }
    destruct Hf as [[E0 ->] | [(m & e & -> & Ev) | [_ Hbig]]].
    + exists 0%Q. split; [reflexivity|].
      unfold scaled. pose proof (pow2_pos E).
      assert (0 <= inject_Z M)%Q by (rewrite <- (Zle_Qle 0); lia). nra.
    + exists (scaled (Z.pos m) e). split; [reflexivity | lra].
    + pose proof (scaled_2_53 M E ltac:(lia)).
      pose proof (pow2_le (53 + E) 1024 ltac:(lia)). lra.
  - intros M E [HM HE] Hx.
    assert (Hv : (scaled M E <= scaled m1 e')%Q).
    { assert (H1 : (scaled m' e' <= scaled m1 e')%Q)
        by (apply scaled_le; destruct Hm1 as [->|[-> _]]; lia).
      eapply Qle_trans; [|exact H1].
      destruct (Z.le_gt_cases e' E) as [L|L].
      - rewrite (Hmul M E) in * by lia. apply scaled_le.
        assert (M * 2 ^ (E - e') < m' + 1) by (apply (scaled_lt _ _ e'); lra).
        lia.
      - destruct HG as [->|[_ HG]]; [lia|].
        assert (H52 : 2 ^ 52 <= m').
        { assert (Hlt : (scaled (2 ^ 52) e' < scaled (m' + 1) e')%Q).
          { eapply Qle_lt_trans; [|exact Hhi'].
            eapply Qle_trans; [|exact HG].
            unfold scaled. rewrite <- (pow2_Z 52), <- pow2_add by lia.
            apply pow2_le. lia. }
          apply scaled_lt in Hlt. lia. }
        pose proof (scaled_2_53 M E ltac:(lia)).
        pose proof (pow2_le (53 + E) (52 + e') ltac:(lia)) as Hp.
        rewrite (pow2_add 52), (pow2_Z 52) in Hp by lia.
        apply (scaled_le (2 ^ 52) m' e') in H52. unfold scaled in *. lra. }
    destruct Hf as [[E0 ->] | [(m & e & -> & Ev) | [-> _]]].
    + right. exists 0%Q. split; [reflexivity|].
      rewrite E0 in Hv. unfold scaled in *.
      change (inject_Z 0) with 0%Q in Hv. lra.
    + right. exists (scaled (Z.pos m) e). split; [reflexivity | lra].
    + now left.
Qed.

End Binary64Rounding.

(** ** The operations of binary64 on numbers that are not negative *)

Section RoundedOperations.

Lemma SFnonneg_proper (f : spec_float) (v w : Q) :
  (v == w)%Q -> SFnonneg f v -> SFnonneg f w.
Proof.
  intros E. destruct f as [s|s| |[] m e]; cbn; try tauto;
    intros H; now rewrite <- E.
Qed.

Lemma SFnonneg_unique (f : spec_float) (v w : Q) :
  SFnonneg f v -> SFnonneg f w -> (v == w)%Q.
Proof.
  destruct f as [s|s| |[] m e]; cbn; try tauto; intros -> ->; reflexivity.
Qed.

Lemma SFnonneg_ge0 (f : spec_float) (v : Q) : SFnonneg f v -> (0 <= v)%Q.
Proof.
  destruct f as [s|s| |[] m e]; cbn; try tauto; intros ->; [lra|].
  unfold scaled. pose proof (pow2_pos e). pose proof (inject_pos m). nra.
Qed.

Lemma rounds_proper (x y : Q) (f : spec_float) :
  (x == y)%Q -> rounds x f -> rounds y f.
Proof.
  intros E [Hu Hl]. split; intros M G HG; [intros HE|]; intros H;
    [apply Hu | apply Hl]; try assumption; now rewrite E.
Qed.

(** A result that is not rounded. *)
Lemma rounds_exact (f : spec_float) (v : Q) : SFnonneg f v -> rounds v f.
Proof.
  intros H. split; intros M E _; [intros _|]; intros Hv; [|right]; eauto.
Qed.

(** A number of binary64 is not changed. *)
Lemma rounds_on_grid (x : Q) (f : spec_float) (M E : Z) :
  rounds x f -> on_grid M E -> E <= 971 -> (x == scaled M E)%Q ->
  SFnonneg f x.
Proof.
  intros [Hu Hl] HG HE Hx.
  destruct (Hu M E HG HE ltac:(lra)) as (v & Hv & Hle).
  destruct (Hl M E HG ltac:(lra)) as [-> | (w & Hw & Hge)]; [contradiction|].
  pose proof (SFnonneg_unique _ _ _ Hv Hw).
  apply (SFnonneg_proper f v); [lra | exact Hv].
Qed.

Lemma valid_finite (s : bool) (m : positive) (e : Z) :
  valid_binary (S754_finite s m e) = true ->
  e = fexp prec emax (Z.pos (digits2_pos m) + e) /\ e <= 971.
Proof.
  cbn [SpecFloat.valid_binary]. unfold bounded, canonical_mantissa.
  rewrite andb_true_iff, Z.eqb_eq, Z.leb_le. intros [H1 H2].
  split; [now symmetry | exact H2].
Qed.

Lemma valid_on_grid (s : bool) (m : positive) (e : Z) :
  valid_binary (S754_finite s m e) = true -> on_grid (Z.pos m) e /\ e <= 971.
Proof.
  intros H. apply valid_finite in H as [Hc He]. rewrite fexp64 in Hc.
  pose proof (digits2_pos_bounds m) as [_ Hd].
  assert (2 ^ Z.pos (digits2_pos m) <= 2 ^ 53) by (apply Z.pow_le_mono_r; lia).
  split; [|exact He]. split; lia.
Qed.

Lemma rounds_binary_round_aux (mx : positive) (ex : Z) :
  ex <= fexp prec emax (Z.pos (digits2_pos mx) + ex) ->
  rounds (scaled (Z.pos mx) ex)
    (binary_round_aux prec emax false (Z.pos mx) ex loc_Exact).
Proof.
  intros H. apply binary_round_aux_bounds; try assumption; try lia.
  - apply Qle_refl.
  - apply scaled_lt. lia.
  - split; reflexivity.
Qed.

(** Multiplication *)
Lemma rounds_SFmul (a b : spec_float) (va vb : Q) :
  valid_binary a = true -> valid_binary b = true ->
  SFnonneg a va -> SFnonneg b vb ->
  rounds (va * vb) (SFmul prec emax a b).
Proof.
  intros Va Vb Ha Hb.
  destruct a as [sa|sa| |[] ma ea]; try contradiction;
    destruct b as [sb|sb| |[] mb eb]; try contradiction;
    cbn [SFnonneg] in Ha, Hb; cbn [SFmul xorb].
  - apply rounds_exact. cbn. rewrite Ha. ring.
  - apply rounds_exact. cbn. rewrite Ha. ring.
  - apply rounds_exact. cbn. rewrite Hb. ring.
  - apply valid_finite in Va as [Ca _]. apply valid_finite in Vb as [Cb _].
    rewrite fexp64 in Ca, Cb.
    apply (rounds_proper (scaled (Z.pos (ma * mb)) (ea + eb))).
    { rewrite Ha, Hb. unfold scaled.
      rewrite Pos2Z.inj_mul, inject_Z_mult, pow2_add. ring. }
    apply rounds_binary_round_aux. rewrite fexp64.
    pose proof (digits2_pos_bounds ma) as [La _].
    pose proof (digits2_pos_bounds mb) as [Lb _].
    assert (Hd : Z.pos (digits2_pos ma) + Z.pos (digits2_pos mb) - 1
                 <= Z.pos (digits2_pos (ma * mb))).
    { apply (Zdigits2_ge (Z.pos (ma * mb))); [|lia].
      replace (Z.pos (digits2_pos ma) + Z.pos (digits2_pos mb) - 1 - 1)
        with ((Z.pos (digits2_pos ma) - 1) + (Z.pos (digits2_pos mb) - 1))
        by lia.
      rewrite Z.pow_add_r, Pos2Z.inj_mul by lia.
      apply Z.mul_le_mono_nonneg; try assumption;
        apply Z.pow_nonneg; lia. }
    lia.
Qed.

(** Aligning a mantissa to a smaller exponent *)
Lemma shl_align_spec (mx : positive) (ex ex' : Z) :
  snd (shl_align mx ex ex') = Z.min ex ex'
  /\ Z.pos (fst (shl_align mx ex ex'))
     = Z.pos mx * 2 ^ (ex - Z.min ex ex').
Proof.
  unfold shl_align. destruct (ex' - ex) as [|d|d] eqn:E; cbn [fst snd].
  - replace (Z.min ex ex') with ex by lia. rewrite Z.sub_diag. lia.
  - replace (Z.min ex ex') with ex by lia. rewrite Z.sub_diag. lia.
  - replace (Z.min ex ex') with ex' by lia.
    replace (ex - ex') with (Z.pos d) by lia.
    change (Pos.iter xO mx d) with (shift_pos d mx).
    rewrite shift_pos_correct. change (Z.pow_pos 2 d) with (2 ^ Z.pos d). lia.
Qed.

Lemma scaled_align (m e e' : Z) :
  e' <= e -> (scaled m e == scaled (m * 2 ^ (e - e')) e')%Q.
Proof.
  intros H. replace e with (e' + (e - e')) at 1 by lia.
  apply scaled_shift. lia.
Qed.

Lemma Zdigits2_shift (m k : Z) :
  0 < m -> 0 <= k -> Zdigits2 (m * 2 ^ k) = Zdigits2 m + k.
Proof.
  intros Hm Hk. pose proof (Zdigits2_bounds m Hm) as [Lo Hi].
  assert (0 < 2 ^ k) by (apply Z.pow_pos_nonneg; lia).
  assert (0 < Zdigits2 m) by (destruct m; cbn in *; lia).
  apply Zdigits2_unique; [|nia].
  replace (Zdigits2 m + k - 1) with (Zdigits2 m - 1 + k) by lia.
  rewrite !Z.pow_add_r by lia. split; nia.
Qed.

Lemma rounds_binary_round (mx : positive) (ex : Z) :
  rounds (scaled (Z.pos mx) ex) (binary_round prec emax false mx ex).
Proof.
  unfold binary_round.
  set (e' := fexp prec emax (Z.pos (digits2_pos mx) + ex)).
  destruct (shl_align_spec mx ex e') as [He Hm].
  destruct (shl_align mx ex e') as [mz ez]. cbn [fst snd] in He, Hm.
  assert (Ev : (scaled (Z.pos mz) ez == scaled (Z.pos mx) ex)%Q).
  { rewrite Hm, <- He. symmetry. apply scaled_align. lia. }
  apply (rounds_proper (scaled (Z.pos mz) ez)); [exact Ev|].
  apply rounds_binary_round_aux.
  change (Z.pos (digits2_pos mz)) with (Zdigits2 (Z.pos mz)).
  rewrite Hm, Zdigits2_shift by lia. cbn [Zdigits2].
  replace (Z.pos (digits2_pos mx) + (ex - Z.min ex e') + ez)
    with (Z.pos (digits2_pos mx) + ex) by lia.
  fold e'. lia.
Qed.

Lemma rounds_binary_normalize (m : Z) :
  0 <= m -> rounds (inject_Z m) (binary_normalize prec emax m 0 false).
Proof.
  intros Hm. destruct m as [|p|p]; [| |lia]; cbn [binary_normalize].
  - apply rounds_exact. reflexivity.
  - apply (rounds_proper (scaled (Z.pos p) 0)).
    + unfold scaled. cbn. ring.
    + apply rounds_binary_round.
Qed.

(** Addition *)
Lemma rounds_SFadd (a b : spec_float) (va vb : Q) :
  SFnonneg a va -> SFnonneg b vb ->
  rounds (va + vb) (SFadd prec emax a b).
Proof.
  intros Ha Hb.
  destruct a as [sa|sa| |[] ma ea]; try contradiction;
    destruct b as [sb|sb| |[] mb eb]; try contradiction;
    cbn [SFnonneg] in Ha, Hb; cbn [SFadd].
  - apply rounds_exact. destruct sa, sb; cbn; rewrite Ha, Hb; reflexivity.
  - apply rounds_exact. cbn. rewrite Ha, Hb. ring.
  - apply rounds_exact. cbn. rewrite Ha, Hb. ring.
  - cbn [cond_Zopp].
    destruct (shl_align_spec ma ea (Z.min ea eb)) as [_ Ea].
    destruct (shl_align_spec mb eb (Z.min ea eb)) as [_ Eb].
    set (xa := fst (shl_align ma ea (Z.min ea eb))) in *.
    set (xb := fst (shl_align mb eb (Z.min ea eb))) in *.
    change (Z.pos xa + Z.pos xb) with (Z.pos (xa + xb)).
    cbn [binary_normalize].
    apply (rounds_proper (scaled (Z.pos (xa + xb)) (Z.min ea eb)));
      [|apply rounds_binary_round].
    replace (Z.min ea (Z.min ea eb)) with (Z.min ea eb) in Ea by lia.
    replace (Z.min eb (Z.min ea eb)) with (Z.min ea eb) in Eb by lia.
    rewrite Ha, Hb, (scaled_align (Z.pos ma) ea (Z.min ea eb)),
      (scaled_align (Z.pos mb) eb (Z.min ea eb)), <- Ea, <- Eb by lia.
    unfold scaled. rewrite Pos2Z.inj_add, inject_Z_plus. ring.
Qed.

(** Division *)
Lemma new_location_exact (m r : Z) : new_location m r = loc_Exact <-> r = 0.
Proof.
  unfold new_location, new_location_even, new_location_odd.
  destruct (Z.even m); destruct (Z.eqb_spec r 0); split; congruence.
Qed.

Lemma fexp_mono (a b : Z) : a <= b -> fexp prec emax a <= fexp prec emax b.
Proof. rewrite !fexp64. lia. Qed.

Lemma SFdiv_core_binary_spec (m1 m2 : positive) (e1 e2 : Z) :
  let x := (scaled (Z.pos m1) e1 / scaled (Z.pos m2) e2)%Q in
  exists q e' l,
    SFdiv_core_binary prec emax (Z.pos m1) e1 (Z.pos m2) e2 = (q, e', l)
    /\ 0 <= q
    /\ (scaled q e' <= x)%Q /\ (x < scaled (q + 1) e')%Q
    /\ (l = loc_Exact <-> (x == scaled q e')%Q)
    /\ e' <= fexp prec emax (Zdigits2 q + e').
Proof.
  intros x. unfold SFdiv_core_binary.
  set (d1 := Zdigits2 (Z.pos m1)). set (d2 := Zdigits2 (Z.pos m2)).
  set (e' := Z.min (fexp prec emax (d1 + e1 - (d2 + e2))) (e1 - e2)).
  set (s := e1 - e2 - e').
  assert (Hs : 0 <= s) by (subst s e'; lia).
  set (m' := match s with
             | 0 => Z.pos m1
             | Z.pos _ => Z.shiftl (Z.pos m1) s
             | Z.neg _ => 0
             end).
  assert (Em : m' = Z.pos m1 * 2 ^ s).
  { subst m'. destruct s as [|p|p]; [lia | now rewrite Z.shiftl_mul_pow2 | lia]. }
  assert (Hps : 0 < 2 ^ s) by (apply Z.pow_pos_nonneg; lia).
  pose proof (Z_div_mod m' (Z.pos m2) ltac:(lia)) as Hdm.
  destruct (Z.div_eucl m' (Z.pos m2)) as [q r]. destruct Hdm as [Edm Hr].
  assert (Hq : 0 <= q) by nia.
  exists q, e', (new_location (Z.pos m2) r). split; [reflexivity|].
  split; [exact Hq|].
  (* the quotient as a number *)
  assert (Ex : exists t, (0 <= t)%Q /\ (t < 1)%Q /\ ((t == 0)%Q <-> r = 0)
                         /\ (x == scaled q e' + t * pow2 e')%Q).
  { exists (inject_Z r / inject_Z (Z.pos m2))%Q.
    assert (HA : (0 < inject_Z (Z.pos m2))%Q)
      by (rewrite <- (Zlt_Qlt 0); lia).
    assert (HR0 : (0 <= inject_Z r)%Q) by (rewrite <- (Zle_Qle 0); lia).
    assert (HR1 : (inject_Z r < inject_Z (Z.pos m2))%Q)
      by (rewrite <- Zlt_Qlt; lia).
    assert (HR : (inject_Z r == 0)%Q <-> r = 0).
    { split; [|intros ->; reflexivity].
      intros H. now apply (inject_Z_injective r 0). }
    pose proof (pow2_pos e2) as HP2.
    assert (Ex : (x == scaled q e'
                       + inject_Z r / inject_Z (Z.pos m2) * pow2 e')%Q).
    { subst x. rewrite (scaled_align (Z.pos m1) e1 (e2 + e')) by lia.
      replace (e1 - (e2 + e')) with s by (subst s; lia).
      rewrite <- Em, Edm. unfold scaled.
      rewrite pow2_add, inject_Z_plus, inject_Z_mult. field.
      split; lra. }
    revert HA HR0 HR1 HR Ex.
    generalize (inject_Z r), (inject_Z (Z.pos m2)).
    intros R A HA HR0 HR1 HR Ex.
    split; [apply Qle_shift_div_l; lra|].
    split; [apply Qlt_shift_div_r; lra|].
    split; [|exact Ex].
    rewrite <- HR. split; intros H.
    - rewrite <- (Qmult_div_r R A) by lra. rewrite H. ring.
    - rewrite H. unfold Qdiv. ring. }
  destruct Ex as (t & Ht0 & Ht1 & Ht & Ex).
  pose proof (pow2_pos e') as HP'.
  split; [rewrite Ex; nra|].
  split.
  { rewrite Ex. unfold scaled. rewrite inject_Z_plus.
    change (inject_Z 1) with 1%Q. nra. }
  split.
  { rewrite new_location_exact, Ex, <- Ht. split.
    - intros ->. ring.
    - intros H. nra. }
  (* the quotient has enough digits *)
  apply Z.le_trans with (fexp prec emax (d1 + e1 - (d2 + e2)));
    [subst e'; lia|].
  apply fexp_mono.
  pose proof (Zdigits2_nonneg q) as Hdq.
  set (k := d1 - d2 + s).
  assert (Hk : k <= Zdigits2 q); [|subst k s; lia].
  destruct (Z.le_gt_cases k 0) as [L|L]; [lia|].
  pose proof (Zdigits2_bounds (Z.pos m1) ltac:(lia)) as [L1 _].
  pose proof (Zdigits2_bounds (Z.pos m2) ltac:(lia)) as [_ U2].
  fold d1 in L1. fold d2 in U2.
  assert (Hd1 : 0 < d1) by (subst d1; cbn; lia).
  assert (Hd2 : 0 < d2) by (subst d2; cbn; lia).
  assert (Hq2 : 2 ^ (k - 1) <= q).
  { assert (Hp : 0 < 2 ^ (k - 1)) by (apply Z.pow_pos_nonneg; lia).
    assert (Hlt : 2 ^ (k - 1) * Z.pos m2 < (q + 1) * Z.pos m2); [|nia].
    apply Z.lt_le_trans with (2 ^ (k - 1) * 2 ^ d2); [nia|].
    rewrite <- Z.pow_add_r by lia.
    replace (k - 1 + d2) with (d1 - 1 + s) by (subst k; lia).
    rewrite Z.pow_add_r by lia. nia. }
  apply Zdigits2_ge; [exact Hq2|].
  assert (0 < 2 ^ (k - 1)) by (apply Z.pow_pos_nonneg; lia). lia.
Qed.

Lemma rounds_SFdiv (a b : spec_float) (va vb : Q) :
  SFnonneg a va -> SFnonneg b vb -> (0 < vb)%Q ->
  rounds (va / vb) (SFdiv prec emax a b).
Proof.
  intros Ha Hb Hpos.
  destruct a as [sa|sa| |[] ma ea]; try contradiction;
    destruct b as [sb|sb| |[] mb eb]; try contradiction;
    cbn [SFnonneg] in Ha, Hb; cbn [SFdiv xorb]; try (exfalso; lra).
  - apply rounds_exact. cbn. rewrite Ha. unfold Qdiv. ring.
  - destruct (SFdiv_core_binary_spec ma mb ea eb)
      as (q & e' & l & -> & Hq & Hlo & Hhi & Hl & Hn).
    apply (rounds_proper (scaled (Z.pos ma) ea / scaled (Z.pos mb) eb)).
    { now rewrite Ha, Hb. }
    now apply binary_round_aux_bounds.
Qed.

End RoundedOperations.

(** ** Comparisons *)

Section Binary64Comparisons.

Lemma canonical_lt (s1 s2 : bool) (m1 m2 : positive) (e1 e2 : Z) :
  valid_binary (S754_finite s1 m1 e1) = true ->
  valid_binary (S754_finite s2 m2 e2) = true ->
  e1 < e2 -> (scaled (Z.pos m1) e1 < scaled (Z.pos m2) e2)%Q.
Proof.
  intros V1 V2 L.
  destruct (valid_on_grid _ _ _ V1) as [[H1 G1] _].
  apply valid_finite in V2 as [C2 _]. rewrite fexp64 in C2.
  assert (Ed : Z.pos (digits2_pos m2) = 53) by (clear H1; lia).
  pose proof (digits2_pos_bounds m2) as [L2 _].
  rewrite Ed in L2. change (53 - 1) with 52 in L2.
  pose proof (scaled_2_53 (Z.pos m1) e1 ltac:(lia)) as U1.
  pose proof (pow2_le (53 + e1) (52 + e2) ltac:(lia)) as Hp.
  rewrite (pow2_add 52), (pow2_Z 52) in Hp by lia.
  apply (scaled_le (2 ^ 52) (Z.pos m2) e2) in L2. unfold scaled in *. lra.
Qed.

Lemma SFcompare_nonneg (a b : spec_float) (va vb : Q) :
  valid_binary a = true -> valid_binary b = true ->
  SFnonneg a va -> SFnonneg b vb ->
  SFcompare a b = Some (va ?= vb)%Q.
Proof.
  intros Va Vb Ha Hb.
  destruct a as [sa|sa| |[] ma ea]; try contradiction;
    destruct b as [sb|sb| |[] mb eb]; try contradiction;
    cbn [SFnonneg] in Ha, Hb; cbn [SFcompare]; f_equal; symmetry.
  - apply (proj1 (Qeq_alt _ _)). now rewrite Ha, Hb.
  - apply (proj1 (Qlt_alt _ _)). rewrite Ha, Hb. unfold scaled. pose proof (pow2_pos eb).
    pose proof (inject_pos mb). nra.
  - apply (proj1 (Qgt_alt _ _)). rewrite Ha, Hb. unfold scaled. pose proof (pow2_pos ea).
    pose proof (inject_pos ma). nra.
  - destruct (Z.compare_spec ea eb) as [E|L|L].
    + subst eb. rewrite Ha, Hb.
      change (Pos.compare_cont Eq ma mb) with (Z.pos ma ?= Z.pos mb).
      destruct (Z.compare_spec (Z.pos ma) (Z.pos mb)) as [E|L|L].
      * apply (proj1 (Qeq_alt _ _)). now rewrite E.
      * apply (proj1 (Qlt_alt _ _)). now apply scaled_lt.
      * apply (proj1 (Qgt_alt _ _)). now apply scaled_lt.
    + apply (proj1 (Qlt_alt _ _)). rewrite Ha, Hb. eapply canonical_lt; eassumption.
    + apply (proj1 (Qgt_alt _ _)). rewrite Ha, Hb. eapply canonical_lt; eassumption.
Qed.

(** What is between two numbers that are not negative is such a number. *)
Lemma SFleb_between (lo f hi : spec_float) (vlo vhi : Q) :
  valid_binary lo = true -> valid_binary f = true -> valid_binary hi = true ->
  SFnonneg lo vlo -> SFnonneg hi vhi ->
  SFleb lo f = true -> SFleb f hi = true ->
  exists v, SFnonneg f v /\ (vlo <= v)%Q /\ (v <= vhi)%Q.
Proof.
  intros Vlo Vf Vhi Hlo Hhi L1 L2.
  assert (Hf : exists v, SFnonneg f v).
  { destruct f as [s|[]| |[] m e].
    - exists 0%Q. reflexivity.
    - destruct lo as [?|?| |[] ? ?]; try contradiction; discriminate L1.
    - destruct hi as [?|?| |[] ? ?]; try contradiction; discriminate L2.
    - destruct lo as [?|?| |[] ? ?]; try contradiction; discriminate L1.
    - destruct lo as [?|?| |[] ? ?]; try contradiction; discriminate L1.
    - exists (scaled (Z.pos m) e). reflexivity. }
  destruct Hf as (v & Hv). exists v. split; [exact Hv|].
  unfold SFleb in L1, L2.
  rewrite (SFcompare_nonneg lo f vlo v) in L1 by assumption.
  rewrite (SFcompare_nonneg f hi v vhi) in L2 by assumption.
  split; apply Qle_alt; intros E; [rewrite E in L1 | rewrite E in L2];
    discriminate.
Qed.

End Binary64Comparisons.

(** ** Doubles *)

Section Doubles.

#[local] Open Scope float_scope.

Lemma mul_rounded (a b : float) (va vb : Q) :
  nonneg a va -> nonneg b vb -> rounded (va * vb) (a * b).
Proof.
  intros Ha Hb. unfold rounded. rewrite FloatAxioms.mul_spec.
  apply rounds_SFmul; try assumption; apply Prim2SF_valid.
Qed.

Lemma add_rounded (a b : float) (va vb : Q) :
  nonneg a va -> nonneg b vb -> rounded (va + vb) (a + b).
Proof.
  intros Ha Hb. unfold rounded. rewrite FloatAxioms.add_spec. now apply rounds_SFadd.
Qed.

Lemma div_rounded (a b : float) (va vb : Q) :
  nonneg a va -> nonneg b vb -> (0 < vb)%Q -> rounded (va / vb) (a / b).
Proof.
  intros Ha Hb Hpos. unfold rounded. rewrite FloatAxioms.div_spec. now apply rounds_SFdiv.
Qed.

Lemma of_uint63_rounded (n : int) :
  rounded (inject_Z (Uint63.to_Z n)) (of_uint63 n).
Proof.
  unfold rounded. rewrite of_uint63_spec. apply rounds_binary_normalize.
  apply Uint63.to_Z_bounded.
Qed.

(** A result above [x] that is a double is above the rounded [x]. *)
Lemma rounded_le (x : Q) (f : float) (M E : Z) :
  rounded x f -> on_grid M E -> (E <= 971)%Z -> (x <= scaled M E)%Q ->
  exists v, nonneg f v /\ (v <= scaled M E)%Q.
Proof. intros [Hu _]. apply Hu. Qed.

Lemma rounded_on_grid (x : Q) (f : float) (M E : Z) :
  rounded x f -> on_grid M E -> (E <= 971)%Z -> (x == scaled M E)%Q ->
  nonneg f x.
Proof. apply rounds_on_grid. Qed.

(** A result between two doubles stays between them when rounded. *)
Lemma rounded_between (x : Q) (f : float) (M E M' E' : Z) :
  rounded x f -> on_grid M E -> on_grid M' E' -> (E' <= 971)%Z ->
  (scaled M E <= x)%Q -> (x <= scaled M' E')%Q ->
  exists v, nonneg f v /\ (scaled M E <= v)%Q /\ (v <= scaled M' E')%Q.
Proof.
  intros [Hu Hl] HG HG' HE' Hlo Hhi.
  destruct (Hu M' E' HG' HE' Hhi) as (v & Hv & Hle).
  exists v. split; [exact Hv|]. split; [|exact Hle].
  destruct (Hl M E HG Hlo) as [Hinf | (w & Hw & Hge)].
  - unfold nonneg in Hv. rewrite Hinf in Hv. contradiction.
  - pose proof (SFnonneg_unique _ _ _ Hv Hw). lra.
Qed.

Lemma nonneg_ge0 (f : float) (v : Q) : nonneg f v -> (0 <= v)%Q.
Proof. apply SFnonneg_ge0. Qed.

Lemma nonneg_proper (f : float) (v w : Q) :
  (v == w)%Q -> nonneg f v -> nonneg f w.
Proof. apply SFnonneg_proper. Qed.

Lemma ltb_nonneg (a b : float) (va vb : Q) :
  nonneg a va -> nonneg b vb -> (a <? b) = true <-> (va < vb)%Q.
Proof.
  intros Ha Hb. rewrite FloatAxioms.ltb_spec. unfold SFltb.
  rewrite (SFcompare_nonneg _ _ va vb)
    by (try assumption; apply Prim2SF_valid).
  rewrite Qlt_alt. destruct (va ?= vb)%Q; split; congruence.
Qed.

Lemma leb_between (lo f hi : float) (vlo vhi : Q) :
  nonneg lo vlo -> nonneg hi vhi ->
  (lo <=? f) = true -> (f <=? hi) = true ->
  exists v, nonneg f v /\ (vlo <= v)%Q /\ (v <= vhi)%Q.
Proof.
  intros Hlo Hhi. rewrite !FloatAxioms.leb_spec.
  apply SFleb_between; try assumption; apply Prim2SF_valid.
Qed.

End Doubles.

(** ** Doubles and their values *)

Section ValueFacts.

Lemma value_nonneg (x : float) (v : Q) :
  nonneg x v -> exists q, F64.value x = Fin q /\ (q == v)%Q.
Proof.
  unfold nonneg, F64.value.
  destruct (Prim2SF x) as [s|s| |[] m e]; cbn [SFnonneg]; try tauto; intros H.
  - exists 0%Q. split; [reflexivity | now symmetry].
  - eexists. split; [reflexivity|]. rewrite Qred_correct. now symmetry.
Qed.

Lemma nonneg_value (x : float) (q : Q) :
  F64.value x = Fin q -> (0 <= q)%Q -> nonneg x q.
Proof.
  unfold nonneg, F64.value.
  destruct (Prim2SF x) as [s|s| |[] m e]; cbn [SFnonneg]; try discriminate;
    intros [= <-] H.
  - reflexivity.
  - exfalso. rewrite Qred_correct in H.
    pose proof (pow2_pos e). pose proof (inject_pos m).
    fold (pow2 e) in H. nra.
  - rewrite Qred_correct. reflexivity.
Qed.

Lemma of_Z_exact (z : Z) :
  0 <= z < 2 ^ 53 -> nonneg (F64.of_Z z) (inject_Z z).
Proof.
  intros Hz. unfold F64.of_Z.
  pose proof (of_uint63_rounded (Uint63.of_Z z)) as H.
  rewrite Uint63.of_Z_spec, Z.mod_small in H
    by (change wB with (2 ^ 63); lia).
  apply (rounded_on_grid _ _ z 0 H); [split; lia | lia |].
  unfold scaled. cbn. ring.
Qed.

Lemma of_N_exact (n : N) :
  (n < 2 ^ 53)%N -> nonneg (F64.of_N n) (inject_Z (Z.of_N n)).
Proof.
  intros H. apply of_Z_exact. split; [lia|].
  change (2 ^ 53) with (Z.of_N (2 ^ 53)). lia.
Qed.

End ValueFacts.

Section DisplayFacts.

Variable big : Q -> string.

(** A double between 0 and 100 is shown by toFixed(1) as its tenths. *)
Lemma toFixed_percent (x : float) (v : Q) :
  nonneg x v -> (v <= 100)%Q ->
  F64.toFixed big 1 x = show1 (tenths v) /\ (tenths v <= 1000)%N.
Proof.
  intros Hx Hv. pose proof (nonneg_ge0 x v Hx) as H0.
  destruct (value_nonneg x v Hx) as (q & E & Hq).
  unfold F64.toFixed. rewrite E. split.
  - rewrite toFixed_small; [| lra | rewrite Hq; eapply Qle_lt_trans; [exact Hv | reflexivity]].
    unfold show1, tenths. f_equal. now apply nearest_scaled_proper.
  - apply tenths_le_1000. lra.
Qed.

Lemma scaled_0 (z : Z) : (scaled z 0 == inject_Z z)%Q.
Proof. unfold scaled. cbn. ring. Qed.

(** [x * 100] for a double [x] between 0 and 1 *)
Lemma times_100 (x : float) (v : Q) :
  nonneg x v -> (v <= 1)%Q ->
  exists w, nonneg (x * F64.of_Z 100)%float w /\ (w <= 100)%Q.
Proof.
  intros Hx Hv.
  pose proof (mul_rounded x (F64.of_Z 100) v (inject_Z 100) Hx
                (of_Z_exact 100 ltac:(lia))) as H.
  destruct (rounded_le _ _ 100 0 H) as (w & Hw & Hle);
    [split; lia | lia | rewrite scaled_0; change (inject_Z 100) with 100%Q; lra |].
  exists w. split; [exact Hw|]. now rewrite scaled_0 in Hle.
Qed.

End DisplayFacts.

(** ** Claims on ConfusionMatrix *)

(** C1: on the matrix [[4250,350],[420,4980]] the component shows accuracy
    92.3, precision 93.4, recall 92.2 and F1 92.8, with exact arithmetic
    and on doubles alike; the formulas of the specification on the
    unrounded percentages round to the same tenths. *)
Theorem C1_mock_matrix_stats :
  forall big,
    ConfusionMatrix big mock_matrix
    = {| accuracy := "92.3"; precision := "93.4";
         recall := "92.2"; f1Score := "92.8" |}
    /\ F64.ConfusionMatrix big mock_matrix
       = Some {| accuracy := "92.3"; precision := "93.4";
                 recall := "92.2"; f1Score := "92.8" |}
    /\ tenths (ratio100 (4250 + 4980) (4250 + 350 + 420 + 4980)) = 923%N
    /\ tenths (ratio100 4980 (4980 + 350)) = 934%N
    /\ tenths (ratio100 4980 (4980 + 420)) = 922%N
    /\ tenths (f1_unrounded mock_matrix) = 928%N.
Proof. intros big. repeat split; vm_compute; reflexivity. Qed.

Lemma in_range_show1 (n : N) : (n <= 1000)%N -> in_range (show1 n).
Proof.
  intros H. destruct (parse_show1 n) as (q & E & Hq).
  exists q. rewrite E. split; [reflexivity|]. rewrite Hq.
  split; [apply of_tenths_nonneg | now apply of_tenths_le_100].
Qed.

(** The table of the shown percentages passes the check. *)
Lemma percentages_checked : percentages_ok = true.
Proof. vm_compute. reflexivity. Qed.

Section F1Facts.

Variable big : Q -> string.

Lemma upto_In (n : nat) (k : N) : (k <= N.of_nat n)%N -> In k (upto n).
Proof.
  intros H. unfold upto. apply in_map_iff. exists (N.to_nat k).
  split; [apply N2Nat.id|]. apply in_seq. lia.
Qed.

Lemma entry_of_Some (n : N) (e : entry) :
  entry_of n = Some e ->
  shown e = n /\ F64.nearest (of_tenths n) = Some (parsed e).
Proof.
  unfold entry_of.
  destruct (F64.nearest (of_tenths n)) as [p|];
    cbn [mbind option_bind]; [|discriminate].
  destruct (F64.nearest (if (n =? 0)%N then _ else _)) as [lo|];
    cbn [mbind option_bind]; [|discriminate].
  destruct (F64.nearest _) as [hi|]; cbn [mbind option_bind]; [|discriminate].
  intros [= <-]. split; reflexivity.
Qed.

Lemma entry_ok_spec (e : entry) :
  entry_ok e = true ->
  exists l u,
    nonneg (lower e) l /\ nonneg (upper e) u
    /\ (shown e <= tenths l)%N /\ (tenths u <= shown e)%N /\ (u <= 101)%Q.
Proof.
  unfold entry_ok.
  destruct (F64.value (lower e)) as [| |l] eqn:El; try discriminate.
  destruct (F64.value (upper e)) as [| |u] eqn:Eu; try discriminate.
  rewrite !andb_true_iff, !Qle_bool_iff, !N.leb_le.
  intros ((((H0l & Hl) & H0u) & Hu) & H101).
  exists l, u. repeat split; try assumption; now apply nonneg_value.
Qed.

(** Every number of tenths up to 1000 has its entries, and they passed
    the check. *)
Lemma checked_entries (P R : N) :
  (P <= 1000)%N -> (R <= 1000)%N ->
  exists a b,
    entry_of P = Some a /\ entry_of R = Some b
    /\ entry_ok a = true /\ entry_ok b = true /\ pair_ok a b = true.
Proof.
  intros HP HR. pose proof percentages_checked as H.
  unfold percentages_ok, entries in H.
  destruct (mapM entry_of (upto 1000)) as [t|] eqn:E; [|discriminate].
  apply mapM_Some in E.
  unfold table_ok in H. apply andb_true_iff in H as [Hok Hpairs].
  rewrite forallb_forall in Hok, Hpairs.
  assert (Hin : forall k, (k <= 1000)%N ->
            exists e, entry_of k = Some e /\ In e t).
  { intros k Hk. pose proof (upto_In 1000 k Hk) as Hi.
    apply list_elem_of_In, list_elem_of_lookup in Hi as [i Hi].
    destruct (Forall2_lookup_l _ _ _ _ _ E Hi) as (e & He & Hf).
    exists e. split; [exact Hf|].
    apply list_elem_of_In, list_elem_of_lookup. eauto. }
  destruct (Hin P HP) as (a & Ea & Ia). destruct (Hin R HR) as (b & Eb & Ib).
  exists a, b. repeat split; auto.
  specialize (Hpairs a Ia). rewrite forallb_forall in Hpairs. auto.
Qed.

Lemma toFixed_nonneg (x : float) (v : Q) :
  nonneg x v -> (v <= 101)%Q -> F64.toFixed big 1 x = show1 (tenths v).
Proof.
  intros Hx Hv. pose proof (nonneg_ge0 x v Hx) as H0.
  destruct (value_nonneg x v Hx) as (q & E & Hq).
  unfold F64.toFixed. rewrite E.
  rewrite toFixed_small;
    [| lra | rewrite Hq; eapply Qle_lt_trans; [exact Hv | reflexivity]].
  unfold show1, tenths. f_equal. now apply nearest_scaled_proper.
Qed.

(** The F1 score from a precision and a recall shown as [P] and [R]
    tenths: a number of tenths between the two, or "N/A" when both are 0;
    the same for [R] and [P]. *)
Lemma f1_from_shown (P R : N) :
  (P <= 1000)%N -> (R <= 1000)%N ->
  exists p r,
    F64.nearest (of_tenths P) = Some p /\ F64.nearest (of_tenths R) = Some r
    /\ (p + r = r + p)%float /\ f1_64 p r = f1_64 r p
    /\ ((F64.of_Z 0 <? p + r)%float = true
        /\ (exists F,
              F64.toFixed big 1 (f1_64 p r) = show1 F
              /\ (N.min P R <= F <= N.max P R)%N)
        \/ (F64.of_Z 0 <? p + r)%float = false /\ P = 0%N /\ R = 0%N).
Proof.
  intros HP HR.
  destruct (checked_entries P R HP HR) as (a & b & Ea & Eb & Oa & Ob & Hab).
  apply entry_of_Some in Ea as [Sa Pa]. apply entry_of_Some in Eb as [Sb Pb].
  apply entry_ok_spec in Oa as (la & ua & Hla & Hua & Tla & Tua & Ua).
  apply entry_ok_spec in Ob as (lb & ub & Hlb & Hub & Tlb & Tub & Ub).
  rewrite Sa in *. rewrite Sb in *.
  exists (parsed a), (parsed b). split; [exact Pa|]. split; [exact Pb|].
  unfold pair_ok in Hab. rewrite Sa, Sb in Hab.
  apply andb_true_iff in Hab as [Hsym Hab].
  apply andb_true_iff in Hsym as [Hs Hf].
  apply FloatAxioms.Leibniz.eqb_spec in Hs, Hf.
  split; [exact Hs|]. split; [exact Hf|].
  destruct (F64.of_Z 0 <? parsed a + parsed b)%float.
  - left. split; [reflexivity|].
    apply andb_true_iff in Hab as [L1 L2].
    destruct (N.leb_spec P R) as [C|C].
    + destruct (leb_between _ _ _ la ub Hla Hub L1 L2) as (v & Hv & V1 & V2).
      exists (tenths v). split; [apply toFixed_nonneg; [exact Hv | lra]|].
      pose proof (nonneg_ge0 _ _ Hv) as V0.
      apply tenths_mono in V1, V2; [lia | lra | eapply nonneg_ge0; eassumption].
    + destruct (leb_between _ _ _ lb ua Hlb Hua L1 L2) as (v & Hv & V1 & V2).
      exists (tenths v). split; [apply toFixed_nonneg; [exact Hv | lra]|].
      pose proof (nonneg_ge0 _ _ Hv) as V0.
      apply tenths_mono in V1, V2; [lia | lra | eapply nonneg_ge0; eassumption].
  - right. apply andb_true_iff in Hab as [H1 H2].
    apply N.eqb_eq in H1, H2. auto.
Qed.

End F1Facts.

Section MatrixF64.

Variable big : Q -> string.

#[local] Open Scope float_scope.

Lemma add_exact (x y : float) (a b : N) :
  nonneg x (inject_Z (Z.of_N a)) -> nonneg y (inject_Z (Z.of_N b)) ->
  (a + b < 2 ^ 53)%N ->
  nonneg (x + y) (inject_Z (Z.of_N (a + b))).
Proof.
  intros Hx Hy Hlt. pose proof (add_rounded x y _ _ Hx Hy) as H.
  assert (E : (inject_Z (Z.of_N a) + inject_Z (Z.of_N b)
               == inject_Z (Z.of_N (a + b)))%Q)
    by now rewrite N2Z.inj_add, inject_Z_plus.
  apply (nonneg_proper _ _ _ E).
  apply (rounded_on_grid _ _ (Z.of_N (a + b)) 0 H).
  - split; [split; [lia|] | lia].
    change (2 ^ 53)%Z with (Z.of_N (2 ^ 53)). lia.
  - lia.
  - now rewrite scaled_0.
Qed.

(** [x / y * 100] for counts [a <= b] *)
Lemma percent_double (x y : float) (a b : N) :
  nonneg x (inject_Z (Z.of_N a)) -> nonneg y (inject_Z (Z.of_N b)) ->
  (a <= b)%N -> (0 < b)%N ->
  exists w, nonneg (x / y * F64.of_Z 100) w /\ (w <= 100)%Q.
Proof.
  intros Hx Hy Hle Hpos.
  assert (Hb : (0 < inject_Z (Z.of_N b))%Q) by (rewrite <- (Zlt_Qlt 0); lia).
  assert (Hab : (inject_Z (Z.of_N a) <= inject_Z (Z.of_N b))%Q)
    by (rewrite <- Zle_Qle; lia).
  pose proof (div_rounded x y _ _ Hx Hy Hb) as H.
  destruct (rounded_le _ _ 1 0 H) as (v & Hv & Hv1).
  - split; lia.
  - lia.
  - rewrite scaled_0. apply Qle_shift_div_r; [exact Hb|].
    change (inject_Z 1) with 1%Q. lra.
  - rewrite scaled_0 in Hv1. now apply times_100 with (v := v).
Qed.

Lemma parseFloat_show1 (n : N) :
  F64.parseFloat (show1 n) = F64.nearest (of_tenths n).
Proof.
  unfold F64.parseFloat. destruct (parse_show1 n) as (q & -> & Hq).
  cbn [F64.of_jsnum]. unfold F64.nearest.
  now rewrite (Qred_complete _ _ Hq).
Qed.

(** The statistics from doubles that hold counts whose sum is below 2^53:
    the three percentages are doubles between 0 and 100, shown by their
    tenths; the F1 score is computed from the doubles read back from the
    shown precision and recall. *)
Lemma deriveConfusionStats_counts
    (tn' fp' fn' tp' : float) (tn fp fn tp : N) :
  nonneg tn' (inject_Z (Z.of_N tn)) -> nonneg fp' (inject_Z (Z.of_N fp)) ->
  nonneg fn' (inject_Z (Z.of_N fn)) -> nonneg tp' (inject_Z (Z.of_N tp)) ->
  (tn + fp + fn + tp < 2 ^ 53)%N -> (0 < tp + fp)%N -> (0 < tp + fn)%N ->
  exists a p r pd rd,
    nonneg (percent64 (tn' + tp') (tn' + fp' + fn' + tp')) a
    /\ nonneg (percent64 tp' (tp' + fp')) p
    /\ nonneg (percent64 tp' (tp' + fn')) r
    /\ (tenths a <= 1000)%N /\ (tenths p <= 1000)%N /\ (tenths r <= 1000)%N
    /\ F64.nearest (of_tenths (tenths p)) = Some pd
    /\ F64.nearest (of_tenths (tenths r)) = Some rd
    /\ F64.deriveConfusionStats big tn' fp' fn' tp'
       = Some {| accuracy := show1 (tenths a);
                 precision := show1 (tenths p);
                 recall := show1 (tenths r);
                 f1Score :=
                   if F64.of_Z 0 <? pd + rd
                   then F64.toFixed big 1 (f1_64 pd rd)
                   else "N/A"%string |}.
Proof.
  intros Htn Hfp Hfn Htp HT Hp Hr.
  pose proof (add_exact _ _ _ _ Htn Htp ltac:(lia)) as Hnum.
  pose proof (add_exact _ _ _ _ Htn Hfp ltac:(lia)) as H1.
  pose proof (add_exact _ _ _ _ H1 Hfn ltac:(lia)) as H2.
  pose proof (add_exact _ _ _ _ H2 Htp ltac:(lia)) as Htot.
  pose proof (add_exact _ _ _ _ Htp Hfp ltac:(lia)) as Hpp.
  pose proof (add_exact _ _ _ _ Htp Hfn ltac:(lia)) as Hpn.
  destruct (percent_double _ _ _ _ Hnum Htot ltac:(lia) ltac:(lia))
    as (a & Ha & Ha100).
  destruct (percent_double _ _ _ _ Htp Hpp ltac:(lia) ltac:(lia))
    as (p & Hp' & Hp100).
  destruct (percent_double _ _ _ _ Htp Hpn ltac:(lia) ltac:(lia))
    as (r & Hr' & Hr100).
  destruct (toFixed_percent big _ _ Ha Ha100) as [Sa Ta].
  destruct (toFixed_percent big _ _ Hp' Hp100) as [Sp Tp].
  destruct (toFixed_percent big _ _ Hr' Hr100) as [Sr Tr].
  destruct (f1_from_shown big _ _ Tp Tr) as (pd & rd & Epd & Erd & _).
  exists a, p, r, pd, rd. repeat (split; [assumption|]).
  unfold F64.deriveConfusionStats, percent64, f1_64 in *.
  rewrite Sa, Sp, Sr, !parseFloat_show1, Epd, Erd.
  reflexivity.
Qed.



End MatrixF64.

Section RoundingPoints.

Variable big : Q -> string.

#[local] Open Scope float_scope.

(** C5, as the code has it, for counts whose total is below 2^53:
    accuracy, precision and recall are each the double the formula gives,
    rounded once to tenths by toFixed; the operands of F1 are the doubles
    parseFloat reads back from the shown precision and recall, that is
    from the values already rounded to tenths; F1 is computed from them
    and rounded once more, and is "N/A" when their sum is not above 0.
    The strings depend on the matrix only. *)
Theorem C5_rounding_points (tn fp fn tp : N) :
  (tn + fp + fn + tp < 2 ^ 53)%N -> (0 < tp + fp)%N -> (0 < tp + fn)%N ->
  let m := ((tn, fp), (fn, tp)) in
  exists st a p r pd rd,
    F64.ConfusionMatrix big m = Some st
    /\ F64.value (accuracy64 m) = Fin a
    /\ F64.value (precision64 m) = Fin p
    /\ F64.value (recall64 m) = Fin r
    /\ accuracy st = show1 (tenths a)
    /\ precision st = show1 (tenths p)
    /\ recall st = show1 (tenths r)
    /\ F64.parseFloat (precision st) = Some pd
    /\ F64.parseFloat (recall st) = Some rd
    /\ F64.nearest (of_tenths (tenths p)) = Some pd
    /\ F64.nearest (of_tenths (tenths r)) = Some rd
    /\ f1Score st =
         if F64.of_Z 0 <? pd + rd
         then F64.toFixed big 1 (f1_64 pd rd)
         else "N/A"%string.
Proof.
  intros HT Hp Hr m. subst m. unfold F64.ConfusionMatrix.
  cbn [accuracy64 precision64 recall64].
  destruct (deriveConfusionStats_counts big
              (F64.of_N tn) (F64.of_N fp) (F64.of_N fn) (F64.of_N tp)
              tn fp fn tp)
    as (a & p & r & pd & rd & Ha & Hp' & Hr' & _ & _ & _ & Epd & Erd & ->);
    try assumption; try (apply of_N_exact; lia).
  destruct (value_nonneg _ _ Ha) as (qa & Ea & Hqa).
  destruct (value_nonneg _ _ Hp') as (qp & Ep & Hqp).
  destruct (value_nonneg _ _ Hr') as (qr & Er & Hqr).
  rewrite <- (tenths_proper _ _ Hqa), <- (tenths_proper _ _ Hqp),
    <- (tenths_proper _ _ Hqr) in *.
  eexists _, qa, qp, qr, pd, rd. split; [reflexivity|].
  cbn [accuracy precision recall f1Score]. rewrite !parseFloat_show1.
  repeat split; assumption.
Qed.

End RoundingPoints.

(** The claims on doubles at concrete inputs *)



Lemma C5_witness :
  let m := ((3, 15), (1, 1))%N in
  exists st a p r pd rd,
    F64.ConfusionMatrix (fun _ => EmptyString) m = Some st
    /\ F64.value (accuracy64 m) = Fin a
    /\ F64.value (precision64 m) = Fin p
    /\ F64.value (recall64 m) = Fin r
    /\ accuracy st = show1 (tenths a)
    /\ precision st = show1 (tenths p)
    /\ recall st = show1 (tenths r)
    /\ F64.parseFloat (precision st) = Some pd
    /\ F64.parseFloat (recall st) = Some rd
    /\ F64.nearest (of_tenths (tenths p)) = Some pd
    /\ F64.nearest (of_tenths (tenths r)) = Some rd
    /\ f1Score st =
         if (F64.of_Z 0 <? pd + rd)%float
         then F64.toFixed (fun _ => EmptyString) 1 (f1_64 pd rd)
         else "N/A"%string.
Proof.
  apply (C5_rounding_points (fun _ => EmptyString) 3 15 1 1); reflexivity.
Defined.

(** C5 as stated fails: on [[3,15],[1,1]] precision is 6.25, shown as 6.3,
    recall is 50; the code shows F1 11.2, computed from 6.3 and 50.0,
    where the unrounded operands give 11.1, on doubles and in exact
    arithmetic. *)
Lemma C5_counterexample :
  let m := ((3, 15), (1, 1))%N in
  F64.ConfusionMatrix (fun _ => EmptyString) m
  = Some {| accuracy := "20.0"; precision := "6.3";
            recall := "50.0"; f1Score := "11.2" |}
  /\ F64.value (precision64 m) = Fin (25 # 4)
  /\ F64.value (recall64 m) = Fin 50
  /\ F64.toFixed (fun _ => EmptyString) 1
       (f1_64 (precision64 m) (recall64 m)) = "11.1"%string
  /\ show1 (tenths (f1_unrounded m)) = "11.1"%string.
Proof. repeat split. Qed.

Lemma add_NaN_r (x : jsnum) : (x + NaN)%js = NaN.
Proof. now destruct x. Qed.

(** C6, the code at the inputs the claim is about: with tp+fp = 0 the
    precision is shown as "NaN", with tp+fn = 0 the recall is shown as
    "NaN"; F1 is "N/A" in both cases.  On doubles [[5,0],[2,0]] and
    [[5,3],[0,0]] give the same. *)
Theorem C6_undefined_shows_NaN :
  forall big tn x,
    precision (ConfusionMatrix big ((tn, 0), (x, 0))%N) = "NaN"%string
    /\ f1Score (ConfusionMatrix big ((tn, 0), (x, 0))%N) = "N/A"%string
    /\ recall (ConfusionMatrix big ((tn, x), (0, 0))%N) = "NaN"%string
    /\ f1Score (ConfusionMatrix big ((tn, x), (0, 0))%N) = "N/A"%string
    /\ F64.ConfusionMatrix big ((5, 0), (2, 0))%N
       = Some {| accuracy := "71.4"; precision := "NaN";
                 recall := "0.0"; f1Score := "N/A" |}
    /\ F64.ConfusionMatrix big ((5, 3), (0, 0))%N
       = Some {| accuracy := "62.5"; precision := "0.0";
                 recall := "NaN"; f1Score := "N/A" |}.
Proof.
  intros big tn x. repeat split; try reflexivity.
  unfold ConfusionMatrix. cbn [f1Score].
  change (parseFloat (toFixed big 1 (of_N 0 / (of_N 0 + of_N 0) * of_Z 100)))
    with NaN.
  now rewrite add_NaN_r.
Qed.

(** The matrix of zeros: every quotient is 0/0. *)
Example zero_matrix_stats (big : Q -> string) :
  ConfusionMatrix big ((0, 0), (0, 0))%N
  = {| accuracy := "NaN"; precision := "NaN";
       recall := "NaN"; f1Score := "N/A" |}
  /\ F64.ConfusionMatrix big ((0, 0), (0, 0))%N
     = Some (ConfusionMatrix big ((0, 0), (0, 0))%N).
Proof. split; reflexivity. Qed.

(** toFixed on doubles: the decimal expansion of the binary value decides. *)
Example toFixed_doubles (big : Q -> string) :
  F64.toFixed big 2 <$> F64.nearest (1005 # 1000) = Some "1.00"%string
  /\ F64.toFixed big 1 <$> F64.nearest (125 # 100) = Some "1.3"%string
  /\ F64.toFixed big 1 <$> F64.nearest (- (1 # 25)) = Some "-0.0"%string.
Proof. repeat split. Qed.

Example parseFloat_samples :
  parseFloat "92.3" = Fin (923 # 10) /\ parseFloat "N/A" = NaN
  /\ parseFloat "NaN" = NaN /\ parseFloat "  -1.5e2px" = Fin (- (1500 # 10))
  /\ parseFloat "-Infinity" = Inf true /\ parseFloat "." = NaN.
Proof. repeat split; vm_compute; reflexivity. Qed.

(** ** Claims on PredictionResult *)

Section ConfidenceF64.

Variable big : Q -> string.

(** C8: a confidence that is a double between 0 and 1, or between 0 and
    100, becomes a percentage between 0 and 100, and is shown as one. *)
Theorem C8_confidence_percent_range (c : float) (q : Q) :
  F64.value c = Fin q ->
  (0 <= q <= 1)%Q \/ (0 <= q <= 100)%Q ->
  (exists pct, F64.value (F64.confidencePercent c) = Fin pct
               /\ (0 <= pct <= 100)%Q)
  /\ in_range (F64.confidenceDisplay big c).
Proof.
  intros Ec Hq.
  assert (Hc : nonneg c q) by (apply nonneg_value; [exact Ec | lra]).
  assert (H : exists w, nonneg (F64.confidencePercent c) w /\ (w <= 100)%Q).
  { unfold F64.confidencePercent.
    destruct (F64.of_Z 1 <? c)%float eqn:L.
    - exists q. split; [exact Hc | lra].
    - apply times_100 with (v := q); [exact Hc|].
      destruct (Qlt_le_dec 1 q) as [G|G]; [|exact G].
      apply (ltb_nonneg (F64.of_Z 1) c (inject_Z 1) q) in G;
        [congruence | apply of_Z_exact; lia | exact Hc]. }
  destruct H as (w & Hw & Hle). split.
  - destruct (value_nonneg _ _ Hw) as (pct & E & Hp).
    exists pct. split; [exact E|]. pose proof (nonneg_ge0 _ _ Hw). lra.
  - unfold F64.confidenceDisplay.
    destruct (toFixed_percent big _ _ Hw Hle) as [-> Ht].
    now apply in_range_show1.
Qed.

End ConfidenceF64.

Lemma C8_witness :
  (exists pct, F64.value (F64.confidencePercent 0.75) = Fin pct
               /\ (0 <= pct <= 100)%Q)
  /\ in_range (F64.confidenceDisplay (fun _ => EmptyString) 0.75).
Proof.
  apply (C8_confidence_percent_range (fun _ => EmptyString) 0.75%float (3 # 4)).
  - reflexivity.
  - left. split; discriminate.
Defined.

(** C10: the choice between fraction and percentage is the test
    [confidence > 1]: a confidence above 1 is kept and shown as it is, any
    other is multiplied by 100; so 1 is shown as 100.0 and 1.01 as 1.0,
    with exact arithmetic and on doubles alike. *)
Theorem C10_confidence_boundary (big : Q -> string) (c : jsnum) :
  ((c > of_Z 1)%js = true ->
     confidencePercent c = c
     /\ confidenceDisplay big c = toFixed big 1 c)
  /\ ((c > of_Z 1)%js = false ->
        confidencePercent c = (c * of_Z 100)%js
        /\ confidenceDisplay big c = toFixed big 1 (c * of_Z 100)%js)
  /\ (of_Z 1 > of_Z 1)%js = false
  /\ confidenceDisplay big (of_Z 1) = "100.0"%string
  /\ (Fin (101 # 100) > of_Z 1)%js = true
  /\ confidenceDisplay big (Fin (101 # 100)) = "1.0"%string
  /\ F64.confidenceDisplay big (F64.of_Z 1) = "100.0"%string
  /\ F64.confidenceDisplay big <$> F64.nearest (101 # 100)
     = Some "1.0"%string.
Proof.
  unfold confidenceDisplay, confidencePercent.
  split; [intros ->; split; reflexivity|].
  split; [intros ->; split; reflexivity|].
  repeat split.
Qed.

Lemma C10_witness :
  (confidencePercent (Fin (3 # 2)) = Fin (3 # 2)
   /\ confidenceDisplay (fun _ => EmptyString) (Fin (3 # 2)) = "1.5"%string)
  /\ (confidencePercent (Fin (1 # 2)) = (Fin (1 # 2) * of_Z 100)%js
      /\ confidenceDisplay (fun _ => EmptyString) (Fin (1 # 2)) = "50.0"%string).
Proof.
  split.
  - apply (proj1 (C10_confidence_boundary (fun _ => EmptyString) (Fin (3 # 2)))).
    reflexivity.
  - apply (proj1 (proj2
      (C10_confidence_boundary (fun _ => EmptyString) (Fin (1 # 2))))).
    reflexivity.
Defined.

(** ** Claims on MetricsCharts *)

Section ChartFacts.

Lemma chartData_length (m : metrics) :
  length (chartData m) = length (epochs m).
Proof. unfold chartData. apply length_imap. Qed.

Lemma chartData_lookup (m : metrics) (i : nat) :
  chartData m !! i =
  (fun e => {| epoch := e;
               trainAccuracy := train_accuracy m !! i;
               valAccuracy := val_accuracy m !! i;
               trainLoss := train_loss m !! i;
               valLoss := val_loss m !! i |}) <$> epochs m !! i.
Proof. unfold chartData. now rewrite list_lookup_imap. Qed.

Lemma chartData_epochs (m : metrics) : epoch <$> chartData m = epochs m.
Proof.
  apply list_eq; intros i. rewrite list_lookup_fmap, chartData_lookup.
  now destruct (epochs m !! i).
Qed.

(** Row [i] carries the entries at index [i] of all five arrays. *)
Lemma chartData_zip (m : metrics) (i : nat) :
  parallel m -> (i < length (epochs m))%nat ->
  exists e ta va tl vl,
    epochs m !! i = Some e
    /\ train_accuracy m !! i = Some ta /\ val_accuracy m !! i = Some va
    /\ train_loss m !! i = Some tl /\ val_loss m !! i = Some vl
    /\ chartData m !! i =
       Some {| epoch := e; trainAccuracy := Some ta; valAccuracy := Some va;
               trainLoss := Some tl; valLoss := Some vl |}.
Proof.
  intros (H1 & H2 & H3 & H4) Hi.
  destruct (lookup_lt_is_Some_2 (epochs m) i Hi) as [e He].
  destruct (lookup_lt_is_Some_2 (train_accuracy m) i) as [ta Hta]; [lia|].
  destruct (lookup_lt_is_Some_2 (val_accuracy m) i) as [va Hva]; [lia|].
  destruct (lookup_lt_is_Some_2 (train_loss m) i) as [tl Htl]; [lia|].
  destruct (lookup_lt_is_Some_2 (val_loss m) i) as [vl Hvl]; [lia|].
  exists e, ta, va, tl, vl.
  rewrite chartData_lookup, He, Hta, Hva, Htl, Hvl. auto 10.
Qed.

End ChartFacts.

(** C9: for a report whose five arrays have length 10 and whose epochs are
    1..10, [chartData] has 10 rows, their epochs are 1..10 in order, and
    row [i] carries the four metrics found at index [i]. *)
Theorem C9_chartData_ten_epochs (m : metrics) :
  epochs m = of_Z <$> [1; 2; 3; 4; 5; 6; 7; 8; 9; 10] ->
  length (train_accuracy m) = 10%nat -> length (val_accuracy m) = 10%nat ->
  length (train_loss m) = 10%nat -> length (val_loss m) = 10%nat ->
  length (chartData m) = 10%nat
  /\ epoch <$> chartData m = of_Z <$> [1; 2; 3; 4; 5; 6; 7; 8; 9; 10]
  /\ forall i, (i < 10)%nat ->
       exists ta va tl vl,
         train_accuracy m !! i = Some ta /\ val_accuracy m !! i = Some va
         /\ train_loss m !! i = Some tl /\ val_loss m !! i = Some vl
         /\ chartData m !! i =
            Some {| epoch := of_Z (Z.of_nat i + 1);
                    trainAccuracy := Some ta; valAccuracy := Some va;
                    trainLoss := Some tl; valLoss := Some vl |}.
Proof.
  intros He H1 H2 H3 H4.
  assert (Hlen : length (epochs m) = 10%nat) by now rewrite He.
  split; [now rewrite chartData_length|].
  split; [now rewrite chartData_epochs|].
  intros i Hi.
  destruct (chartData_zip m i) as (e & ta & va & tl & vl & Ee & Hrest).
  { unfold parallel. rewrite Hlen. auto. }
  { lia. }
  exists ta, va, tl, vl.
  assert (e = of_Z (Z.of_nat i + 1)) as ->; [|tauto].
  rewrite He in Ee.
  do 10 (destruct i as [|i]; [injection Ee as <-; reflexivity|]). lia.
Qed.

Lemma C9_witness :
  length (chartData mock_metrics) = 10%nat
  /\ epoch <$> chartData mock_metrics
     = of_Z <$> [1; 2; 3; 4; 5; 6; 7; 8; 9; 10]
  /\ forall i, (i < 10)%nat ->
       exists ta va tl vl,
         train_accuracy mock_metrics !! i = Some ta
         /\ val_accuracy mock_metrics !! i = Some va
         /\ train_loss mock_metrics !! i = Some tl
         /\ val_loss mock_metrics !! i = Some vl
         /\ chartData mock_metrics !! i =
            Some {| epoch := of_Z (Z.of_nat i + 1);
                    trainAccuracy := Some ta; valAccuracy := Some va;
                    trainLoss := Some tl; valLoss := Some vl |}.
Proof. apply (C9_chartData_ten_epochs mock_metrics); reflexivity. Defined.

(** ** Claims on the API client *)

Section ApiFacts.

Import Api.

Variable adapter : Request -> AxiosError + Response.


(** What a caller of the two operations can catch: the error of an
    argument check, with nothing sent, or the error the interceptor built
    from the rejection of the one request sent. *)
Lemma uploadImageAndPredict_failure
    (imageFile : option File) (log log' : list Request) (e : exn) :
  uploadImageAndPredict adapter imageFile log = (Throw e, log') ->
  (exists msg, e = ValidationError msg /\ log' = log)
  \/ (exists req err,
        adapter req = inl err /\ e = on_rejected err /\ log' = log ++ [req]).
Proof.
  unfold uploadImageAndPredict. destruct imageFile as [file|].
  - destruct (negb _); [intros [= <- <-]; left; eauto|].
    destruct (_ <? _)%N; [intros [= <- <-]; left; eauto|].
    unfold mbind, api_bind, apiClient_post, send, mret, api_ret.
    destruct (adapter _) as [err|r] eqn:E; intros [= <- <-].
    right. eauto.
  - intros [= <- <-]. left. eauto.
Qed.

Lemma check_messages_log (l : list jsval) (log : list Request) :
  snd (check_messages l log) = log.
Proof.
  induction l as [|msg l IH]; [reflexivity|]. cbn [check_messages].
  destruct (nullish msg); [reflexivity|].
  destruct (negb _ || negb _); [reflexivity | exact IH].
Qed.

Lemma sendChatMessage_failure
    (messages : jsval) (log log' : list Request) (e : exn) :
  sendChatMessage adapter messages log = (Throw e, log') ->
  ((e = TypeError \/ exists msg, e = ValidationError msg) /\ log' = log)
  \/ (exists req err,
        adapter req = inl err /\ e = on_rejected err /\ log' = log ++ [req]).
Proof.
  assert (Hchk : forall l o lg, check_messages l log = (Throw o, lg) ->
            (o = TypeError \/ exists msg, o = ValidationError msg) /\ lg = log).
  { intros l o lg H. split.
    - revert H. induction l as [|msg l IH]; cbn [check_messages].
      + intros [= ].
      + destruct (nullish msg); [intros [= <- _]; now left|].
        destruct (negb _ || negb _); [intros [= <- _]; right; eauto | exact IH].
    - pose proof (check_messages_log l log) as Hl. now rewrite H in Hl. }
  unfold sendChatMessage.
  destruct messages as [| | | | |[|x l]|]; try (intros [= <- <-]; left; eauto).
  unfold mbind, api_bind.
  destruct (check_messages (x :: l) log) as [[[]|o] lg] eqn:C.
  - pose proof (check_messages_log (x :: l) log) as Hl.
    rewrite C in Hl; cbn in Hl; subst lg.
    unfold apiClient_post, send, mret, api_ret.
    destruct (adapter _) as [err|r] eqn:E; intros [= <- <-].
    right. eauto.
  - intros [= <- <-]. left. now apply (Hchk (x :: l)).
Qed.


Lemma includes_In (l : list string) (s : string) :
  includes l s = true <-> In s l.
Proof.
  unfold includes. rewrite existsb_exists. split.
  - intros (x & Hx & E). apply String.eqb_eq in E. now subst.
  - intros H. exists s. split; [assumption | apply String.eqb_refl].
Qed.

(** C3: a file whose type is not one of the four image types, or larger
    than 10 MiB, is refused with a ValidationError and no request is sent;
    a file that passes both checks causes exactly one request, a POST of
    the multipart form with the file to /api/predict. *)
Theorem C3_upload_validation (file : File) (log : list Request) :
  (~ In (type file) validTypes \/ (10 * 1024 * 1024 < size file)%N ->
     exists msg,
       uploadImageAndPredict adapter (Some file) log
       = (Throw (ValidationError msg), log))
  /\ (In (type file) validTypes -> (size file <= 10 * 1024 * 1024)%N ->
        exists out req,
          uploadImageAndPredict adapter (Some file) log = (out, log ++ [req])
          /\ method req = POST /\ url req = "/api/predict"%string
          /\ payload req = FormData [("image"%string, file)]
          /\ In ("Content-Type", "multipart/form-data")%string (headers req)).
Proof.
  unfold uploadImageAndPredict. split.
  - intros H.
    destruct (includes validTypes (type file)) eqn:Hin; cbn [negb].
    + destruct H as [H|H]; [apply includes_In in Hin; contradiction|].
      apply N.ltb_lt in H. unfold maxSize. rewrite H. unfold throw. eauto.
    + unfold throw. eauto.
  - intros Hin Hsize. apply includes_In in Hin. rewrite Hin. cbn [negb].
    unfold maxSize. rewrite (proj2 (N.ltb_ge _ _) Hsize).
    unfold mbind, api_bind, apiClient_post, send, mret, api_ret.
    destruct (adapter _) as [e|r]; eexists; eexists;
      (split; [reflexivity|]); repeat split; cbn; auto.
Qed.

Lemma check_messages_lacking (l : list jsval) (log : list Request) :
  Forall (fun msg => nullish msg = false) l ->
  Exists lacks_role_or_content l ->
  check_messages l log
  = (Throw (ValidationError "Each message must have a role and content"), log).
Proof.
  intros Hobj Hex. induction Hex as [msg l H | msg l H IH].
  - cbn [check_messages]. apply Forall_inv in Hobj. rewrite Hobj.
    destruct H as [-> | ->]; cbn [negb orb];
      [|rewrite orb_true_r]; reflexivity.
  - cbn [check_messages]. rewrite (Forall_inv Hobj).
    destruct (negb _ || negb _); [reflexivity|].
    apply IH. now apply Forall_inv_tail in Hobj.
Qed.

Lemma check_messages_throws (l : list jsval) (log : list Request) :
  Exists lacks_role_or_content l ->
  exists e,
    check_messages l log = (Throw e, log)
    /\ (e = TypeError /\ Exists (fun msg => nullish msg = true) l
        \/ e = ValidationError "Each message must have a role and content").
Proof.
  intros Hex. induction Hex as [msg l H | msg l H IH].
  - cbn [check_messages]. destruct (nullish msg) eqn:Hn.
    + exists TypeError. split; [reflexivity|]. left. split; [reflexivity|].
      now constructor.
    + eexists. split; [|right; reflexivity].
      destruct H as [-> | ->]; cbn [negb orb];
        [|rewrite orb_true_r]; reflexivity.
  - cbn [check_messages]. destruct (nullish msg) eqn:Hn.
    + exists TypeError. split; [reflexivity|]. left. split; [reflexivity|].
      now constructor.
    + destruct (negb _ || negb _); [eexists; split; [|right]; reflexivity|].
      destruct IH as (e & -> & [[-> Hnull] | ->]).
      * exists TypeError. split; [reflexivity|]. left. split; [reflexivity|].
        now apply Exists_cons_tl.
      * eexists. split; [|right]; reflexivity.
Qed.

Lemma check_messages_first_lacking
    (pre post : list jsval) (x : jsval) (log : list Request) :
  Forall valid_message pre -> nullish x = false -> lacks_role_or_content x ->
  check_messages (pre ++ x :: post) log
  = (Throw (ValidationError "Each message must have a role and content"), log).
Proof.
  intros Hpre Hx Hl. induction Hpre as [|msg l (Hn & Hr & Hc) _ IH].
  - cbn [app check_messages]. rewrite Hx.
    destruct Hl as [-> | ->]; cbn [negb orb];
      [|rewrite orb_true_r]; reflexivity.
  - cbn [app check_messages]. now rewrite Hn, Hr, Hc.
Qed.

(** C7, as the code has it: sendChatMessage sends nothing and fails
    whenever [messages] is not a non-empty array or holds a message without
    a role or a content.  The failure is the validation Error when
    [messages] is not a non-empty array, and when the first element that
    does not pass the check is a message (an element that is not null or
    undefined) without role or content; it is a TypeError only when an
    element is null or undefined. *)
Theorem C7_chat_validation (messages : jsval) (log : list Request) :
  (~ non_empty_array messages ->
     sendChatMessage adapter messages log
     = (Throw (ValidationError "Messages array is required"), log))
  /\ (forall pre x post,
        messages = JArr (pre ++ x :: post) ->
        Forall valid_message pre ->
        nullish x = false -> lacks_role_or_content x ->
        sendChatMessage adapter messages log
        = (Throw (ValidationError "Each message must have a role and content"),
           log))
  /\ (forall l,
        messages = JArr l -> Exists lacks_role_or_content l ->
        exists e,
          sendChatMessage adapter messages log = (Throw e, log)
          /\ (e = TypeError /\ Exists (fun msg => nullish msg = true) l
              \/ e = ValidationError
                       "Each message must have a role and content")).
Proof.
  split; [|split].
  - intros H. unfold sendChatMessage.
    destruct messages as [| | | | |[|x l]|]; try reflexivity.
    exfalso. apply H. now exists x, l.
  - intros pre x post -> Hpre Hx Hl. unfold sendChatMessage.
    pose proof (check_messages_first_lacking pre post x log Hpre Hx Hl) as C.
    destruct (pre ++ x :: post) as [|y l] eqn:E; [now destruct pre|].
    unfold mbind, api_bind. now rewrite C.
  - intros l -> Hex. unfold sendChatMessage.
    destruct (check_messages_throws l log Hex) as (e & C & He).
    destruct l as [|y l]; [inversion Hex|].
    unfold mbind, api_bind. rewrite C. eauto.
Qed.

End ApiFacts.

(** ** The claims at concrete inputs *)

Section ApiExamples.

Import Api.


Lemma C3_witness :
  (exists msg,
     uploadImageAndPredict online (Some text_file) []
     = (Throw (ValidationError msg), []))
  /\ (exists msg,
        uploadImageAndPredict online (Some large_file) []
        = (Throw (ValidationError msg), []))
  /\ (exists out req,
        uploadImageAndPredict online (Some png_file) [] = (out, [] ++ [req])
        /\ method req = POST /\ url req = "/api/predict"%string
        /\ payload req = FormData [("image"%string, png_file)]
        /\ In ("Content-Type", "multipart/form-data")%string (headers req)).
Proof.
  split; [|split].
  - apply (proj1 (C3_upload_validation online text_file [])).
    left. simpl. intuition discriminate.
  - apply (proj1 (C3_upload_validation online large_file [])).
    right. reflexivity.
  - apply (proj2 (C3_upload_validation online png_file [])).
    + simpl. auto.
    + discriminate.
Defined.

(** [chat([])], [chat([{role: "user"}])] and
    [chat([{role: "user", content: "hi"}, {content: "x"}, null])]. *)
Lemma C7_witness :
  sendChatMessage online (JArr []) []
  = (Throw (ValidationError "Messages array is required"), [])
  /\ sendChatMessage online
       (JArr ([] ++ JObj {[ "role"%string := JStr "user" ]} :: [])) []
     = (Throw (ValidationError "Each message must have a role and content"),
        [])
  /\ exists e,
       sendChatMessage online
         (JArr [JObj (<[ "role"%string := JStr "user" ]>
                        {[ "content"%string := JStr "hi" ]});
                JObj {[ "content"%string := JStr "x" ]}; JNull]) []
       = (Throw e, [])
       /\ (e = TypeError
           /\ Exists (fun msg => nullish msg = true)
                [JObj (<[ "role"%string := JStr "user" ]>
                         {[ "content"%string := JStr "hi" ]});
                 JObj {[ "content"%string := JStr "x" ]}; JNull]
           \/ e = ValidationError
                    "Each message must have a role and content").
Proof.
  split; [|split].
  - apply (proj1 (C7_chat_validation online (JArr []) [])).
    intros (x & l & H). discriminate H.
  - apply (proj1 (proj2 (C7_chat_validation online
             (JArr ([] ++ JObj {[ "role"%string := JStr "user" ]} :: [])) []))
             [] (JObj {[ "role"%string := JStr "user" ]}) []).
    + reflexivity.
    + constructor.
    + reflexivity.
    + right. vm_compute. reflexivity.
  - apply (proj2 (proj2 (C7_chat_validation online
             (JArr [JObj (<[ "role"%string := JStr "user" ]>
                            {[ "content"%string := JStr "hi" ]});
                    JObj {[ "content"%string := JStr "x" ]}; JNull]) []))).
    + reflexivity.
    + apply Exists_cons_tl, Exists_cons_hd. left. vm_compute. reflexivity.
Defined.

(** C7 as stated fails: [[null, {role: "user"}]] is a non-empty array that
    holds a message without content, and sendChatMessage ends with the
    TypeError of reading [null.role], not with its validation Error. *)
Lemma C7_counterexample :
  let messages := JArr [JNull; JObj {[ "role"%string := JStr "user" ]}] in
  non_empty_array messages
  /\ Exists lacks_role_or_content
       [JNull; JObj {[ "role"%string := JStr "user" ]}]
  /\ sendChatMessage online messages [] = (Throw TypeError, [])
  /\ ~ exists msg,
        sendChatMessage online messages [] = (Throw (ValidationError msg), []).
Proof.
  split; [eexists _, _; reflexivity|].
  split; [apply Exists_cons_tl, Exists_cons_hd; right; vm_compute; reflexivity|].
  split; [reflexivity|].
  intros (msg & H). discriminate H.
Qed.

End ApiExamples.


(** * Further properties *)

(** ** services/api.js: the operations *)

Section OperationFacts.

Import Api.

Variable adapter : Request -> AxiosError + Response.

Lemma send_delivers (req : Request) (log : list Request) :
  (response ← send adapter req; mret (data response)) log
  = (delivered (adapter req), log ++ [req]).
Proof.
  unfold mbind, api_bind, send, mret, api_ret, delivered.
  now destruct (adapter req).
Qed.

(** summarizeText: a text that is empty or no string is refused and
    nothing is sent; otherwise one POST to /api/gen/summary carries the text
    and the context, the empty string when the context is left out, and
    the caller gets the body of the answer or the interceptor's error. *)
Theorem summarizeText_behaviour (text context : jsval) (log : list Request) :
  (truthy text = false \/ is_string text = false ->
     summarizeText adapter text context log
     = (Throw (ValidationError "Text is required for summarization"), log))
  /\ (forall s, text = JStr s -> s <> EmptyString ->
        let sent := match context with JUndefined => JStr "" | _ => context end in
        let req := post_request "/api/gen/summary"
                     (Json (JObj (<[ "text"%string := JStr s ]>
                                    {[ "context"%string := sent ]}))) [] in
        summarizeText adapter text context log
        = (delivered (adapter req), log ++ [req])).
Proof.
  split.
  - intros H. unfold summarizeText.
    destruct H as [-> | ->]; cbn [negb orb]; rewrite ?orb_true_r; reflexivity.
  - intros s -> Hs sent req. unfold summarizeText.
    destruct s as [|c s]; [contradiction|]. cbn [truthy is_string is_empty negb orb].
    unfold apiClient_post. now rewrite send_delivers.
Qed.

(** getMetrics and checkHealth take no argument and check nothing: each
    call sends exactly one GET without body, and the caller gets the body
    of the answer or the interceptor's error, never another error. *)
Theorem get_operations (log : list Request) :
  getMetrics adapter log
  = (delivered (adapter (get_request "/api/metrics")),
     log ++ [get_request "/api/metrics"])
  /\ checkHealth adapter log
     = (delivered (adapter (get_request "/api/health")),
        log ++ [get_request "/api/health"]).
Proof.
  unfold getMetrics, checkHealth, apiClient_get.
  now rewrite !send_delivers.
Qed.

Lemma check_messages_valid (l : list jsval) (log : list Request) :
  Forall valid_message l -> check_messages l log = (Resolve tt, log).
Proof.
  induction 1 as [|msg l (Hn & Hr & Hc) _ IH]; [reflexivity|].
  cbn [check_messages]. now rewrite Hn, Hr, Hc.
Qed.

Lemma check_messages_resolves (l : list jsval) (log log' : list Request) u :
  check_messages l log = (Resolve u, log') -> Forall valid_message l.
Proof.
  induction l as [|msg l IH]; [constructor|]. cbn [check_messages].
  destruct (nullish msg) eqn:Hn; [discriminate|].
  destruct (truthy (prop msg "role")) eqn:Hr; [|discriminate].
  destruct (truthy (prop msg "content")) eqn:Hc; [|discriminate].
  cbn [negb orb]. intros H. constructor; [now repeat split | now apply IH].
Qed.

Lemma sendChatMessage_valid (x : jsval) (l : list jsval) (log : list Request) :
  Forall valid_message (x :: l) ->
  sendChatMessage adapter (JArr (x :: l)) log
  = (delivered (adapter (post_request "/api/chat"
        (Json (JObj {[ "messages"%string := JArr (x :: l) ]})) [])),
     log ++ [post_request "/api/chat"
               (Json (JObj {[ "messages"%string := JArr (x :: l) ]})) []]).
Proof.
  intros Hv. unfold sendChatMessage.
  unfold mbind at 1. unfold api_bind at 1.
  rewrite (check_messages_valid _ log Hv).
  unfold apiClient_post. now rewrite send_delivers.
Qed.

(** sendChatMessage sends a request exactly when its argument is a
    non-empty array of valid messages; the request is then one POST to
    /api/chat with the array as it was given. *)
Theorem sendChatMessage_sends_iff (messages : jsval) (log : list Request) :
  ((exists x l, messages = JArr (x :: l) /\ Forall valid_message (x :: l)) ->
     let req := post_request "/api/chat"
                  (Json (JObj {[ "messages"%string := messages ]})) [] in
     sendChatMessage adapter messages log
     = (delivered (adapter req), log ++ [req]))
  /\ (snd (sendChatMessage adapter messages log) <> log ->
        exists x l, messages = JArr (x :: l) /\ Forall valid_message (x :: l)).
Proof.
  split.
  - intros (x & l & -> & Hv) req. now apply sendChatMessage_valid.
  - unfold sendChatMessage.
    destruct messages as [| | | | |[|x l]|]; try (intros H; now contradiction H).
    unfold mbind at 1. unfold api_bind at 1.
    destruct (check_messages (x :: l) log) as [[u|e] lg] eqn:C.
    + intros _. exists x, l. split; [reflexivity|].
      eapply check_messages_resolves; eauto.
    + pose proof (check_messages_log (x :: l) log) as Hl.
      rewrite C in Hl. cbn in *. intros H. now contradiction H.
Qed.

(** An element that is null or undefined, met before any message without
    role or content, ends sendChatMessage with a TypeError and nothing is
    sent. *)
Theorem sendChatMessage_null_element
    (pre post : list jsval) (x : jsval) (log : list Request) :
  Forall valid_message pre -> nullish x = true ->
  sendChatMessage adapter (JArr (pre ++ x :: post)) log = (Throw TypeError, log).
Proof.
  intros Hpre Hx.
  assert (Hchk : check_messages (pre ++ x :: post) log = (Throw TypeError, log)).
  { induction Hpre as [|msg l (Hn & Hr & Hc) _ IH].
    - cbn [app check_messages]. now rewrite Hx.
    - cbn [app check_messages]. now rewrite Hn, Hr, Hc. }
  unfold sendChatMessage.
  destruct (pre ++ x :: post) as [|y l] eqn:E.
  - now destruct pre.
  - unfold mbind at 1. unfold api_bind at 1. now rewrite Hchk.
Qed.

(** No operation sends more than one request, and none touches the
    requests sent before: there is no retry. *)
Theorem at_most_one_request (log : list Request) :
  let grows (log' : list Request) :=
    log' = log \/ exists req, log' = log ++ [req] in
  (forall imageFile, grows (snd (uploadImageAndPredict adapter imageFile log)))
  /\ (forall text context, grows (snd (summarizeText adapter text context log)))
  /\ (forall messages, grows (snd (sendChatMessage adapter messages log)))
  /\ grows (snd (getMetrics adapter log))
  /\ grows (snd (checkHealth adapter log)).
Proof.
  intros grows. unfold grows. repeat split.
  - intros imageFile.
    destruct (uploadImageAndPredict adapter imageFile log) as [[a|e] lg] eqn:E.
    + revert E. unfold uploadImageAndPredict. destruct imageFile as [file|];
        [|discriminate].
      destruct (negb _); [discriminate|]. destruct (_ <? _)%N; [discriminate|].
      unfold apiClient_post. rewrite send_delivers. intros [= _ <-]. eauto.
    + apply uploadImageAndPredict_failure in E
        as [(msg & _ & ->) | (req & err & _ & _ & ->)]; eauto.
  - intros text context. unfold summarizeText.
    destruct (negb (truthy text) || negb (is_string text)); [now left|].
    unfold apiClient_post. rewrite send_delivers. eauto.
  - intros messages.
    destruct (sendChatMessage adapter messages log) as [[a|e] lg] eqn:E.
    + revert E. unfold sendChatMessage.
      destruct messages as [| | | | |[|x l]|]; try discriminate.
      unfold mbind at 1. unfold api_bind at 1.
      pose proof (check_messages_log (x :: l) log) as Hl.
      destruct (check_messages (x :: l) log) as [[u|e] lg']; [|discriminate].
      cbn in Hl; subst lg'. unfold apiClient_post. rewrite send_delivers.
      intros [= _ <-]. eauto.
    + apply sendChatMessage_failure in E
        as [(_ & ->) | (req & err & _ & _ & ->)]; eauto.
  - right. rewrite (proj1 (get_operations log)). eauto.
  - right. rewrite (proj2 (get_operations log)). eauto.
Qed.

End OperationFacts.

Section OperationExamples.

Import Api.

Lemma summarizeText_witness :
  (summarizeText (fun _ => inl {| message := "timeout"; response := None |})
     (JStr "") JUndefined []
   = (Throw (ValidationError "Text is required for summarization"), []))
  /\ (let req := post_request "/api/gen/summary"
                   (Json (JObj (<[ "text"%string := JStr "93% Real" ]>
                                  {[ "context"%string := JStr "" ]}))) [] in
      summarizeText (fun _ => inl {| message := "timeout"; response := None |})
        (JStr "93% Real") JUndefined []
      = (delivered (inl {| message := "timeout"; response := None |}),
         [] ++ [req])).
Proof.
  split.
  - apply (proj1 (summarizeText_behaviour (fun _ => inl {| message := "timeout"; response := None |}) (JStr "") JUndefined [])).
    left. reflexivity.
  - apply (proj2 (summarizeText_behaviour (fun _ => inl {| message := "timeout"; response := None |}) (JStr "93% Real") JUndefined [])
             "93% Real"); [reflexivity | discriminate].
Defined.

Lemma sendChatMessage_sends_witness :
  let msgs := JArr [JObj (<[ "role"%string := JStr "user" ]>
                            {[ "content"%string := JStr "hello" ]})] in
  let req := post_request "/api/chat"
               (Json (JObj {[ "messages"%string := msgs ]})) [] in
  sendChatMessage (fun _ => inr {| data := JNull; status := 200 |}) msgs []
  = (delivered (inr {| data := JNull; status := 200 |}), [] ++ [req]).
Proof.
  apply (proj1 (sendChatMessage_sends_iff
                  (fun _ => inr {| data := JNull; status := 200 |}) _ [])).
  eexists _, _. split; [reflexivity|].
  repeat constructor.
Defined.

Lemma sendChatMessage_null_element_witness :
  sendChatMessage (fun _ => inr {| data := JNull; status := 200 |})
    (JArr ([] ++ JNull :: [JObj {[ "role"%string := JStr "user" ]}])) []
  = (Throw TypeError, []).
Proof.
  apply (sendChatMessage_null_element
           (fun _ => inr {| data := JNull; status := 200 |})
           [] [JObj {[ "role"%string := JStr "user" ]}] JNull []).
  - constructor.
  - reflexivity.
Defined.

End OperationExamples.

(** ** services/api.js: the interceptor *)

Section InterceptorFacts.

Import Api.





(** Why arrays are set apart: an empty array is truthy and prints as the
    empty string. *)
Example on_rejected_empty_array :
  on_rejected {| message := "Request failed with status code 400";
                 response := Some {| data := JObj {[ "error"%string := JArr [] ]};
                                     status := 400 |} |}
  = StandardError "" 400
      {| message := "Request failed with status code 400";
         response := Some {| data := JObj {[ "error"%string := JArr [] ]};
                             status := 400 |} |}.
Proof. vm_compute. reflexivity. Qed.

End InterceptorFacts.

(** ** ImageUploadForm.jsx *)

Section FormFacts.

Import Api ImageUploadForm.

Variable adapter : Request -> AxiosError + Response.
Variable createObjectURL : File -> string.

(** The form and the client check a file alike: uploadImageAndPredict
    sends its request exactly for the files validateFile accepts, and
    refuses every other without sending. *)
Theorem validateFile_agrees (file : option File) (log : list Request) :
  (validateFile file = None ->
     exists f, file = Some f
       /\ uploadImageAndPredict adapter file log
          = (delivered (adapter
               (post_request "/api/predict" (FormData [("image"%string, f)])
                  [("Content-Type", "multipart/form-data")%string])),
             log ++ [post_request "/api/predict"
                       (FormData [("image"%string, f)])
                       [("Content-Type", "multipart/form-data")%string]]))
  /\ (validateFile file <> None ->
        exists msg, uploadImageAndPredict adapter file log
                    = (Throw (ValidationError msg), log)).
Proof.
  unfold validateFile, uploadImageAndPredict.
  destruct file as [f|].
  - change ALLOWED_TYPES with validTypes. change MAX_FILE_SIZE with maxSize.
    destruct (negb (includes validTypes (type f)));
      [split; [discriminate | intros _; unfold throw; eauto]|].
    destruct (maxSize <? size f)%N;
      [split; [discriminate | intros _; unfold throw; eauto]|].
    split; [|intros H; now contradiction H].
    intros _. exists f. split; [reflexivity|].
    unfold apiClient_post. now rewrite send_delivers.
  - split; [discriminate | intros _; unfold throw; eauto].
Qed.

Lemma handleFileSelect_invariant (file : File) (st : form_state) :
  form_invariant (handleFileSelect createObjectURL file st).
Proof.
  unfold handleFileSelect, form_invariant.
  destruct (validateFile (Some file)) eqn:V; cbn.
  - repeat split; try discriminate; auto.
  - repeat split; try discriminate.
    all: try (intros [x H]; discriminate).
    now intros f [= <-].
Qed.

Lemma handle_invariant (st : form_state) (e : event) :
  form_invariant st ->
  form_invariant (fst (handle createObjectURL st e))
  /\ (forall f, snd (handle createObjectURL st e) = Some f ->
        validateFile (Some f) = None).
Proof.
  intros (H1 & H2 & H3).
  destruct e as [[file|]| | |[file|]| |]; cbn [handle fst snd];
    try (split; [|discriminate]).
  - apply handleFileSelect_invariant.
  - exact (conj H1 (conj H2 H3)).
  - exact (conj H1 (conj H2 H3)).
  - exact (conj H1 (conj H2 H3)).
  - apply handleFileSelect_invariant.
  - exact (conj H1 (conj H2 H3)).
  - destruct (selectedFile st) as [f|] eqn:S; cbn [fst snd].
    + split; [|intros f' [= <-]; now apply H1].
      unfold form_invariant. rewrite S. exact (conj H1 (conj H2 H3)).
    + split; [|discriminate]. unfold form_invariant; cbn.
      repeat split; try discriminate; try tauto.
  - unfold form_invariant; cbn. repeat split; try discriminate.
    all: try (intros [x H]; discriminate).
Qed.

(** Whatever the user does, starting from the empty form: every file the
    form hands to onSubmit has passed validateFile, a file is selected
    exactly when there is a preview, and no file is selected while an
    error is shown. *)
Theorem form_submits_valid_files (events : list event) :
  let (st, submitted) := run createObjectURL initial events in
  form_invariant st
  /\ Forall (fun f => validateFile (Some f) = None) submitted.
Proof.
  assert (Hgen : forall st, form_invariant st ->
            form_invariant (fst (run createObjectURL st events))
            /\ Forall (fun f => validateFile (Some f) = None)
                 (snd (run createObjectURL st events))).
  { induction events as [|e rest IH]; intros st Hst; [now split|].
    cbn [run]. destruct (handle_invariant st e Hst) as [Hnext Hsub].
    destruct (handle createObjectURL st e) as [st' sub]. cbn [fst snd] in *.
    destruct (IH st' Hnext) as [Hinv Hall].
    destruct (run createObjectURL st' rest) as [st'' more]. cbn [fst snd] in *.
    split; [assumption|]. destruct sub as [f|]; [|assumption].
    constructor; [now apply Hsub | assumption]. }
  destruct (Hgen initial) as [H1 H2].
  { unfold form_invariant, initial; cbn. repeat split; try discriminate.
    all: try (intros [x H]; discriminate). }
  now destruct (run createObjectURL initial events).
Qed.

(** While the submit button is enabled, a submit hands the selected file
    to onSubmit and leaves the form as it is. *)
Theorem submit_enabled (isLoading : bool) (st : form_state) :
  submit_disabled isLoading st = false ->
  exists f, selectedFile st = Some f /\ error st = None
            /\ handle createObjectURL st Submit = (st, Some f).
Proof.
  unfold submit_disabled. intros H.
  apply orb_false_iff in H as [H He]. apply orb_false_iff in H as [Hs _].
  destruct (selectedFile st) as [f|] eqn:S.
  - exists f. repeat split.
    + destruct (error st) as [e|]; [|reflexivity].
      exfalso. apply bool_decide_eq_false in He. apply He. eauto.
    + cbn [handle]. now rewrite S.
  - exfalso. apply negb_false_iff, bool_decide_eq_true in Hs.
    destruct Hs as [x Hx]. discriminate.
Qed.

End FormFacts.

(** ** ConfusionMatrix.jsx: further properties *)

Section MatrixFacts.

Variable big : Q -> string.

Lemma inject_N_pos (n : N) : (0 < n)%N -> (0 < inject_Z (Z.of_N n))%Q.
Proof. intros H. change 0%Q with (inject_Z 0). rewrite <- Zlt_Qlt. lia. Qed.

Lemma ratio100_zero (d : N) : (0 < d)%N -> (ratio100 0 d == 0)%Q.
Proof.
  intros H. unfold ratio100. pose proof (inject_N_pos d H).
  change (inject_Z (Z.of_N 0)) with 0%Q. field. lra.
Qed.

(** Without true positives F1 is "N/A", for every tn, fp and fn. *)
Theorem no_true_positives (tn fp fn : N) :
  f1Score (ConfusionMatrix big ((tn, fp), (fn, 0))%N) = "N/A"%string.
Proof.
  destruct (N.eq_dec fp 0%N) as [->|Hfp].
  - unfold ConfusionMatrix. cbn [f1Score].
    change (parseFloat (toFixed big 1 (of_N 0 / (of_N 0 + of_N 0) * of_Z 100)))
      with NaN.
    reflexivity.
  - destruct (N.eq_dec fn 0%N) as [->|Hfn].
    + unfold ConfusionMatrix. cbn [f1Score].
      change (parseFloat (toFixed big 1 (of_N 0 / (of_N 0 + of_N 0) * of_Z 100)))
        with NaN.
      now rewrite add_NaN_r.
    + rewrite ConfusionMatrix_shown by lia. cbn [f1Score].
      rewrite (tenths_proper _ 0 (ratio100_zero (0 + fp) ltac:(lia))).
      rewrite (tenths_proper _ 0 (ratio100_zero (0 + fn) ltac:(lia))).
      reflexivity.
Qed.

End MatrixFacts.

(** ** ConfusionMatrix.jsx on doubles: further properties *)

Section MatrixDoubles.

Variable big : Q -> string.

#[local] Open Scope float_scope.

(** Two doubles with the same positive value are the same double. *)
Lemma nonneg_unique (x y : float) (v : Q) :
  nonneg x v -> nonneg y v -> (0 < v)%Q -> x = y.
Proof.
  unfold nonneg. intros Hx Hy Hv. apply Prim2SF_inj.
  pose proof (SFcompare_nonneg _ _ v v (Prim2SF_valid x) (Prim2SF_valid y)
                Hx Hy) as C.
  rewrite (proj1 (Qeq_alt v v) (Qeq_refl v)) in C.
  destruct (Prim2SF x) as [sx|sx| |[] mx ex]; try contradiction;
    destruct (Prim2SF y) as [sy|sy| |[] my ey]; try contradiction;
    cbn [SFnonneg] in Hx, Hy; try (exfalso; lra).
  cbn [SFcompare] in C.
  destruct (Z.compare_spec ex ey) as [E|L|L]; try discriminate.
  injection C as C. apply (Pos.compare_eq_iff mx my) in C. now subst.
Qed.

(** [x / y * 100] for two doubles holding the same positive count *)
Lemma percent_whole (x y : float) (a : N) :
  nonneg x (inject_Z (Z.of_N a)) -> nonneg y (inject_Z (Z.of_N a)) ->
  (0 < a)%N -> nonneg (percent64 x y) 100.
Proof.
  intros Hx Hy Ha.
  assert (Hpos : (0 < inject_Z (Z.of_N a))%Q) by (rewrite <- (Zlt_Qlt 0); lia).
  pose proof (div_rounded x y _ _ Hx Hy Hpos) as H.
  assert (H1 : nonneg (x / y) 1).
  { apply (nonneg_proper _ (inject_Z (Z.of_N a) / inject_Z (Z.of_N a))).
    - field. lra.
    - apply (rounded_on_grid _ _ 1 0 H); [split; lia | lia |].
      rewrite scaled_0. change (inject_Z 1) with 1%Q. field. lra. }
  pose proof (mul_rounded _ _ _ _ H1 (of_Z_exact 100 ltac:(lia))) as H2.
  apply (nonneg_proper _ (1 * inject_Z 100)); [reflexivity|].
  apply (rounded_on_grid _ _ 100 0 H2); [split; lia | lia |].
  rewrite scaled_0. ring.
Qed.

(** A matrix without errors (fp = fn = 0, tp > 0) whose counts are held
    exactly shows 100.0 four times. *)
Theorem perfect_classifier (tn tp : N) :
  (tn + tp < 2 ^ 53)%N -> (0 < tp)%N ->
  F64.ConfusionMatrix big ((tn, 0), (0, tp))%N
  = Some {| accuracy := "100.0"; precision := "100.0";
            recall := "100.0"; f1Score := "100.0" |}.
Proof.
  intros HT Hp. unfold F64.ConfusionMatrix.
  assert (Htn : nonneg (F64.of_N tn) (inject_Z (Z.of_N tn)))
    by (apply of_N_exact; lia).
  assert (Htp : nonneg (F64.of_N tp) (inject_Z (Z.of_N tp)))
    by (apply of_N_exact; lia).
  assert (H0 : nonneg (F64.of_N 0) (inject_Z (Z.of_N 0)))
    by (apply of_N_exact; lia).
  destruct (deriveConfusionStats_counts big _ _ _ _ tn 0 0 tp Htn H0 H0 Htp)
    as (a & p & r & pd & rd & Ha & Hp' & Hr' & _ & _ & _ & Epd & Erd & ->);
    try lia.
  pose proof (add_exact _ _ _ _ Htn Htp ltac:(lia)) as Hnum.
  pose proof (add_exact _ _ _ _ Htn H0 ltac:(lia)) as H1.
  pose proof (add_exact _ _ _ _ H1 H0 ltac:(lia)) as H2.
  pose proof (add_exact _ _ _ _ H2 Htp ltac:(lia)) as Htot.
  pose proof (add_exact _ _ _ _ Htp H0 ltac:(lia)) as Hpp.
  replace (tn + 0 + 0 + tp)%N with (tn + tp)%N in Htot by lia.
  replace (tp + 0)%N with tp in Hpp by lia.
  pose proof (percent_whole _ _ _ Hnum Htot ltac:(lia)) as Ea.
  pose proof (percent_whole _ _ _ Htp Hpp Hp) as Ep.
  assert (Ta : tenths a = 1000%N)
    by (rewrite (tenths_proper a 100); [reflexivity | eapply SFnonneg_unique; eassumption]).
  assert (Tp : tenths p = 1000%N)
    by (rewrite (tenths_proper p 100); [reflexivity | eapply SFnonneg_unique; eassumption]).
  assert (Tr : tenths r = 1000%N)
    by (rewrite (tenths_proper r 100); [reflexivity | eapply SFnonneg_unique; eassumption]).
  rewrite Tp in Epd. rewrite Tr in Erd. rewrite Ta, Tp, Tr.
  vm_compute in Epd, Erd. injection Epd as <-. injection Erd as <-.
  reflexivity.
Qed.

(** Exchanging false positives and false negatives exchanges precision
    and recall and changes neither accuracy nor F1 (counts held exactly). *)
Theorem swap_errors (tn fp fn tp : N) :
  (tn + fp + fn + tp < 2 ^ 53)%N -> (0 < tp + fp)%N -> (0 < tp + fn)%N ->
  exists st st',
    F64.ConfusionMatrix big ((tn, fp), (fn, tp)) = Some st
    /\ F64.ConfusionMatrix big ((tn, fn), (fp, tp)) = Some st'
    /\ accuracy st' = accuracy st /\ precision st' = recall st
    /\ recall st' = precision st /\ f1Score st' = f1Score st.
Proof.
  intros HT Hp Hr. unfold F64.ConfusionMatrix.
  assert (Htn : nonneg (F64.of_N tn) (inject_Z (Z.of_N tn)))
    by (apply of_N_exact; lia).
  assert (Hfp : nonneg (F64.of_N fp) (inject_Z (Z.of_N fp)))
    by (apply of_N_exact; lia).
  assert (Hfn : nonneg (F64.of_N fn) (inject_Z (Z.of_N fn)))
    by (apply of_N_exact; lia).
  assert (Htp : nonneg (F64.of_N tp) (inject_Z (Z.of_N tp)))
    by (apply of_N_exact; lia).
  destruct (deriveConfusionStats_counts big _ _ _ _ tn fp fn tp
              Htn Hfp Hfn Htp HT Hp Hr)
    as (a & p & r & pd & rd & Ha & Hp1 & Hr1 & _ & Tp & Tr & Epd & Erd & ->).
  destruct (deriveConfusionStats_counts big _ _ _ _ tn fn fp tp
              Htn Hfn Hfp Htp ltac:(lia) Hr Hp)
    as (a' & p' & r' & pd' & rd' & Ha' & Hp2 & Hr2 & _ & _ & _
        & Epd' & Erd' & ->).
  (* the two totals are the same double *)
  pose proof (add_exact _ _ _ _ Htn Hfp ltac:(lia)) as H1.
  pose proof (add_exact _ _ _ _ H1 Hfn ltac:(lia)) as H2.
  pose proof (add_exact _ _ _ _ H2 Htp ltac:(lia)) as Htot.
  pose proof (add_exact _ _ _ _ Htn Hfn ltac:(lia)) as H1'.
  pose proof (add_exact _ _ _ _ H1' Hfp ltac:(lia)) as H2'.
  pose proof (add_exact _ _ _ _ H2' Htp ltac:(lia)) as Htot'.
  replace (tn + fn + fp + tp)%N with (tn + fp + fn + tp)%N in Htot' by lia.
  assert (Etot : (F64.of_N tn + F64.of_N fn + F64.of_N fp + F64.of_N tp
                  = F64.of_N tn + F64.of_N fp + F64.of_N fn + F64.of_N tp)).
  { eapply nonneg_unique; [exact Htot' | exact Htot |].
    rewrite <- (Zlt_Qlt 0). lia. }
  rewrite Etot in Ha'.
  assert (Ta : tenths a' = tenths a)
    by (apply tenths_proper; eapply SFnonneg_unique; eassumption).
  assert (Tp' : tenths p' = tenths r)
    by (apply tenths_proper; eapply SFnonneg_unique; eassumption).
  assert (Tr' : tenths r' = tenths p)
    by (apply tenths_proper; eapply SFnonneg_unique; eassumption).
  rewrite Tp' in Epd'. rewrite Tr' in Erd'.
  rewrite Erd in Epd'. rewrite Epd in Erd'.
  injection Epd' as <-. injection Erd' as <-.
  eexists _, _. split; [reflexivity|]. split; [reflexivity|].
  cbn [accuracy precision recall f1Score]. rewrite Ta, Tp', Tr'.
  repeat split.
  destruct (f1_from_shown big _ _ Tp Tr)
    as (pd0 & rd0 & E1 & E2 & Hsum & Hf1 & _).
  rewrite Epd in E1. rewrite Erd in E2.
  injection E1 as <-. injection E2 as <-.
  now rewrite Hsum, Hf1.
Qed.

(** A shown precision or recall can be read back, also when it is NaN. *)
Lemma ratio_parsed (tp c : N) :
  (tp + c < 2 ^ 53)%N ->
  exists d,
    F64.parseFloat
      (F64.toFixed big 1
         (percent64 (F64.of_N tp) (F64.of_N tp + F64.of_N c))) = Some d.
Proof.
  intros H. destruct (N.eq_dec (tp + c)%N 0%N) as [E|E].
  - assert (tp = 0%N) as -> by lia. assert (c = 0%N) as -> by lia.
    exists nan. reflexivity.
  - assert (Htp : nonneg (F64.of_N tp) (inject_Z (Z.of_N tp)))
      by (apply of_N_exact; lia).
    assert (Hc : nonneg (F64.of_N c) (inject_Z (Z.of_N c)))
      by (apply of_N_exact; lia).
    pose proof (add_exact _ _ _ _ Htp Hc H) as Hsum.
    destruct (percent_double _ _ _ _ Htp Hsum ltac:(lia) ltac:(lia))
      as (w & Hw & Hw100).
    destruct (toFixed_percent big _ _ Hw Hw100) as [S T].
    unfold percent64. rewrite S, parseFloat_show1.
    destruct (f1_from_shown big _ _ T T) as (d & _ & -> & _). eauto.
Qed.

(** The accuracy needs a non-empty matrix only: with 0 < total < 2^53 it is
    shown as a number in [0,100], also when precision or recall is NaN. *)
Theorem accuracy_in_range (tn fp fn tp : N) :
  (0 < tn + fp + fn + tp)%N -> (tn + fp + fn + tp < 2 ^ 53)%N ->
  exists st,
    F64.ConfusionMatrix big ((tn, fp), (fn, tp)) = Some st
    /\ in_range (accuracy st).
Proof.
  intros H0 HT.
  assert (Htn : nonneg (F64.of_N tn) (inject_Z (Z.of_N tn)))
    by (apply of_N_exact; lia).
  assert (Hfp : nonneg (F64.of_N fp) (inject_Z (Z.of_N fp)))
    by (apply of_N_exact; lia).
  assert (Hfn : nonneg (F64.of_N fn) (inject_Z (Z.of_N fn)))
    by (apply of_N_exact; lia).
  assert (Htp : nonneg (F64.of_N tp) (inject_Z (Z.of_N tp)))
    by (apply of_N_exact; lia).
  pose proof (add_exact _ _ _ _ Htn Htp ltac:(lia)) as Hnum.
  pose proof (add_exact _ _ _ _ Htn Hfp ltac:(lia)) as H1.
  pose proof (add_exact _ _ _ _ H1 Hfn ltac:(lia)) as H2.
  pose proof (add_exact _ _ _ _ H2 Htp ltac:(lia)) as Htot.
  destruct (percent_double _ _ _ _ Hnum Htot ltac:(lia) ltac:(lia))
    as (a & Ha & Ha100).
  destruct (toFixed_percent big _ _ Ha Ha100) as [Sa Ta].
  destruct (ratio_parsed tp fp ltac:(lia)) as (pd & Epd).
  destruct (ratio_parsed tp fn ltac:(lia)) as (rd & Erd).
  unfold F64.ConfusionMatrix, F64.deriveConfusionStats, percent64 in *.
  rewrite Epd, Erd, Sa. eexists. split; [reflexivity|].
  cbn [accuracy]. now apply in_range_show1.
Qed.

End MatrixDoubles.

(** ** PredictionResult.jsx: further properties *)

Section ConfidenceFacts.

Variable big : Q -> string.

Lemma gt_Fin_false (p q : Q) : Num.gt (Fin p) (Fin q) = false <-> (p <= q)%Q.
Proof.
  unfold Num.gt. destruct (Qlt_le_dec q p) as [H|H]; split; auto.
  - discriminate.
  - intros H'. exfalso. apply (Qlt_irrefl q). eapply Qlt_le_trans; eauto.
Qed.

Lemma ge_Fin (p q : Q) : Num.ge (Fin p) (Fin q) = true <-> (q <= p)%Q.
Proof.
  unfold Num.ge. destruct (Qlt_le_dec p q) as [H|H]; split; auto.
  - discriminate.
  - intros H'. exfalso. apply (Qlt_irrefl p). eapply Qlt_le_trans; eauto.
Qed.

Lemma ge_Fin_false (p q : Q) : Num.ge (Fin p) (Fin q) = false <-> (p < q)%Q.
Proof.
  unfold Num.ge. destruct (Qlt_le_dec p q) as [H|H]; split; auto.
  - discriminate.
  - intros H'. exfalso. apply (Qlt_irrefl p). eapply Qlt_le_trans; eauto.
Qed.

(** The label under the bar and the sentence of the interpretation guide
    use different thresholds (65 and 70): every percentage gets exactly one
    sentence, and from 65 up to 70 the label says "Moderate confidence"
    while the sentence is the one for low confidence. *)
Theorem label_and_note (p : Q) :
  let label := confidenceLabel (getConfidenceLevel (Fin p)) in
  let note := interpretation (Fin p) in
  ((p < 65)%Q -> label = "Low confidence"%string /\ note = [note_low])
  /\ ((65 <= p)%Q -> (p < 70)%Q ->
        label = "Moderate confidence"%string /\ note = [note_low])
  /\ ((70 <= p)%Q -> (p < 85)%Q ->
        label = "Moderate confidence"%string /\ note = [note_medium])
  /\ ((85 <= p)%Q -> label = "High confidence"%string /\ note = [note_high]).
Proof.
  intros label note. subst label note.
  unfold getConfidenceLevel, interpretation, js_lt, of_Z.
  change (inject_Z 65) with 65%Q. change (inject_Z 70) with 70%Q.
  change (inject_Z 85) with 85%Q.
  repeat split; intros.
  all: repeat
    match goal with
    | |- context [Num.ge (Fin ?a) (Fin ?b)] =>
        first [ rewrite (proj2 (ge_Fin a b)) by lra
              | rewrite (proj2 (ge_Fin_false a b)) by lra ]
    | |- context [Num.gt (Fin ?a) (Fin ?b)] =>
        first [ rewrite (proj2 (gt_Fin a b)) by lra
              | rewrite (proj2 (gt_Fin_false a b)) by lra ]
    end.
  all: reflexivity.
Qed.

End ConfidenceFacts.

(** ** MetricsCharts.jsx and MetricsView.jsx: further properties *)

Section SummaryFacts.

Import Api.

Variable big : Q -> string.

(** chartData neither fails nor drops a row when the arrays differ in
    length: there is a row for every epoch, in order, and a metric is
    undefined in row [i] exactly when its array has no index [i]. *)
Theorem chartData_any_lengths (m : metrics) :
  length (chartData m) = length (epochs m)
  /\ epoch <$> chartData m = epochs m
  /\ forall i row, chartData m !! i = Some row ->
       trainAccuracy row = train_accuracy m !! i
       /\ valAccuracy row = val_accuracy m !! i
       /\ trainLoss row = train_loss m !! i
       /\ valLoss row = val_loss m !! i
       /\ (trainAccuracy row = None <-> (length (train_accuracy m) <= i)%nat)
       /\ (valAccuracy row = None <-> (length (val_accuracy m) <= i)%nat)
       /\ (trainLoss row = None <-> (length (train_loss m) <= i)%nat)
       /\ (valLoss row = None <-> (length (val_loss m) <= i)%nat).
Proof.
  split; [apply chartData_length|]. split; [apply chartData_epochs|].
  intros i row H. rewrite chartData_lookup in H.
  destruct (epochs m !! i) as [e|]; [|discriminate].
  injection H as <-. cbn. repeat split; try apply lookup_ge_None.
Qed.

Lemma at_index_last {A} (l : list A) (n : nat) :
  at_index l (Z.of_nat n - 1) =
  match n with O => None | S k => l !! k end.
Proof.
  unfold at_index. destruct n as [|k].
  - reflexivity.
  - destruct (Z.ltb_spec (Z.of_nat (S k) - 1) 0) as [H|H]; [lia|].
    f_equal. lia.
Qed.


(** getSummaryStats raises a TypeError exactly when the report has no
    epoch or one of the two loss arrays is shorter than epochs; a short
    accuracy array gives "NaN" and no error. *)
Theorem getSummaryStats_throws_iff (m : metrics) :
  getSummaryStats big (Some m) = Throw TypeError
  <-> (epochs m = []
       \/ (length (train_loss m) < length (epochs m))%nat
       \/ (length (val_loss m) < length (epochs m))%nat).
Proof.
  unfold getSummaryStats. rewrite !at_index_last.
  destruct (epochs m) as [|e es] eqn:E; cbn [length].
  - split; [now left | reflexivity].
  - destruct (train_loss m !! length es) as [tl|] eqn:Htl.
    + destruct (val_loss m !! length es) as [vl|] eqn:Hvl.
      * apply lookup_lt_Some in Htl, Hvl.
        split; [discriminate|]. intros [H|[H|H]]; [discriminate | lia | lia].
      * apply lookup_ge_None in Hvl. split; [|reflexivity].
        intros _. right. right. lia.
    + apply lookup_ge_None in Htl. split; [|reflexivity].
      intros _. right. left. lia.
Qed.

End SummaryFacts.

(** ** The mock functions *)

Section MockFacts.

Import Api Mocks.

Variable big : Q -> string.

Lemma prefix_app (needle rest : string) :
  String.prefix needle (needle ++ rest) = true.
Proof.
  induction needle as [|c n IH]; [rewrite append_nil; now destruct rest|].
  rewrite append_cons. cbn [String.prefix].
  destruct (ascii_dec c c); [exact IH | contradiction].
Qed.

Lemma str_includes_app (pre needle post : string) :
  str_includes (pre ++ needle ++ post) needle = true.
Proof.
  induction pre as [|c pre IH].
  - rewrite append_nil. destruct (needle ++ post)%string eqn:E;
      cbn [str_includes]; rewrite <- E, prefix_app; reflexivity.
  - rewrite append_cons. cbn [str_includes]. rewrite IH. apply orb_true_r.
Qed.

Lemma toLowerCase_app (s t : string) :
  toLowerCase (s ++ t) = (toLowerCase s ++ toLowerCase t)%string.
Proof.
  induction s as [|c s IH]; [reflexivity|].
  rewrite append_cons. cbn [toLowerCase]. now rewrite IH, append_cons.
Qed.

Lemma mock_last (history : list jsval) (msg : jsval) :
  mockSendChatMessage (history ++ [msg]) = mockSendChatMessage [msg].
Proof. unfold mockSendChatMessage. now rewrite last_snoc. Qed.

(** mockSendChatMessage looks at the last message only: the messages
    before it, valid or not, change nothing, and the call fails, with a
    TypeError, exactly when the last message is null or undefined or its
    content is no string. *)
Theorem mock_chat_last_only (history : list jsval) (msg : jsval) :
  mockSendChatMessage (history ++ [msg]) = mockSendChatMessage [msg]
  /\ (mockSendChatMessage (history ++ [msg]) = Throw TypeError
      <-> nullish msg = true \/ is_string (prop msg "content") = false).
Proof.
  split; [apply mock_last|]. rewrite mock_last.
  unfold mockSendChatMessage.
  change (default JUndefined (last [msg])) with msg.
  destruct (nullish msg); [split; auto|].
  destruct (prop msg "content"); cbn [is_string];
    split; auto; intros H; try discriminate H;
    destruct H as [H|H]; discriminate H.
Qed.

(** A last message whose content contains "fake" or "ai", in any mix of
    upper and lower case and anywhere in the text, also inside a word, gets
    the reply on AI-generated faces, whatever else the text mentions. *)
Theorem mock_chat_ai_first
    (history : list jsval) (msg : jsval) (pre kw post : string) :
  nullish msg = false ->
  prop msg "content" = JStr (pre ++ kw ++ post) ->
  toLowerCase kw = "fake"%string \/ toLowerCase kw = "ai"%string ->
  mockSendChatMessage (history ++ [msg]) = Resolve (reply_object reply_fake).
Proof.
  intros Hn Hc Hkw. rewrite mock_last.
  unfold mockSendChatMessage.
  change (default JUndefined (last [msg])) with msg. rewrite Hn, Hc.
  do 2 f_equal. unfold mock_reply. rewrite !toLowerCase_app.
  destruct Hkw as [-> | ->]; rewrite str_includes_app;
    rewrite ?orb_true_r; reflexivity.
Qed.

(** The confidences read back from 75 to 95 hundredths pass the check. *)
Lemma hundredths_checked : forallb hundredths_ok hundredths_75_95 = true.
Proof. vm_compute. reflexivity. Qed.

Lemma nearest_proper (p q : Q) : (p == q)%Q -> F64.nearest p = F64.nearest q.
Proof. intros H. unfold F64.nearest. now rewrite (Qred_complete _ _ H). Qed.

(** The confidence of the mock prediction is the double read back from a
    number of hundredths between 75 and 95, so the result view reads it as
    a fraction, shows a percentage from 75 to 95 and never the low level;
    the prediction is read as real exactly when the first random value is
    above 0.5. *)
Theorem mock_prediction_range
    (imageFile : option Api.File) (r1 r2 : float) (v : Q) :
  F64.value r2 = Fin v -> (0 <= v)%Q -> (v < 1)%Q ->
  exists result n c pct,
    Mocks.mockUploadImageAndPredict big imageFile r1 r2 = Some result
    /\ (75 <= n <= 95)%N
    /\ F64.nearest (inject_Z (Z.of_N n) / 100) = Some (Mocks.confidence result)
    /\ F64.value (Mocks.confidence result) = Fin c
    /\ (3 # 4 <= c <= 19 # 20)%Q
    /\ F64.value (F64.confidencePercent (Mocks.confidence result)) = Fin pct
    /\ (75 <= pct <= 95)%Q
    /\ F64.confidenceLevel (Mocks.confidence result) <> low
    /\ isReal (Mocks.prediction result) = Api.Resolve (0.5 <? r1)%float.
Proof.
  intros Ev Hv0 Hv1.
  assert (Hr2 : nonneg r2 v) by now apply nonneg_value.
  assert (H02 : nonneg Mocks.two_tenths (scaled 7205759403792794 (-55)))
    by reflexivity.
  assert (H75 : nonneg 0.75%float (scaled 3 (-2))).
  { apply nonneg_value; [reflexivity | discriminate]. }
  assert (P02 : (0 < scaled 7205759403792794 (-55))%Q) by reflexivity.
  (* random2 * 0.2 *)
  destruct (rounded_le _ _ 7205759403792794 (-55)
              (mul_rounded _ _ _ _ Hr2 H02)) as (w & Hw & Hw1).
  { split; [split|]; lia. }
  { lia. }
  { revert P02. generalize (scaled 7205759403792794 (-55)). intros K HK. nra. }
  pose proof (nonneg_ge0 _ _ Hw) as Hw0.
  (* 0.75 + ... *)
  destruct (rounded_between _ _ 3 (-2) 8556839292003943 (-53)
              (add_rounded _ _ _ _ H75 Hw)) as (c & Hc & Hc0 & Hc1).
  { split; [split|]; lia. }
  { split; [split|]; lia. }
  { lia. }
  { lra. }
  { eapply Qle_trans; [apply Qplus_le_r; exact Hw1|].
    apply Qle_bool_imp_le. vm_compute. reflexivity. }
  assert (E34 : (scaled 3 (-2) == 3 # 4)%Q) by reflexivity.
  rewrite E34 in Hc0.
  assert (Hc2 : (c < pow10 21)%Q).
  { eapply Qle_lt_trans; [exact Hc1|]. vm_compute. reflexivity. }
  destruct (value_nonneg _ _ Hc) as (qc & Eqc & Hqc).
  set (n := nearest_scaled 2 qc).
  assert (Hn : (75 <= n <= 95)%N).
  { subst n. split.
    - change 75%N with (nearest_scaled 2 (3 # 4)).
      apply nearest_scaled_mono; [discriminate | lra].
    - change 95%N with (nearest_scaled 2 (scaled 8556839292003943 (-53))).
      apply nearest_scaled_mono; lra. }
  assert (Hin : In n hundredths_75_95).
  { unfold hundredths_75_95. apply in_map_iff. exists (N.to_nat (n - 75)).
    split; [lia | apply in_seq; lia]. }
  pose proof hundredths_checked as Hall. rewrite forallb_forall in Hall.
  specialize (Hall n Hin). unfold hundredths_ok in Hall.
  destruct (F64.nearest (inject_Z (Z.of_N n) / pow10 2)) as [d|] eqn:Ed;
    [|discriminate].
  destruct (F64.value d) as [| |q] eqn:Eq; try discriminate.
  destruct (F64.value (F64.confidencePercent d)) as [| |pct] eqn:Epct;
    try discriminate.
  rewrite !andb_true_iff, !Qle_bool_iff in Hall.
  destruct Hall as ((((Q1 & Q2) & Q3) & Q4) & Hlevel).
  assert (Eparse : F64.parseFloat
                     (F64.toFixed big 2 (0.75 + r2 * Mocks.two_tenths))
                   = Some d).
  { unfold F64.toFixed. rewrite Eqc, toFixed_small by lra. fold n.
    unfold F64.parseFloat.
    destruct (same_Fin _ _ (parseFloat_fixed 2 n)) as (x & -> & Hx).
    cbn [F64.of_jsnum]. now rewrite (nearest_proper _ _ Hx). }
  unfold Mocks.mockUploadImageAndPredict. rewrite Eparse.
  cbn [mbind option_bind]. eexists _, n, q, pct. split; [reflexivity|].
  cbn [Mocks.prediction Mocks.confidence].
  repeat (split; try assumption).
  - intros Hlow. rewrite Hlow in Hlevel. discriminate.
  - now destruct (0.5 <? r1)%float.
Qed.

End MockFacts.

(** ** GenAIView.jsx *)

Section ChatFacts.

Import Api Mocks GenAIView.

Variable adapter : Request -> AxiosError + Response.
Variable type_error_message : string.

Lemma prop_chat_message (role content : jsval) :
  prop (chat_message role content) "role" = role
  /\ prop (chat_message role content) "content" = content.
Proof.
  unfold chat_message, prop. split.
  - now rewrite lookup_insert_eq.
  - rewrite lookup_insert_ne by discriminate. now rewrite lookup_singleton_eq.
Qed.

Lemma prop_reply_object (reply : string) :
  prop (reply_object reply) "reply" = JStr reply.
Proof. unfold reply_object, prop. now rewrite lookup_singleton_eq. Qed.

Lemma valid_chat_message (role content : jsval) :
  truthy role = true -> truthy content = true ->
  valid_message (chat_message role content).
Proof.
  intros Hr Hc. destruct (prop_chat_message role content) as [E1 E2].
  unfold valid_message. rewrite E1, E2. now repeat split.
Qed.

Lemma mock_reply_nonempty (userQuery : string) :
  mock_reply userQuery <> EmptyString.
Proof.
  unfold mock_reply.
  destruct (_ || _); [discriminate|]. destruct (str_includes _ "real");
    [discriminate|]. destruct (_ || _); discriminate.
Qed.

Lemma message_or_nonempty (e : exn) (fallback : string) :
  fallback <> EmptyString ->
  message_or type_error_message e fallback <> EmptyString.
Proof.
  intros H. unfold message_or.
  destruct (error_message type_error_message e) eqn:E; cbn [is_empty];
    [exact H | discriminate].
Qed.

Lemma mock_reply_canned (userQuery : string) :
  In (mock_reply userQuery) [reply_fake; reply_real; reply_metrics; reply_help].
Proof.
  unfold mock_reply. cbn [In].
  destruct (_ || _); [auto|]. destruct (str_includes _ "real"); [auto|].
  destruct (_ || _); auto.
Qed.

(** As the view is configured (USE_MOCKS is true), sending a message
    never fails and never reaches the network: the conversation grows by
    the user's message and one of the four canned replies, which is a
    valid message, and no error is shown; this holds whatever the
    conversation held before. *)
Theorem chat_with_mocks
    (userMessage : string) (st : chat_state) (log : list Request) :
  exists reply,
    In reply [reply_fake; reply_real; reply_metrics; reply_help]
    /\ handleSendMessage adapter type_error_message userMessage st log
       = ({| messages :=
               messages st ++ [chat_message (JStr "user") (JStr userMessage);
                               chat_message (JStr "assistant") (JStr reply)];
             isChatLoading := false; chatError := None |}, log)
    /\ valid_message (chat_message (JStr "assistant") (JStr reply)).
Proof.
  exists (mock_reply (toLowerCase userMessage)).
  split; [apply mock_reply_canned|]. split.
  - unfold handleSendMessage, handleSendMessage_with, USE_MOCKS, apiFunction.
    rewrite mock_last. unfold mockSendChatMessage.
    change (default JUndefined
              (last [chat_message (JStr "user") (JStr userMessage)]))
      with (chat_message (JStr "user") (JStr userMessage)).
    rewrite (proj2 (prop_chat_message _ _)).
    change (nullish (chat_message (JStr "user") (JStr userMessage)))
      with false.
    cbv iota.
    change (nullish (reply_object (mock_reply (toLowerCase userMessage))))
      with false.
    cbv iota. rewrite prop_reply_object. now rewrite <- app_assoc.
  - apply valid_chat_message; [reflexivity|].
    cbn [truthy]. pose proof (mock_reply_nonempty (toLowerCase userMessage)) as H.
    now destruct (mock_reply (toLowerCase userMessage)).
Qed.

Lemma backend_step
    (userMessage : string) (st : chat_state) (log : list Request) :
  Forall valid_message (messages st) -> userMessage <> EmptyString ->
  let updated := messages st ++ [chat_message (JStr "user") (JStr userMessage)] in
  let req := post_request "/api/chat"
               (Json (JObj {[ "messages"%string := JArr updated ]})) [] in
  let failed (e : exn) :=
    {| messages := updated; isChatLoading := false;
       chatError :=
         Some (message_or type_error_message e
                 "Failed to get response. Please try again.") |} in
  handleSendMessage_with adapter type_error_message false userMessage st log
  = (match adapter req with
     | inl e => failed (on_rejected e)
     | inr r =>
         if nullish (data r) then failed TypeError
         else {| messages :=
                   updated ++ [chat_message (JStr "assistant")
                                 (prop (data r) "reply")];
                 isChatLoading := false; chatError := None |}
     end, log ++ [req]).
Proof.
  intros Hvalid Hne updated req failed.
  assert (Hupd : Forall valid_message updated).
  { apply Forall_app. split; [assumption|]. constructor; [|constructor].
    apply valid_chat_message; [reflexivity|]. now destruct userMessage. }
  assert (Hsend : sendChatMessage adapter (JArr updated) log
                  = (delivered (adapter req), log ++ [req])).
  { subst req. destruct updated as [|x l] eqn:E.
    - subst updated. now destruct (messages st).
    - now apply sendChatMessage_valid. }
  unfold handleSendMessage_with, apiFunction. fold updated. rewrite Hsend.
  destruct (adapter req) as [e|r]; cbn [delivered]; [reflexivity|].
  now destruct (nullish (data r)).
Qed.

(** With the backend (USE_MOCKS set to false), a conversation of valid
    messages and a non-empty user message cause exactly one request, which
    carries the whole conversation; a rejection leaves the user's message in
    the conversation and shows a non-empty error; an answer appends the
    assistant's message with the reply of the body. *)
Theorem chat_with_backend
    (userMessage : string) (st : chat_state) (log : list Request) :
  Forall valid_message (messages st) -> userMessage <> EmptyString ->
  let updated := messages st ++ [chat_message (JStr "user") (JStr userMessage)] in
  let req := post_request "/api/chat"
               (Json (JObj {[ "messages"%string := JArr updated ]})) [] in
  exists st',
    handleSendMessage_with adapter type_error_message false userMessage st log
    = (st', log ++ [req])
    /\ isChatLoading st' = false
    /\ match adapter req with
       | inl e =>
           messages st' = updated
           /\ exists msg, chatError st' = Some msg /\ msg <> EmptyString
       | inr r =>
           if nullish (data r) then
             messages st' = updated
             /\ exists msg, chatError st' = Some msg /\ msg <> EmptyString
           else
             messages st'
             = updated ++ [chat_message (JStr "assistant")
                             (prop (data r) "reply")]
             /\ chatError st' = None
       end.
Proof.
  intros Hvalid Hne updated req.
  rewrite (backend_step userMessage st log Hvalid Hne). fold updated req.
  destruct (adapter req) as [e|r].
  - eexists. split; [reflexivity|]. split; [reflexivity|].
    split; [reflexivity|]. eexists. split; [reflexivity|].
    now apply message_or_nonempty.
  - destruct (nullish (data r)).
    + eexists. split; [reflexivity|]. split; [reflexivity|].
      split; [reflexivity|]. eexists. split; [reflexivity|].
      now apply message_or_nonempty.
    + eexists. split; [reflexivity|]. now repeat split.
Qed.

Lemma stuck_step
    (userMessage : string) (st : chat_state) (log : list Request) :
  Forall (fun msg => nullish msg = false) (messages st) ->
  Exists lacks_role_or_content (messages st) ->
  let st' :=
    {| messages := messages st ++ [chat_message (JStr "user") (JStr userMessage)];
       isChatLoading := false;
       chatError := Some "Each message must have a role and content"%string |} in
  handleSendMessage_with adapter type_error_message false userMessage st log
  = (st', log)
  /\ Forall (fun msg => nullish msg = false) (messages st')
  /\ Exists lacks_role_or_content (messages st').
Proof.
  intros Hobj Hex st'.
  assert (Hobj' : Forall (fun msg => nullish msg = false) (messages st')).
  { apply Forall_app. split; [assumption | now repeat constructor]. }
  assert (Hex' : Exists lacks_role_or_content (messages st'))
    by (apply Exists_app; now left).
  split; [|now split].
  assert (Hsend : sendChatMessage adapter (JArr (messages st')) log
                  = (Throw (ValidationError
                       "Each message must have a role and content"), log)).
  { unfold sendChatMessage.
    destruct (messages st') as [|x l]; [inversion Hex'|].
    unfold mbind, api_bind.
    now rewrite (check_messages_lacking _ log Hobj' Hex'). }
  unfold handleSendMessage_with, apiFunction.
  change (messages st ++ [chat_message (JStr "user") (JStr userMessage)])
    with (messages st').
  rewrite Hsend. reflexivity.
Qed.

Lemma send_all_stuck
    (later : list string) (st : chat_state) (log : list Request) :
  Forall (fun msg => nullish msg = false) (messages st) ->
  Exists lacks_role_or_content (messages st) ->
  later <> [] ->
  snd (send_all adapter type_error_message false later st log) = log
  /\ chatError (fst (send_all adapter type_error_message false later st log))
     = Some "Each message must have a role and content"%string.
Proof.
  revert st. induction later as [|u rest IH]; intros st Hobj Hex Hne;
    [contradiction|].
  cbn [send_all].
  destruct (stuck_step u st log Hobj Hex) as (-> & Hobj' & Hex').
  destruct rest as [|u' rest']; [now split|].
  apply IH; [assumption | assumption | discriminate].
Qed.

(** Once the conversation holds a message without role or content, the
    backend is never asked again: every further message is refused by the
    check of sendChatMessage, no request is sent, and the error shown is
    the one of that check. *)
Theorem chat_stuck
    (later : list string) (st : chat_state) (log : list Request) :
  Forall (fun msg => nullish msg = false) (messages st) ->
  Exists lacks_role_or_content (messages st) ->
  later <> [] ->
  let (st', log') := send_all adapter type_error_message false later st log in
  log' = log
  /\ chatError st' = Some "Each message must have a role and content"%string.
Proof.
  intros Hobj Hex Hne.
  pose proof (send_all_stuck later st log Hobj Hex Hne) as H.
  now destruct (send_all adapter type_error_message false later st log).
Qed.

(** How the conversation gets there: an answer of the backend whose body
    has no reply (or an empty one) is stored as an assistant message
    without content, with no error shown; every message sent after it is
    refused without a request. *)
Theorem empty_reply_blocks_chat
    (userMessage : string) (later : list string) (st : chat_state)
    (log : list Request) (r : Response) :
  Forall valid_message (messages st) -> userMessage <> EmptyString ->
  adapter (post_request "/api/chat"
             (Json (JObj {[ "messages"%string :=
                JArr (messages st
                      ++ [chat_message (JStr "user") (JStr userMessage)]) ]}))
             []) = inr r ->
  nullish (data r) = false -> truthy (prop (data r) "reply") = false ->
  later <> [] ->
  let (st', log') :=
    handleSendMessage_with adapter type_error_message false userMessage st log in
  let (st'', log'') :=
    send_all adapter type_error_message false later st' log' in
  chatError st' = None
  /\ (exists req, log' = log ++ [req])
  /\ log'' = log'
  /\ chatError st'' = Some "Each message must have a role and content"%string.
Proof.
  intros Hvalid Hne Hans Hn Hreply Hlater.
  rewrite (backend_step userMessage st log Hvalid Hne), Hans, Hn.
  match goal with
  | |- context [send_all _ _ _ _ ?s ?lg] =>
      pose proof (send_all_stuck later s lg) as Hstuck;
      destruct (send_all adapter type_error_message false later s lg)
        as [st'' log'']
  end.
  cbn [fst snd messages] in Hstuck.
  destruct Hstuck as [-> ->]; [| | assumption | eauto 6].
  - rewrite !Forall_app. repeat split.
    + eapply Forall_impl; [exact Hvalid|]. now intros x (H & _).
    + now repeat constructor.
    + now repeat constructor.
  - apply Exists_app. right. constructor. right.
    now rewrite (proj2 (prop_chat_message _ _)).
Qed.

End ChatFacts.

(** ** The further properties at concrete inputs *)

Section MoreExamples.

Import Api Mocks ImageUploadForm GenAIView.

Lemma label_and_note_witness :
  confidenceLabel (getConfidenceLevel (Fin 67)) = "Moderate confidence"%string
  /\ interpretation (Fin 67) = [note_low].
Proof.
  apply (proj1 (proj2 (label_and_note 67))); [discriminate | reflexivity].
Defined.


Lemma validateFile_agrees_witness :
  (exists f, Some png_file = Some f
     /\ uploadImageAndPredict online (Some png_file) []
        = (delivered (online
             (post_request "/api/predict" (FormData [("image"%string, f)])
                [("Content-Type", "multipart/form-data")%string])),
           [] ++ [post_request "/api/predict"
                    (FormData [("image"%string, f)])
                    [("Content-Type", "multipart/form-data")%string]]))
  /\ (exists msg, uploadImageAndPredict online (Some large_file) []
                  = (Throw (ValidationError msg), [])).
Proof.
  split.
  - apply (proj1 (validateFile_agrees online (Some png_file) [])).
    reflexivity.
  - apply (proj2 (validateFile_agrees online (Some large_file) [])).
    discriminate.
Defined.

Lemma submit_enabled_witness :
  let st := {| selectedFile := Some png_file; previewUrl := Some "blob:1"%string;
               isDragOver := false; error := None |} in
  exists f, selectedFile st = Some f /\ error st = None
            /\ handle (fun _ => "blob:1"%string) st Submit = (st, Some f).
Proof.
  apply (submit_enabled (fun _ => "blob:1"%string) false
           {| selectedFile := Some png_file; previewUrl := Some "blob:1"%string;
              isDragOver := false; error := None |}).
  reflexivity.
Defined.

Lemma perfect_classifier_witness :
  F64.ConfusionMatrix (fun _ => EmptyString) ((7, 0), (0, 3))%N
  = Some {| accuracy := "100.0"; precision := "100.0";
            recall := "100.0"; f1Score := "100.0" |}.
Proof.
  apply (perfect_classifier (fun _ => EmptyString) 7 3); reflexivity.
Defined.

Lemma swap_errors_witness :
  exists st st',
    F64.ConfusionMatrix (fun _ => EmptyString) ((4250, 350), (420, 4980))%N
    = Some st
    /\ F64.ConfusionMatrix (fun _ => EmptyString) ((4250, 420), (350, 4980))%N
       = Some st'
    /\ accuracy st' = accuracy st /\ precision st' = recall st
    /\ recall st' = precision st /\ f1Score st' = f1Score st.
Proof.
  apply (swap_errors (fun _ => EmptyString) 4250 350 420 4980); reflexivity.
Defined.

Lemma accuracy_in_range_witness :
  exists st,
    F64.ConfusionMatrix (fun _ => EmptyString) ((5, 0), (2, 0))%N = Some st
    /\ in_range (accuracy st).
Proof.
  apply (accuracy_in_range (fun _ => EmptyString) 5 0 2 0); reflexivity.
Defined.

Lemma chartData_any_lengths_witness :
  let m := {| epochs := [of_Z 1; of_Z 2]; train_accuracy := [Fin (1 # 2)];
              val_accuracy := []; train_loss := [Fin 1; Fin (1 # 2)];
              val_loss := [Fin 1] |} in
  let row := {| epoch := of_Z 2; trainAccuracy := None; valAccuracy := None;
                trainLoss := Some (Fin (1 # 2)); valLoss := None |} in
  trainAccuracy row = train_accuracy m !! 1%nat
  /\ valAccuracy row = val_accuracy m !! 1%nat
  /\ trainLoss row = train_loss m !! 1%nat
  /\ valLoss row = val_loss m !! 1%nat
  /\ (trainAccuracy row = None <-> (length (train_accuracy m) <= 1)%nat)
  /\ (valAccuracy row = None <-> (length (val_accuracy m) <= 1)%nat)
  /\ (trainLoss row = None <-> (length (train_loss m) <= 1)%nat)
  /\ (valLoss row = None <-> (length (val_loss m) <= 1)%nat).
Proof.
  intros m row.
  apply (proj2 (proj2 (chartData_any_lengths m)) 1%nat row).
  reflexivity.
Defined.


Lemma getSummaryStats_throws_witness :
  getSummaryStats (fun _ => EmptyString)
    (Some {| epochs := []; train_accuracy := []; val_accuracy := [];
             train_loss := []; val_loss := [] |})
  = Throw TypeError.
Proof.
  apply (proj2 (getSummaryStats_throws_iff (fun _ => EmptyString)
           {| epochs := []; train_accuracy := []; val_accuracy := [];
              train_loss := []; val_loss := [] |})).
  left. reflexivity.
Defined.

(** "training" contains "ai". *)
Lemma mock_chat_ai_first_witness :
  mockSendChatMessage
    ([JObj {[ "role"%string := JStr "user" ]}]
     ++ [chat_message (JStr "user")
           (JStr ("What is the tr" ++ "AI" ++ "ning accuracy?"))])
  = Resolve (reply_object reply_fake).
Proof.
  apply (mock_chat_ai_first
           [JObj {[ "role"%string := JStr "user" ]}]
           (chat_message (JStr "user")
              (JStr ("What is the tr" ++ "AI" ++ "ning accuracy?")))
           "What is the tr" "AI" "ning accuracy?").
  - reflexivity.
  - apply (proj2 (prop_chat_message _ _)).
  - right. reflexivity.
Defined.

Lemma mock_prediction_range_witness :
  exists result n c pct,
    Mocks.mockUploadImageAndPredict (fun _ => EmptyString) None
      0.75%float 0.375%float = Some result
    /\ (75 <= n <= 95)%N
    /\ F64.nearest (inject_Z (Z.of_N n) / 100)
       = Some (Mocks.confidence result)
    /\ F64.value (Mocks.confidence result) = Fin c
    /\ (3 # 4 <= c <= 19 # 20)%Q
    /\ F64.value (F64.confidencePercent (Mocks.confidence result)) = Fin pct
    /\ (75 <= pct <= 95)%Q
    /\ F64.confidenceLevel (Mocks.confidence result) <> low
    /\ isReal (Mocks.prediction result)
       = Api.Resolve (0.5 <? 0.75)%float.
Proof.
  apply (mock_prediction_range (fun _ => EmptyString) None
           0.75%float 0.375%float (3 # 8)).
  - reflexivity.
  - discriminate.
  - reflexivity.
Defined.

(** With Math.random() = 0.375 the confidence is 0.82: the sum
    0.75 + 0.375 * 0.2 is a double just below 0.825. *)
Example mock_prediction_sample :
  (confidence <$> mockUploadImageAndPredict (fun _ => EmptyString) None
                    0.75%float 0.375%float)
  = F64.nearest (82 # 100).
Proof. reflexivity. Qed.

Lemma chat_with_backend_witness :
  let updated := messages GenAIView.initial
                 ++ [chat_message (JStr "user") (JStr "hello")] in
  let req := post_request "/api/chat"
               (Json (JObj {[ "messages"%string := JArr updated ]})) [] in
  exists st',
    handleSendMessage_with (replying (JStr "hi")) "" false "hello"
      GenAIView.initial []
    = (st', [] ++ [req])
    /\ isChatLoading st' = false
    /\ match replying (JStr "hi") req with
       | inl e =>
           messages st' = updated
           /\ exists msg, chatError st' = Some msg /\ msg <> EmptyString
       | inr r =>
           if nullish (data r) then
             messages st' = updated
             /\ exists msg, chatError st' = Some msg /\ msg <> EmptyString
           else
             messages st'
             = updated ++ [chat_message (JStr "assistant")
                             (prop (data r) "reply")]
             /\ chatError st' = None
       end.
Proof.
  apply (chat_with_backend (replying (JStr "hi")) "" "hello"
           GenAIView.initial []).
  - constructor.
  - discriminate.
Defined.

Lemma chat_stuck_witness :
  let (st', log') :=
    send_all (replying (JStr "hi")) "" false ["again"; "anyone?"]%string
      broken_chat [] in
  log' = []
  /\ chatError st' = Some "Each message must have a role and content"%string.
Proof.
  apply (chat_stuck (replying (JStr "hi")) "" ["again"; "anyone?"]%string
           broken_chat []).
  - repeat constructor.
  - right. left. right.
    now rewrite (proj2 (prop_chat_message _ _)).
  - discriminate.
Defined.

Lemma empty_reply_blocks_chat_witness :
  let (st', log') :=
    handleSendMessage_with (replying (JStr "")) "" false "hello"
      GenAIView.initial [] in
  let (st'', log'') :=
    send_all (replying (JStr "")) "" false ["again"]%string st' log' in
  chatError st' = None
  /\ (exists req, log' = [] ++ [req])
  /\ log'' = log'
  /\ chatError st'' = Some "Each message must have a role and content"%string.
Proof.
  apply (empty_reply_blocks_chat (replying (JStr "")) "" "hello"
           ["again"]%string GenAIView.initial []
           {| data := JObj {[ "reply"%string := JStr "" ]}; status := 200 |}).
  - constructor.
  - discriminate.
  - reflexivity.
  - reflexivity.
  - vm_compute. reflexivity.
  - discriminate.
Defined.

End MoreExamples.
